(** * engine-xr math layer: coordinate conversion, legacy bridge, slerp and
      camera animation

    A shallow embedding of [engine-xr/src/math/AstroMath.ts],
    [engine-xr/src/math/WWTCompat.ts], [engine-xr/src/math/BabylonMath.ts] and
    [engine-xr/src/animation/CameraAnimator.ts].

    - A JavaScript number is an IEEE 754 binary64 value: [spec_float] at
      precision 53, with the Standard Library's executable operations.
    - Babylon.js [Vector3] objects and [CameraAnimator] objects live in a
      store and are named by reference, because the code mutates them in place
      and shares them ([Vector3.normalize] is an in-place operation).
    - The transcendental functions of [Math] and the Babylon.js easing
      functions are the platform's: the model takes them as a [Platform]. *)

From Stdlib Require Import ZArith Bool Lia List.
From Stdlib Require Import Floats.SpecFloat.
From Stdlib Require String.
From stdpp Require Import base list option.

Local Open Scope Z_scope.

(** ** JavaScript numbers *)

Definition number : Type := spec_float.

Definition prec : Z := 53.
Definition emax : Z := 1024.

Module Num.

(** An integer literal. *)
Definition of_Z (n : Z) : number := binary_normalize prec emax n 0 false.

Definition NaN : number := S754_nan.

Definition add : number -> number -> number := SFadd prec emax.
Definition sub : number -> number -> number := SFsub prec emax.
Definition mul : number -> number -> number := SFmul prec emax.
Definition div : number -> number -> number := SFdiv prec emax.
Definition sqrt : number -> number := SFsqrt prec emax.
Definition neg : number -> number := SFopp.

(** A decimal literal [m / 10^k]: the double nearest to it, which the
    correctly rounded quotient of the two exact integers is. *)
Definition dec (m : Z) (k : nat) : number := div (of_Z m) (of_Z (10 ^ Z.of_nat k)).

(** [a < b], [a > b], [a >= b], [a <= b] and [a === b]; every comparison
    with NaN is false, and the two zeros are equal. *)
Definition lt (a b : number) : bool := SFltb a b.
Definition gt (a b : number) : bool := SFltb b a.
Definition ge (a b : number) : bool := SFleb b a.
Definition le (a b : number) : bool := SFleb a b.
Definition strict_eq (a b : number) : bool := SFeqb a b.

Definition is_nan (a : number) : bool :=
  match a with S754_nan => true | _ => false end.

Definition is_neg_zero (a : number) : bool :=
  match a with S754_zero true => true | _ => false end.

(** [Math.min] and [Math.max] on two arguments: NaN if either is NaN, and
    -0 is smaller than +0. *)
Definition min (a b : number) : number :=
  if is_nan a || is_nan b then NaN
  else if strict_eq a b then (if is_neg_zero a then a else b)
  else if lt a b then a else b.

Definition max (a b : number) : number :=
  if is_nan a || is_nan b then NaN
  else if strict_eq a b then (if is_neg_zero a then b else a)
  else if lt a b then b else a.

(** The remainder operator [n % d]: exact, with the sign of the dividend. *)
Definition rem (n d : number) : number :=
  match n, d with
  | S754_nan, _ | _, S754_nan => NaN
  | S754_infinity _, _ => NaN
  | _, S754_zero _ => NaN
  | _, S754_infinity _ => n
  | S754_zero _, _ => n
  | S754_finite sn mn en, S754_finite _ md ed =>
      let e := Z.min en ed in
      let r := Z.rem (Z.shiftl (Zpos mn) (en - e)) (Z.shiftl (Zpos md) (ed - e)) in
      binary_normalize prec emax (cond_Zopp sn r) e sn
  end.

(** [Math.fround]: the nearest binary32 value, as a double. *)
Definition fround (a : number) : number :=
  match a with
  | S754_finite s m e =>
      match binary_round 24 128 s m e with
      | S754_finite s' m' e' => binary_round prec emax s' m' e'
      | r => r
      end
  | _ => a
  end.

Definition zero : number := S754_zero false.
Definition one : number := of_Z 1.

End Num.

Declare Scope num_scope.
Delimit Scope num_scope with num.
Infix "+" := Num.add : num_scope.
Infix "-" := Num.sub : num_scope.
Infix "*" := Num.mul : num_scope.
Infix "/" := Num.div : num_scope.

(** [Math.PI], the double 0x1.921fb54442d18p+1. *)
Definition Math_PI : number := S754_finite false 7074237752028440 (-51).

Local Close Scope Z_scope.

(** BabylonMath.ts: [MathConstants]. *)
Module MathConstants.
Definition DEG_TO_RAD : number := (Math_PI / Num.of_Z 180)%num.
Definition RAD_TO_DEG : number := (Num.of_Z 180 / Math_PI)%num.
Definition TWO_PI : number := (Math_PI * Num.of_Z 2)%num.
Definition HALF_PI : number := (Math_PI / Num.of_Z 2)%num.
Definition EPSILON : number := Num.dec 1 6.
End MathConstants.

(** ** The platform

    [Math.sin] and the like are implementation-approximated in ECMAScript, and
    the easing curves are Babylon.js objects; the code only calls them. *)

(** The easing objects that [createEasingFunction] builds, with the mode set
    by [setEasingMode]. *)
Inductive EasingClass := CubicEase | QuadraticEase | ExponentialEase.
Inductive EasingMode := EASINGMODE_EASEIN | EASINGMODE_EASEOUT | EASINGMODE_EASEINOUT.

Record EasingFunction := mkEasing { easingClass : EasingClass; easingMode : EasingMode }.

Class Platform := {
  Math_sin : number -> number;
  Math_cos : number -> number;
  Math_asin : number -> number;
  Math_acos : number -> number;
  Math_atan2 : number -> number -> number;
  (** [EasingFunction.ease] of Babylon.js. *)
  ease : EasingFunction -> number -> number;
  (** [PerformanceConfigurator.MatrixUse64Bits] of Babylon.js: a [Matrix]
      keeps its sixteen values in a [Float32Array] unless the engine was
      created with [useHighPrecisionMatrix]. *)
  MatrixUse64Bits : bool;
}.

(** ** Objects and the store *)

(** The contents of a Babylon.js [Vector3] object. *)
Module Vector3Data.
Record t := mk { x : number; y : number; z : number }.
End Vector3Data.

(** A Babylon.js [Vector2]: the code only builds and returns them. *)
Module Vector2.
Record t := mk { x : number; y : number }.
End Vector2.

(** A reference to an object of the store: its index. *)
Abbreviation ref := nat (only parsing).

(** CameraAnimator.ts: [EasingType]. *)
Inductive EasingType := Linear | EaseIn | EaseOut | EaseInOut | Exponential.

(** CameraAnimator.ts: [CameraAnimationConfig]; the vectors are objects. *)
Record CameraAnimationConfig := mkConfig {
  startPosition : ref;
  endPosition : ref;
  startTarget : option ref;
  endTarget : option ref;
  duration : number;
  easing : option EasingType;
  useSphericalInterpolation : option bool;
}.

(** The fields of a [CameraAnimator] object. *)
Record CameraAnimatorData := mkAnimator {
  config : CameraAnimationConfig;
  startTime : number;
  currentTime : number;
  isAnimating : bool;
  easingFunction : EasingFunction;
}.

(** The store: the [Vector3] objects and the [CameraAnimator] objects, each
    by reference, and the clock: [clock k] is what the [k]-th call of
    [performance.now()] returns, [ticks] the number of calls so far. *)
Record World := mkWorld {
  vectors : list Vector3Data.t;
  animators : list CameraAnimatorData;
  clock : nat -> number;
  ticks : nat;
}.

Definition set_vectors (vs : list Vector3Data.t) (w : World) : World :=
  mkWorld vs (animators w) (clock w) (ticks w).
Definition set_animators (an : list CameraAnimatorData) (w : World) : World :=
  mkWorld (vectors w) an (clock w) (ticks w).
Definition set_ticks (n : nat) (w : World) : World :=
  mkWorld (vectors w) (animators w) (clock w) n.

(** A computation on the store; [None] is a reference to no object, which no
    JavaScript program holds. *)
Definition JS (A : Type) : Type := World -> option (A * World).

Definition ret {A} (a : A) : JS A := fun w => Some (a, w).

Definition bind {A B} (m : JS A) (f : A -> JS B) : JS B :=
  fun w => match m w with
           | Some (a, w') => f a w'
           | None => None
           end.

Notation "'let*' x ':=' m 'in' f" := (bind m (fun x => f))
  (at level 10, x pattern, m at level 100, f at level 200).
Notation "m ';;' f" := (bind m (fun _ => f))
  (at level 100, f at level 200, right associativity).

(** [new Vector3(x, y, z)]. *)
Definition new_Vector3 (x y z : number) : JS ref :=
  fun w => Some (length (vectors w), set_vectors (vectors w ++ [Vector3Data.mk x y z]) w).

Definition get_Vector3 (r : ref) : JS Vector3Data.t :=
  fun w => match vectors w !! r with
           | Some v => Some (v, w)
           | None => None
           end.

Definition put_Vector3 (r : ref) (v : Vector3Data.t) : JS unit :=
  fun w => match vectors w !! r with
           | Some _ => Some (tt, set_vectors (<[r := v]> (vectors w)) w)
           | None => None
           end.

Definition get_Animator (r : ref) : JS CameraAnimatorData :=
  fun w => match animators w !! r with
           | Some a => Some (a, w)
           | None => None
           end.

Definition put_Animator (r : ref) (a : CameraAnimatorData) : JS unit :=
  fun w => match animators w !! r with
           | Some _ => Some (tt, set_animators (<[r := a]> (animators w)) w)
           | None => None
           end.

(** [performance.now()]. *)
Definition performance_now : JS number :=
  fun w => Some (clock w (ticks w), set_ticks (S (ticks w)) w).

(** ** Babylon.js [Vector3]

    The library is not part of the repository; these are the methods the code
    calls, as Babylon.js defines them. [normalize] and [scaleInPlace] change
    the object they are called on and return it; [scale], [add], [subtract]
    and [Lerp] build a new object. *)
Module Vector3.
Import Vector3Data.

(** [this.length()]: [Math.sqrt(x*x + y*y + z*z)]. *)
Definition length_of (v : t) : number :=
  Num.sqrt (x v * x v + y v * y v + z v * z v)%num.

Definition length (this : ref) : JS number :=
  let* v := get_Vector3 this in ret (length_of v).

Definition scaled (v : t) (s : number) : t :=
  mk (x v * s)%num (y v * s)%num (z v * s)%num.

(** [this.scaleInPlace(s)]. *)
Definition scaleInPlace (this : ref) (s : number) : JS ref :=
  let* v := get_Vector3 this in
  put_Vector3 this (scaled v s);;
  ret this.

(** [this.normalizeFromLength(len)]. *)
Definition normalizeFromLength (this : ref) (len : number) : JS ref :=
  if Num.strict_eq len Num.zero || Num.strict_eq len Num.one then ret this
  else scaleInPlace this (Num.one / len)%num.

(** [this.normalize()]: in place. *)
Definition normalize (this : ref) : JS ref :=
  let* len := length this in
  normalizeFromLength this len.

(** [this.scale(s)]. *)
Definition scale (this : ref) (s : number) : JS ref :=
  let* v := get_Vector3 this in
  new_Vector3 (x v * s)%num (y v * s)%num (z v * s)%num.

(** [this.add(other)]. *)
Definition add (this other : ref) : JS ref :=
  let* v := get_Vector3 this in
  let* o := get_Vector3 other in
  new_Vector3 (x v + x o)%num (y v + y o)%num (z v + z o)%num.

(** [this.subtract(other)]. *)
Definition subtract (this other : ref) : JS ref :=
  let* v := get_Vector3 this in
  let* o := get_Vector3 other in
  new_Vector3 (x v - x o)%num (y v - y o)%num (z v - z o)%num.

(** [Vector3.Dot(left, right)]. *)
Definition Dot (left right : ref) : JS number :=
  let* l := get_Vector3 left in
  let* r := get_Vector3 right in
  ret (x l * x r + y l * y r + z l * z r)%num.

(** [Vector3.Lerp(start, end, amount)]. *)
Definition Lerp (start end_ : ref) (amount : number) : JS ref :=
  let* s := get_Vector3 start in
  let* e := get_Vector3 end_ in
  new_Vector3 (x s + (x e - x s) * amount)%num
              (y s + (y e - y s) * amount)%num
              (z s + (z e - z s) * amount)%num.

End Vector3.

(** ** Babylon.js [Matrix] *)
Module Matrix.

Record t := mk { m : list number }.

(** Writing a number into the matrix storage: a [Float32Array] rounds it to
    single precision, a plain array keeps it. *)
Definition store `{Platform} (a : number) : number :=
  if MatrixUse64Bits then a else Num.fround a.

(** [Matrix.FromValues(...)]: the sixteen arguments fill [m[0]] to [m[15]]
    in order. *)
Definition FromValues `{Platform}
    (a0 a1 a2 a3 a4 a5 a6 a7 a8 a9 a10 a11 a12 a13 a14 a15 : number) : t :=
  mk (map store [a0; a1; a2; a3; a4; a5; a6; a7; a8; a9; a10; a11; a12; a13; a14; a15]).

(** [m[i]]; every matrix that [FromValues] builds has sixteen entries. *)
Definition get (M : t) (i : nat) : number := default Num.NaN (m M !! i).

End Matrix.

(** ** WWTCompat.ts: the legacy bridge *)

Module WWTVector3d.
Record t := mk { x : number; y : number; z : number }.
End WWTVector3d.

Module WWTMatrix3d.
Record t := mk {
  _m11 : number; _m12 : number; _m13 : number; _m14 : number;
  _m21 : number; _m22 : number; _m23 : number; _m24 : number;
  _m31 : number; _m32 : number; _m33 : number; _m34 : number;
  _offsetX : number; _offsetY : number; _offsetZ : number; _m44 : number;
}.

(** The same function applied to each of the sixteen fields. *)
Definition map_fields (f : number -> number) (a : t) : t :=
  mk (f (_m11 a)) (f (_m12 a)) (f (_m13 a)) (f (_m14 a))
     (f (_m21 a)) (f (_m22 a)) (f (_m23 a)) (f (_m24 a))
     (f (_m31 a)) (f (_m32 a)) (f (_m33 a)) (f (_m34 a))
     (f (_offsetX a)) (f (_offsetY a)) (f (_offsetZ a)) (f (_m44 a)).
End WWTMatrix3d.

Module WWTCompat.
Import WWTMatrix3d.

Definition wwtToBabylon (wwtVec : WWTVector3d.t) : JS ref :=
  new_Vector3 (WWTVector3d.x wwtVec) (WWTVector3d.y wwtVec) (WWTVector3d.z wwtVec).

Definition babylonToWWT (babylonVec : ref) : JS WWTVector3d.t :=
  let* v := get_Vector3 babylonVec in
  ret (WWTVector3d.mk (Vector3Data.x v) (Vector3Data.y v) (Vector3Data.z v)).

Definition wwtMatrixToBabylon `{Platform} (wwtMat : t) : Matrix.t :=
  Matrix.FromValues
    (_m11 wwtMat) (_m21 wwtMat) (_m31 wwtMat) (_offsetX wwtMat)
    (_m12 wwtMat) (_m22 wwtMat) (_m32 wwtMat) (_offsetY wwtMat)
    (_m13 wwtMat) (_m23 wwtMat) (_m33 wwtMat) (_offsetZ wwtMat)
    (_m14 wwtMat) (_m24 wwtMat) (_m34 wwtMat) (_m44 wwtMat).

Definition babylonMatrixToWWT (babylonMat : Matrix.t) : t :=
  let m := Matrix.get babylonMat in
  {| _m11 := m 0%nat; _m12 := m 4%nat; _m13 := m 8%nat; _m14 := m 12%nat;
     _m21 := m 1%nat; _m22 := m 5%nat; _m23 := m 9%nat; _m24 := m 13%nat;
     _m31 := m 2%nat; _m32 := m 6%nat; _m33 := m 10%nat; _m34 := m 14%nat;
     _offsetX := m 3%nat;
     _offsetY := m 7%nat;
     _offsetZ := m 11%nat;
     _m44 := m 15%nat |}.

(** [copyWWTToBabylon(wwtVec, babylonVec)]: writes the three fields of the
    existing [Vector3]. *)
Definition copyWWTToBabylon (wwtVec : WWTVector3d.t) (babylonVec : ref) : JS unit :=
  put_Vector3 babylonVec
    (Vector3Data.mk (WWTVector3d.x wwtVec) (WWTVector3d.y wwtVec) (WWTVector3d.z wwtVec)).

(** [copyBabylonToWWT(babylonVec, wwtVec)]: writes the three fields of the
    legacy object [wwtVec]; its contents after the call are returned. *)
Definition copyBabylonToWWT (babylonVec : ref) (wwtVec : WWTVector3d.t) : JS WWTVector3d.t :=
  let* v := get_Vector3 babylonVec in
  let wwtVec := WWTVector3d.mk (Vector3Data.x v) (WWTVector3d.y wwtVec) (WWTVector3d.z wwtVec) in
  let wwtVec := WWTVector3d.mk (WWTVector3d.x wwtVec) (Vector3Data.y v) (WWTVector3d.z wwtVec) in
  let wwtVec := WWTVector3d.mk (WWTVector3d.x wwtVec) (WWTVector3d.y wwtVec) (Vector3Data.z v) in
  ret wwtVec.

Definition batchWWTToBabylon (wwtVecs : list WWTVector3d.t) : JS (list ref) :=
  fold_right (fun v rest => let* r := wwtToBabylon v in let* rs := rest in ret (r :: rs))
             (ret []) wwtVecs.

Definition batchBabylonToWWT (babylonVecs : list ref) : JS (list WWTVector3d.t) :=
  fold_right (fun v rest => let* r := babylonToWWT v in let* rs := rest in ret (r :: rs))
             (ret []) babylonVecs.

End WWTCompat.

(** ** AstroMath.ts *)
Module AstroMath.
Import MathConstants.

Section WithPlatform.
Context `{Platform}.

(** [geoTo3D(lat, lng, radius = 1.0)]. *)
Definition geoTo3D (lat lng : number) (radius : option number) : JS ref :=
  let radius := default Num.one radius in
  let latRad := (lat * DEG_TO_RAD)%num in
  let lngRad := (lng * DEG_TO_RAD)%num in
  new_Vector3
    (Math_cos lngRad * Math_cos latRad * radius)%num
    (Math_sin latRad * radius)%num
    (Math_sin lngRad * Math_cos latRad * radius)%num.

(** The longitude fold of [cartesianToSpherical]:
    [if (lng > 180) lng = -180 + (180 - lng)]. *)
Definition normalizeLongitude (lng : number) : number :=
  if Num.gt lng (Num.of_Z 180)
  then (Num.neg (Num.of_Z 180) + (Num.of_Z 180 - lng))%num
  else lng.

Definition cartesianToSpherical (vec : ref) : JS Vector2.t :=
  let* rho := Vector3.length vec in
  if Num.strict_eq rho Num.zero then ret (Vector2.mk Num.zero Num.zero)
  else
    let* v := get_Vector3 vec in
    let longitude := Math_atan2 (Vector3Data.z v) (Vector3Data.x v) in
    let latitude := Math_asin (Vector3Data.y v / rho)%num in
    let lat := (latitude * RAD_TO_DEG)%num in
    let lng := (longitude * RAD_TO_DEG)%num in
    ret (Vector2.mk lat (normalizeLongitude lng)).

(** [raDecTo3D(ra, dec, radius = 1.0)]. *)
Definition raDecTo3D (ra dec : number) (radius : option number) : JS ref :=
  let radius := default Num.one radius in
  let lng := (ra * Num.of_Z 15)%num in
  geoTo3D dec lng (Some radius).

Definition cartesianToRaDec (vec : ref) : JS Vector2.t :=
  let* spherical := cartesianToSpherical vec in
  let ra := Num.rem (Vector2.y spherical / Num.of_Z 15 + Num.of_Z 24)%num (Num.of_Z 24) in
  let dec := Vector2.x spherical in
  ret (Vector2.mk ra dec).

Definition slerp (v1 v2 : ref) (t : number) : JS ref :=
  let* dot := Vector3.Dot v1 v2 in
  if Num.gt dot (Num.dec 9995 4) then
    let* l := Vector3.Lerp v1 v2 t in
    Vector3.normalize l
  else
    let clampedDot := Num.max (Num.neg (Num.of_Z 1)) (Num.min (Num.of_Z 1) dot) in
    let theta := (Math_acos clampedDot * t)%num in
    let* s := Vector3.scale v1 clampedDot in
    let* d := Vector3.subtract v2 s in
    let* relative := Vector3.normalize d in
    let* a := Vector3.scale v1 (Math_cos theta) in
    let* b := Vector3.scale relative (Math_sin theta) in
    Vector3.add a b.

Definition greatCircleDistance (lat1 lng1 lat2 lng2 : number) : JS number :=
  let* p1 := geoTo3D lat1 lng1 None in
  let* p2 := geoTo3D lat2 lng2 None in
  let* dot := Vector3.Dot p1 p2 in
  let clampedDot := Num.max (Num.neg (Num.of_Z 1)) (Num.min (Num.of_Z 1) dot) in
  ret (Math_acos clampedDot * RAD_TO_DEG)%num.

Definition sphericalMidpoint (lat1 lng1 lat2 lng2 : number) : JS Vector2.t :=
  let* p1 := geoTo3D lat1 lng1 None in
  let* p2 := geoTo3D lat2 lng2 None in
  let* sum := Vector3.add p1 p2 in
  let* half := Vector3.scale sum (Num.dec 5 1) in
  let* midpoint := Vector3.normalize half in
  cartesianToSpherical midpoint.

Definition projectToXY (vec : ref) : JS Vector2.t :=
  let* v := get_Vector3 vec in
  ret (Vector2.mk (Vector3Data.x v) (Vector3Data.y v)).

Definition projectToXZ (vec : ref) : JS Vector2.t :=
  let* v := get_Vector3 vec in
  ret (Vector2.mk (Vector3Data.x v) (Vector3Data.z v)).

Definition rotateAroundY (vec : ref) (angleDeg : number) : JS ref :=
  let angleRad := (angleDeg * DEG_TO_RAD)%num in
  let cos := Math_cos angleRad in
  let sin := Math_sin angleRad in
  let* v := get_Vector3 vec in
  new_Vector3
    (Vector3Data.x v * cos + Vector3Data.z v * sin)%num
    (Vector3Data.y v)
    (Num.neg (Vector3Data.x v) * sin + Vector3Data.z v * cos)%num.

Definition cartesianToAzAlt (vec : ref) : JS Vector2.t :=
  let* normalized := Vector3.normalize vec in
  let* n := get_Vector3 normalized in
  let azimuth :=
    Num.rem (Math_atan2 (Vector3Data.x n) (Vector3Data.z n) * RAD_TO_DEG + Num.of_Z 360)%num
            (Num.of_Z 360) in
  let altitude := (Math_asin (Vector3Data.y n) * RAD_TO_DEG)%num in
  ret (Vector2.mk azimuth altitude).

Definition azAltTo3D (azimuth altitude : number) : JS ref :=
  let azRad := (azimuth * DEG_TO_RAD)%num in
  let altRad := (altitude * DEG_TO_RAD)%num in
  let cosAlt := Math_cos altRad in
  new_Vector3
    (Math_sin azRad * cosAlt)%num
    (Math_sin altRad)
    (Math_cos azRad * cosAlt)%num.

End WithPlatform.
End AstroMath.

(** ** CameraAnimator.ts *)

(** What [update()] returns when it is not [null]. *)
Record Frame := mkFrame { position : ref; target : option ref }.

Module CameraAnimator.

Section WithPlatform.
Context `{Platform}.

Definition createEasingFunction (type : EasingType) : EasingFunction :=
  match type with
  | Linear => mkEasing CubicEase EASINGMODE_EASEIN
  | EaseIn => mkEasing QuadraticEase EASINGMODE_EASEIN
  | EaseOut => mkEasing QuadraticEase EASINGMODE_EASEOUT
  | EaseInOut => mkEasing CubicEase EASINGMODE_EASEINOUT
  | Exponential => mkEasing ExponentialEase EASINGMODE_EASEINOUT
  end.

(** [new CameraAnimator(config)]. *)
Definition new (config : CameraAnimationConfig) : JS ref :=
  fun w =>
    let a := {| config := config;
                startTime := Num.zero;
                currentTime := Num.zero;
                isAnimating := false;
                easingFunction := createEasingFunction (default EaseInOut (easing config)) |} in
    Some (length (animators w), set_animators (animators w ++ [a]) w).

Definition set_startTime (t : number) (a : CameraAnimatorData) : CameraAnimatorData :=
  mkAnimator (config a) t (currentTime a) (isAnimating a) (easingFunction a).
Definition set_currentTime (t : number) (a : CameraAnimatorData) : CameraAnimatorData :=
  mkAnimator (config a) (startTime a) t (isAnimating a) (easingFunction a).
Definition set_isAnimating (b : bool) (a : CameraAnimatorData) : CameraAnimatorData :=
  mkAnimator (config a) (startTime a) (currentTime a) b (easingFunction a).

(** An assignment to a field of [this]. *)
Definition assign (this : ref) (f : CameraAnimatorData -> CameraAnimatorData) : JS unit :=
  let* a := get_Animator this in
  put_Animator this (f a).

Definition start (this : ref) : JS unit :=
  let* now := performance_now in
  assign this (set_startTime now);;
  assign this (set_currentTime Num.zero);;
  assign this (set_isAnimating true).

(** [this.config.useSphericalInterpolation] as a condition. *)
Definition spherical (c : CameraAnimationConfig) : bool :=
  default false (useSphericalInterpolation c).

(** [Math.min(this.currentTime / this.config.duration, 1.0)]. *)
Definition progress_of (a : CameraAnimatorData) : number :=
  Num.min (currentTime a / duration (config a))%num Num.one.

Definition update (this : ref) : JS (option Frame) :=
  let* a0 := get_Animator this in
  if negb (isAnimating a0) then ret None
  else
    let* now := performance_now in
    assign this (set_currentTime (now - startTime a0)%num);;
    let* a := get_Animator this in
    let cfg := config a in
    let progress := progress_of a in
    let easedProgress := ease (easingFunction a) progress in
    let* position :=
      if spherical cfg then
        let* n1 := Vector3.normalize (startPosition cfg) in
        let* n2 := Vector3.normalize (endPosition cfg) in
        let* position := AstroMath.slerp n1 n2 easedProgress in
        let* startDist := Vector3.length (startPosition cfg) in
        let* endDist := Vector3.length (endPosition cfg) in
        let dist := (startDist + (endDist - startDist) * easedProgress)%num in
        Vector3.scaleInPlace position dist
      else
        Vector3.Lerp (startPosition cfg) (endPosition cfg) easedProgress in
    let* target :=
      match startTarget cfg, endTarget cfg with
      | Some st, Some et =>
          if spherical cfg then
            let* n1 := Vector3.normalize st in
            let* n2 := Vector3.normalize et in
            let* t := AstroMath.slerp n1 n2 easedProgress in
            ret (Some t)
          else
            let* t := Vector3.Lerp st et easedProgress in
            ret (Some t)
      | _, _ => ret None
      end in
    if Num.ge progress Num.one then
      assign this (set_isAnimating false);;
      ret (Some (mkFrame (endPosition cfg) (endTarget cfg)))
    else
      ret (Some (mkFrame position target)).

Definition stop (this : ref) : JS unit :=
  assign this (set_isAnimating false).

Definition active (this : ref) : JS bool :=
  let* a := get_Animator this in ret (isAnimating a).

Definition progress (this : ref) : JS number :=
  let* a := get_Animator this in
  if negb (isAnimating a) then ret Num.one
  else ret (progress_of a).

(** [createCameraMove(from, to, durationMs, easing = EaseInOut, useSpherical = true)]. *)
Definition createCameraMove (from to : ref) (durationMs : number)
    (easing : option EasingType) (useSpherical : option bool) : JS ref :=
  new {| startPosition := from;
         endPosition := to;
         startTarget := None;
         endTarget := None;
         duration := durationMs;
         easing := Some (default EaseInOut easing);
         useSphericalInterpolation := Some (default true useSpherical) |}.

End WithPlatform.
End CameraAnimator.

(** [CameraAnimationChain]: the chain object holds the array of animators (by
    reference) and the cursor. *)
Record CameraAnimationChainData := mkChain {
  animations : list ref;
  currentIndex : nat;
}.

Module CameraAnimationChain.

Section WithPlatform.
Context `{Platform}.

Definition new (animations : list ref) : CameraAnimationChainData :=
  mkChain animations 0.

Definition set_currentIndex (i : nat) (c : CameraAnimationChainData) :=
  mkChain (animations c) i.

(** [this.animations[i]] for an index inside the array. *)
Definition animation_at (c : CameraAnimationChainData) (i : nat) : JS ref :=
  fun w => match animations c !! i with
           | Some a => Some (a, w)
           | None => None
           end.

Definition start (this : CameraAnimationChainData) : JS CameraAnimationChainData :=
  if (0 <? length (animations this))%nat then
    let this := set_currentIndex 0 this in
    let* a := animation_at this 0 in
    CameraAnimator.start a;;
    ret this
  else ret this.

(** [update()] calls itself once the cursor has advanced; [fuel] bounds the
    depth of that recursion. *)
Fixpoint update_rec (fuel : nat) (this : CameraAnimationChainData)
    : JS (option Frame * CameraAnimationChainData) :=
  if (length (animations this) <=? currentIndex this)%nat then ret (None, this)
  else
    let* current := animation_at this (currentIndex this) in
    let* state := CameraAnimator.update current in
    match state with
    | None =>
        if (currentIndex this <? length (animations this) - 1)%nat then
          match fuel with
          | O => fun _ => None
          | S fuel' =>
              let this := set_currentIndex (S (currentIndex this)) this in
              let* next := animation_at this (currentIndex this) in
              CameraAnimator.start next;;
              update_rec fuel' this
          end
        else ret (state, this)
    | Some _ => ret (state, this)
    end.

(** The cursor moves forward at every recursive call and stops before the
    end of the array, so the length of the array is fuel enough. *)
Definition update (this : CameraAnimationChainData)
    : JS (option Frame * CameraAnimationChainData) :=
  update_rec (length (animations this)) this.

Definition active (this : CameraAnimationChainData) : JS bool :=
  if (currentIndex this <? length (animations this))%nat then
    let* a := animation_at this (currentIndex this) in
    CameraAnimator.active a
  else ret false.

End WithPlatform.
End CameraAnimationChain.

(** ** A reference platform

    An implementation of the platform's functions, so that the model runs on
    concrete inputs: the transcendental functions are computed in 128-bit
    fixed point and rounded to the nearest double, with the values ECMAScript
    fixes at the special arguments, and the easing functions are those of
    Babylon.js. The theorems below hold of every platform unless they
    name this one, which instantiates them. *)
Module ReferencePlatform.

Local Open Scope Z_scope.

(** Fixed point: an integer [a] stands for [a / 2^128]. *)
Definition N : Z := 128.
Definition unit : Z := 2 ^ N.
Definition PI_fix : Z := 1069028584064966747859680373161870783300.
Definition LN2_fix : Z := 235865763225513294137944142764154484399.

Definition fmul (a b : Z) : Z := Z.shiftr (a * b) N.
Definition fdiv (a b : Z) : Z := Z.shiftl a N / b.
Definition fsqrt (a : Z) : Z := Z.sqrt (Z.shiftl a N).

(** The value of a finite double, truncated to fixed point. *)
Definition to_fix (a : number) : Z :=
  match a with
  | S754_finite s m e => cond_Zopp s (Z.shiftl (Zpos m) (e + N))
  | _ => 0
  end.

Definition of_fix (a : Z) : number := binary_normalize prec emax a (- N) false.

(** [|a| < 2^k] for a finite double. *)
Definition below_pow2 (a : number) (k : Z) : bool :=
  match a with
  | S754_finite _ m e => Zpos (digits2_pos m) + e <=? k
  | S754_zero _ => true
  | _ => false
  end.

(** The sine and the cosine of [r], [|r| <= pi/4], by their power series;
    [term] is [r^(k-1) / (k-1)!]. *)
Fixpoint sincos_series (fuel : nat) (k : Z) (term r s c : Z) : Z * Z :=
  match fuel with
  | O => (s, c)
  | S fuel' =>
      let term' := fmul term r / k in
      match k mod 4 with
      | 1 => sincos_series fuel' (k + 1) term' r (s + term') c
      | 2 => sincos_series fuel' (k + 1) term' r s (c - term')
      | 3 => sincos_series fuel' (k + 1) term' r (s - term') c
      | _ => sincos_series fuel' (k + 1) term' r s (c + term')
      end
  end.

(** The sine and the cosine of a finite double, in fixed point. *)
Definition sincos_fix (a : number) : Z * Z :=
  let x := to_fix a in
  let k := (4 * x + PI_fix) / (2 * PI_fix) in
  let r := x - (k * PI_fix) / 2 in
  let '(s, c) := sincos_series 40 1 unit r 0 unit in
  match k mod 4 with
  | 0 => (s, c)
  | 1 => (c, - s)
  | 2 => (- s, - c)
  | _ => (- c, s)
  end.

Definition sin (a : number) : number :=
  match a with
  | S754_nan | S754_infinity _ => Num.NaN
  | S754_zero _ => a
  | S754_finite _ _ _ => if below_pow2 a (-30) then a else of_fix (fst (sincos_fix a))
  end.

Definition cos (a : number) : number :=
  match a with
  | S754_nan | S754_infinity _ => Num.NaN
  | S754_zero _ => Num.one
  | S754_finite _ _ _ => if below_pow2 a (-30) then Num.one else of_fix (snd (sincos_fix a))
  end.

(** The arc tangent of [t], [0 <= t <= 1/8], by its power series; [pow] is
    [t^(2k+1)]. *)
Fixpoint atan_series (fuel : nat) (k : Z) (pow t2 acc : Z) : Z :=
  match fuel with
  | O => acc
  | S fuel' =>
      let pow' := fmul pow t2 in
      let term := pow' / (2 * k + 1) in
      atan_series fuel' (k + 1) pow' t2 (if Z.even k then acc + term else acc - term)
  end.

(** [atan t = 2 atan (t / (1 + sqrt (1 + t^2)))]. *)
Definition halve (t : Z) : Z := fdiv t (unit + fsqrt (unit + fmul t t)).

(** The arc tangent of [t], [0 <= t <= 1]. *)
Definition atan_unit (t : Z) : Z :=
  let t3 := halve (halve (halve t)) in
  8 * atan_series 30 1 t3 (fmul t3 t3) t3.

(** The angle of the point [(x, y)] of the first quadrant, [x] and [y] not
    both zero. *)
Definition angle (y x : Z) : Z :=
  if y <=? x then atan_unit (Z.shiftl y N / x)
  else PI_fix / 2 - atan_unit (Z.shiftl x N / y).

(** Two finite doubles as integers over a common exponent. *)
Definition aligned (y x : number) : Z * Z :=
  match y, x with
  | S754_finite _ my ey, S754_finite _ mx ex =>
      let e := Z.min ey ex in
      (Z.shiftl (Zpos my) (ey - e), Z.shiftl (Zpos mx) (ex - e))
  | _, _ => (0, 0)
  end.

Definition sign_of (a : number) : bool :=
  match a with
  | S754_zero s | S754_infinity s | S754_finite s _ _ => s
  | S754_nan => false
  end.

Definition signed (s : bool) (a : number) : number := if s then Num.neg a else a.

Definition atan2 (y x : number) : number :=
  let pi := of_fix PI_fix in
  let half_pi := of_fix (PI_fix / 2) in
  match y, x with
  | S754_nan, _ | _, S754_nan => Num.NaN
  | S754_zero sy, _ => signed sy (if sign_of x then pi else Num.zero)
  | S754_infinity sy, S754_infinity sx =>
      signed sy (of_fix (if sx then 3 * PI_fix / 4 else PI_fix / 4))
  | S754_infinity sy, _ => signed sy half_pi
  | S754_finite sy _ _, S754_infinity sx => signed sy (if sx then pi else Num.zero)
  | S754_finite sy _ _, S754_zero _ => signed sy half_pi
  | S754_finite sy _ _, S754_finite sx _ _ =>
      let '(ay, ax) := aligned y x in
      let small := Num.div (SFabs y) (SFabs x) in
      signed sy
        (if sx then of_fix (PI_fix - angle ay ax)
         else if below_pow2 small (-40) then small
         else of_fix (angle ay ax))
  end.

Definition asin (a : number) : number :=
  match a with
  | S754_finite s _ _ =>
      if below_pow2 a (-30) then a
      else
        let x := Z.abs (to_fix a) in
        if unit <? x then Num.NaN
        else signed s (of_fix (angle x (Z.sqrt (unit * unit - x * x))))
  | S754_zero _ => a
  | _ => Num.NaN
  end.

Definition acos (a : number) : number :=
  match a with
  | S754_finite s _ _ =>
      if below_pow2 a (-70) then of_fix (PI_fix / 2)
      else
        let x := Z.abs (to_fix a) in
        if unit <? x then Num.NaN
        else if unit =? x then (if s then of_fix PI_fix else Num.zero)
        else
          let t := angle (Z.sqrt (unit * unit - x * x)) x in
          of_fix (if s then PI_fix - t else t)
  | S754_zero _ => of_fix (PI_fix / 2)
  | _ => Num.NaN
  end.

(** The exponential of [r], [|r| <= 1/2], by its power series. *)
Fixpoint exp_series (fuel : nat) (k : Z) (term r acc : Z) : Z :=
  match fuel with
  | O => acc
  | S fuel' =>
      let term' := fmul term r / k in
      exp_series fuel' (k + 1) term' r (acc + term')
  end.

Definition exp (a : number) : number :=
  match a with
  | S754_nan => Num.NaN
  | S754_infinity s => if s then Num.zero else a
  | S754_zero _ => Num.one
  | S754_finite s _ _ =>
      if below_pow2 a (-60) then Num.one
      else if below_pow2 a 11 then
        let x := to_fix a in
        let n := (2 * x + LN2_fix) / (2 * LN2_fix) in
        let r := x - n * LN2_fix in
        binary_normalize prec emax (exp_series 40 1 unit r unit) (n - N) false
      else if s then Num.zero else S754_infinity false
  end.

Local Close Scope Z_scope.

(** [easeInCore] of [CubicEase], [QuadraticEase] and [ExponentialEase] (whose
    exponent is 2 by default). *)
Definition easeInCore (c : EasingClass) (gradient : number) : number :=
  match c with
  | CubicEase => (gradient * gradient * gradient)%num
  | QuadraticEase => (gradient * gradient)%num
  | ExponentialEase =>
      ((exp (Num.of_Z 2 * gradient) - Num.one) / (exp (Num.of_Z 2) - Num.one))%num
  end.

(** [EasingFunction.ease]. *)
Definition ease (f : EasingFunction) (gradient : number) : number :=
  match easingMode f with
  | EASINGMODE_EASEIN => easeInCore (easingClass f) gradient
  | EASINGMODE_EASEOUT =>
      (Num.one - easeInCore (easingClass f) (Num.one - gradient))%num
  | EASINGMODE_EASEINOUT =>
      if Num.ge gradient (Num.dec 5 1) then
        ((Num.one - easeInCore (easingClass f) ((Num.one - gradient) * Num.of_Z 2))
         * Num.dec 5 1 + Num.dec 5 1)%num
      else
        (easeInCore (easingClass f) (gradient * Num.of_Z 2) * Num.dec 5 1)%num
  end.

Definition platform : Platform :=
  Build_Platform sin cos asin acos atan2 ease false.

(** The same platform with [useHighPrecisionMatrix]: 64-bit matrices. *)
Definition platform64 : Platform :=
  Build_Platform sin cos asin acos atan2 ease true.

End ReferencePlatform.

(** ** examples/StarfieldExample.ts *)

(** [Array.prototype.map] and [Array.prototype.filter] with a callback that
    works on the store: the elements are visited in order. *)
Fixpoint mapM {A B} (f : A -> JS B) (l : list A) : JS (list B) :=
  match l with
  | [] => ret []
  | a :: l' =>
      let* b := f a in
      let* bs := mapM f l' in
      ret (b :: bs)
  end.

Fixpoint filterM {A} (p : A -> JS bool) (l : list A) : JS (list A) :=
  match l with
  | [] => ret []
  | a :: l' =>
      let* keep := p a in
      let* rest := filterM p l' in
      ret (if keep then a :: rest else rest)
  end.

(** [Date.now()]: the clock of the store gives the readings of whichever
    clock the code reads, in the order of the calls. *)
Definition Date_now : JS number :=
  fun w => Some (clock w (ticks w), set_ticks (S (ticks w)) w).

(** The [Star] interface. *)
Module Star.
Record t := mk {
  ra : number;
  dec : number;
  magnitude : number;
  name : option String.string;
}.
End Star.

(** The fields of a [CelestialCameraAnimator] object. *)
Module CelestialCameraAnimatorData.
Record t := mk {
  startPos : ref;
  endPos : ref;
  duration : number;
  startTime : number;
  isAnimating : bool;
}.
End CelestialCameraAnimatorData.

Module StarfieldExample.

Import String.StringSyntax.
Local Open Scope string_scope.

(** [orionStars]. *)
Definition orionStars : list Star.t :=
  [ Star.mk (Num.dec 5242 3) (Num.neg (Num.dec 8202 3)) (Num.dec 45 2) (Some "Rigel");
    Star.mk (Num.dec 5919 3) (Num.dec 7407 3) (Num.dec 18 2) (Some "Betelgeuse");
    Star.mk (Num.dec 5604 3) (Num.neg (Num.dec 1943 3)) (Num.dec 170 2) (Some "Bellatrix");
    Star.mk (Num.dec 5533 3) (Num.neg (Num.dec 299 3)) (Num.dec 223 2) (Some "Mintaka");
    Star.mk (Num.dec 5603 3) (Num.neg (Num.dec 1202 3)) (Num.dec 169 2) (Some "Alnilam");
    Star.mk (Num.dec 5679 3) (Num.neg (Num.dec 1943 3)) (Num.dec 205 2) (Some "Alnitak") ].

Local Close Scope string_scope.

Section WithPlatform.
Context `{Platform}.

(** [Math.pow], the platform's. *)
Variable Math_pow : number -> number -> number.

(** [generateStarPositions(stars, radius = 100)]. *)
Definition generateStarPositions (stars : list Star.t) (radius : option number)
    : JS (list ref) :=
  let radius := default (Num.of_Z 100) radius in
  mapM (fun star => AstroMath.raDecTo3D (Star.ra star) (Star.dec star) (Some radius)) stars.

(** [findStarsInFOV(stars, centerRa, centerDec, fovDegrees)]. *)
Definition findStarsInFOV (stars : list ref) (centerRa centerDec fovDegrees : number)
    : JS (list ref) :=
  filterM (fun star =>
             let* s := get_Vector3 star in
             let* distance :=
               AstroMath.greatCircleDistance centerDec centerRa
                 (Vector3Data.y s) (Vector3Data.x s) in
             ret (Num.le distance (fovDegrees / Num.of_Z 2)%num))
          stars.

(** [magnitudeToSize(magnitude)]. *)
Definition magnitudeToSize (magnitude : number) : number :=
  let normalized := Num.max (Num.neg (Num.dec 15 1)) (Num.min (Num.of_Z 6) magnitude) in
  Math_pow (Num.of_Z 2) ((Num.of_Z 6 - normalized) / Num.of_Z 2)%num.

(** [starAngularSeparation(star1, star2)]. *)
Definition starAngularSeparation (star1 star2 : Star.t) : JS number :=
  AstroMath.greatCircleDistance
    (Star.dec star1) (Star.ra star1 * Num.of_Z 15)%num
    (Star.dec star2) (Star.ra star2 * Num.of_Z 15)%num.

(** The inner loop of [findClosePairs]: the pairs of [star] with the stars
    after it. *)
Fixpoint pairs_with (star : Star.t) (later : list Star.t) (maxSeparationDeg : number)
    : JS (list (Star.t * Star.t * number)) :=
  match later with
  | [] => ret []
  | other :: later' =>
      let* separation := starAngularSeparation star other in
      let* pairs := pairs_with star later' maxSeparationDeg in
      ret (if Num.le separation maxSeparationDeg
           then (star, other, separation) :: pairs
           else pairs)
  end.

(** [findClosePairs(stars, maxSeparationDeg)]: the outer loop. *)
Fixpoint findClosePairs (stars : list Star.t) (maxSeparationDeg : number)
    : JS (list (Star.t * Star.t * number)) :=
  match stars with
  | [] => ret []
  | star :: later =>
      let* here := pairs_with star later maxSeparationDeg in
      let* pairs := findClosePairs later maxSeparationDeg in
      ret (here ++ pairs)
  end.

End WithPlatform.
End StarfieldExample.

(** The class [CelestialCameraAnimator]; the object is passed and returned. *)
Module CelestialCameraAnimator.
Import CelestialCameraAnimatorData.

Section WithPlatform.
Context `{Platform}.

(** [new CelestialCameraAnimator(startRa, startDec, endRa, endDec, durationMs)]. *)
Definition new (startRa startDec endRa endDec durationMs : number) : JS t :=
  let* s := AstroMath.raDecTo3D startRa startDec (Some (Num.of_Z 10)) in
  let* e := AstroMath.raDecTo3D endRa endDec (Some (Num.of_Z 10)) in
  ret (mk s e durationMs Num.zero false).

Definition start (this : t) : JS t :=
  let* now := Date_now in
  ret (mk (startPos this) (endPos this) (duration this) now true).

Definition update (this : t) : JS (option ref * t) :=
  if negb (isAnimating this) then ret (None, this)
  else
    let* now := Date_now in
    let elapsed := (now - startTime this)%num in
    let t := Num.min (elapsed / duration this)%num Num.one in
    if Num.ge t Num.one then
      ret (Some (endPos this),
           mk (startPos this) (endPos this) (duration this) (startTime this) false)
    else
      let* r := AstroMath.slerp (startPos this) (endPos this) t in
      ret (Some r, this).

Definition finished (this : t) : bool := negb (isAnimating this).

(** [exampleAnimation()]. *)
Definition exampleAnimation : JS t :=
  let orionRa := Num.dec 5919 3 in
  let orionDec := Num.dec 7407 3 in
  let ursaMajorRa := Num.dec 11062 3 in
  let ursaMajorDec := Num.dec 61751 3 in
  new orionRa orionDec ursaMajorRa ursaMajorDec (Num.of_Z 3000).

End WithPlatform.
End CelestialCameraAnimator.

(** * Specification vocabulary *)

(** [wp m w Q]: run from [w], [m] returns a result and a store that satisfy
    [Q]. *)
Definition wp {A} (m : JS A) (w : World) (Q : A -> World -> Prop) : Prop :=
  match m w with
  | Some (a, w') => Q a w'
  | None => False
  end.

(** [r] names a [Vector3] of the store. *)
Definition valid (w : World) (r : ref) : Prop := r < length (vectors w).

(** [kept keep w w']: from [w] to [w'] no [Vector3] disappeared, and the
    vectors named by [keep] have the contents they had. [frame keep w w']:
    moreover no animator and no clock reading changed. *)
Definition kept (keep : ref -> Prop) (w w' : World) : Prop :=
  length (vectors w) <= length (vectors w') /\
  forall r v, keep r -> vectors w !! r = Some v -> vectors w' !! r = Some v.

Definition frame (keep : ref -> Prop) (w w' : World) : Prop :=
  animators w' = animators w /\ clock w' = clock w /\ ticks w' = ticks w /\
  kept keep w w'.

Definition everything : ref -> Prop := fun _ => True.
Definition all_but (r0 : ref) : ref -> Prop := fun r => r <> r0.

(** What [normalize] leaves in the object. *)
Definition normalized (v : Vector3Data.t) : Vector3Data.t :=
  let len := Vector3.length_of v in
  if Num.strict_eq len Num.zero || Num.strict_eq len Num.one then v
  else Vector3.scaled v (Num.one / len)%num.

(** The contents of the vector that [Lerp] builds. *)
Definition lerped (s e : Vector3Data.t) (amount : number) : Vector3Data.t :=
  Vector3Data.mk
    (Vector3Data.x s + (Vector3Data.x e - Vector3Data.x s) * amount)%num
    (Vector3Data.y s + (Vector3Data.y e - Vector3Data.y s) * amount)%num
    (Vector3Data.z s + (Vector3Data.z e - Vector3Data.z s) * amount)%num.

(** What a method that builds a new vector does to the store: [scale], [add],
    [subtract], [Lerp]. *)
Definition allocates (w : World) (r : ref) (w' : World) : Prop :=
  r = length (vectors w) /\ valid w' r /\ frame everything w w'.

(** What a method that writes into [this] does to the store: [normalize],
    [scaleInPlace]. *)
Definition writes (r : ref) (w : World) (r' : ref) (w' : World) : Prop :=
  r' = r /\ valid w' r /\ frame (all_but r) w w'.

(** What a computation does that returns a [Vector3] made during the call and
    leaves the objects of [w] as they were. *)
Definition fresh_result (w : World) (r : ref) (w' : World) : Prop :=
  frame (valid w) w w' /\ valid w' r /\ length (vectors w) <= r.

(** ** The blocks of [CameraAnimator.update] *)

Section UpdateBlocks.
Context `{Platform}.

(** "Interpolate position". *)
Definition position_block (cfg : CameraAnimationConfig) (easedProgress : number) : JS ref :=
  if CameraAnimator.spherical cfg then
    let* n1 := Vector3.normalize (startPosition cfg) in
    let* n2 := Vector3.normalize (endPosition cfg) in
    let* position := AstroMath.slerp n1 n2 easedProgress in
    let* startDist := Vector3.length (startPosition cfg) in
    let* endDist := Vector3.length (endPosition cfg) in
    let dist := (startDist + (endDist - startDist) * easedProgress)%num in
    Vector3.scaleInPlace position dist
  else
    Vector3.Lerp (startPosition cfg) (endPosition cfg) easedProgress.

(** "Interpolate target if specified". *)
Definition target_block (cfg : CameraAnimationConfig) (easedProgress : number)
    : JS (option ref) :=
  match startTarget cfg, endTarget cfg with
  | Some st, Some et =>
      if CameraAnimator.spherical cfg then
        let* n1 := Vector3.normalize st in
        let* n2 := Vector3.normalize et in
        let* t := AstroMath.slerp n1 n2 easedProgress in
        ret (Some t)
      else
        let* t := Vector3.Lerp st et easedProgress in
        ret (Some t)
  | _, _ => ret None
  end.

(** "Check if animation finished". *)
Definition finish_block (this : ref) (cfg : CameraAnimationConfig) (progress : number)
    (position : ref) (target : option ref) : JS (option Frame) :=
  if Num.ge progress Num.one then
    CameraAnimator.assign this (CameraAnimator.set_isAnimating false);;
    ret (Some (mkFrame (endPosition cfg) (endTarget cfg)))
  else
    ret (Some (mkFrame position target)).

End UpdateBlocks.

(** The animator once [update] has read the clock. *)
Definition clocked (w : World) (a : CameraAnimatorData) : CameraAnimatorData :=
  CameraAnimator.set_currentTime (clock w (ticks w) - startTime a)%num a.

(** The store once [update] has read the clock and set [currentTime]. *)
Definition clocked_world (w : World) (this : ref) (a : CameraAnimatorData) : World :=
  set_animators (<[this := clocked w a]> (animators w)) (set_ticks (S (ticks w)) w).

(** The look-at targets that the target block works on. *)
Definition target_refs (cfg : CameraAnimationConfig) : list ref :=
  match startTarget cfg, endTarget cfg with
  | Some st, Some et => [st; et]
  | _, _ => []
  end.

(** The vectors that [update] normalizes in place. *)
Definition normalized_refs (cfg : CameraAnimationConfig) : list ref :=
  if CameraAnimator.spherical cfg
  then startPosition cfg :: endPosition cfg :: target_refs cfg
  else [].

(** Every vector of the configuration is an object of the store. *)
Definition wf_config (w : World) (cfg : CameraAnimationConfig) : Prop :=
  valid w (startPosition cfg) /\ valid w (endPosition cfg) /\
  (forall r, startTarget cfg = Some r -> valid w r) /\
  (forall r, endTarget cfg = Some r -> valid w r).

(** The frame that [update] returns when the animation is over. *)
Definition terminal_frame (cfg : CameraAnimationConfig) : Frame :=
  mkFrame (endPosition cfg) (endTarget cfg).

(** [update] on a running animator [a] at [this], from [w]. *)
Definition update_post (w : World) (this : ref) (a : CameraAnimatorData)
    (res : option Frame) (w' : World) : Prop :=
  let cfg := config a in
  let finished := Num.ge (CameraAnimator.progress_of (clocked w a)) Num.one in
  clock w' = clock w /\ ticks w' = S (ticks w) /\
  animators w' = <[this := CameraAnimator.set_isAnimating (negb finished) (clocked w a)]> (animators w) /\
  kept (fun r => valid w r /\ ~ In r (normalized_refs cfg)) w w' /\
  if finished then res = Some (terminal_frame cfg)
  else exists pos tgt, res = Some (mkFrame pos tgt) /\
         length (vectors w) <= pos /\ valid w' pos /\
         forall t, tgt = Some t -> length (vectors w) <= t /\ valid w' t.

(** The animator and the store once [start] has run. *)
Definition started (w : World) (a : CameraAnimatorData) : CameraAnimatorData :=
  mkAnimator (config a) (clock w (ticks w)) Num.zero true (easingFunction a).

Definition started_world (w : World) (this : ref) (a : CameraAnimatorData) : World :=
  set_animators (<[this := started w a]> (animators w)) (set_ticks (S (ticks w)) w).

(** ** Chains *)

(** Every animator of the chain is an object of the store, and so are the
    vectors of its configuration. *)
Definition wf_chain (w : World) (c : CameraAnimationChainData) : Prop :=
  forall i r, animations c !! i = Some r ->
    exists a, animators w !! r = Some a /\ wf_config w (config a).

(** The frames a chain has produced end with the terminal frame of [cfg]:
    since then it has returned [null] only. Latest result first. *)
Definition ends_with_terminal (cfg : CameraAnimationConfig) (outs : list (option Frame)) : Prop :=
  exists k rest, outs = repeat None k ++ Some (terminal_frame cfg) :: rest.

Section ChainDefs.
Context `{Platform}.

(** The states of a chain that was started from [c0] in [w0] and then
    updated, with the results of the [update] calls, latest first. *)
Inductive reachable (c0 : CameraAnimationChainData) (w0 : World)
    : CameraAnimationChainData -> World -> list (option Frame) -> Prop :=
| reach_start c w :
    CameraAnimationChain.start c0 w0 = Some (c, w) ->
    reachable c0 w0 c w []
| reach_update c w outs out c' w' :
    reachable c0 w0 c w outs ->
    CameraAnimationChain.update c w = Some ((out, c'), w') ->
    reachable c0 w0 c' w' (out :: outs).

(** What holds of a started chain between two calls. *)
Definition chain_inv (c : CameraAnimationChainData) (w : World)
    (outs : list (option Frame)) : Prop :=
  currentIndex c < length (animations c) /\ wf_chain w c /\
  exists cur a, animations c !! currentIndex c = Some cur /\
                animators w !! cur = Some a /\
                (isAnimating a = true \/
                 (isAnimating a = false /\ ends_with_terminal (config a) outs)).
End ChainDefs.

(** ** A chain of two one-second segments *)
Module Demo.

Definition empty_world (clock : nat -> number) : World := mkWorld [] [] clock 0.

(** The clock: [start()] at 0 ms, then readings at 1000, 1000, 1500, 2000 and
    3000 ms. *)
Definition clock (k : nat) : number :=
  match k with
  | 0 => Num.of_Z 0
  | 1 => Num.of_Z 1000
  | 2 => Num.of_Z 1000
  | 3 => Num.of_Z 1500
  | 4 => Num.of_Z 2000
  | _ => Num.of_Z 3000
  end.

Definition segment (from to : ref) : CameraAnimationConfig :=
  {| startPosition := from;
     endPosition := to;
     startTarget := None;
     endTarget := None;
     duration := Num.of_Z 1000;
     easing := Some Linear;
     useSphericalInterpolation := Some false |}.

(** Three positions, two animators that share the middle one, and the chain
    of the two. *)
Definition setup : JS CameraAnimationChainData :=
  let* p0 := new_Vector3 (Num.of_Z 0) (Num.of_Z 0) (Num.of_Z 10) in
  let* p1 := new_Vector3 (Num.of_Z 10) (Num.of_Z 0) (Num.of_Z 10) in
  let* p2 := new_Vector3 (Num.of_Z 10) (Num.of_Z 10) (Num.of_Z 10) in
  let* a := CameraAnimator.new (segment p0 p1) in
  let* b := CameraAnimator.new (segment p1 p2) in
  ret (CameraAnimationChain.new [a; b]).

Definition chain0 : CameraAnimationChainData := CameraAnimationChain.new [0; 1].

Definition world0 : World :=
  Eval vm_compute in
    match setup (empty_world clock) with
    | Some (_, w) => w
    | None => empty_world clock
    end.

(** After [start()]. *)
Definition world1 : World :=
  Eval vm_compute in
    match CameraAnimationChain.start chain0 world0 with
    | Some (_, w) => w
    | None => world0
    end.

(** After the [update()] at 1000 ms, which ends the first segment. *)
Definition world2 : World :=
  Eval vm_compute in
    match @CameraAnimationChain.update ReferencePlatform.platform chain0 world1 with
    | Some (_, w) => w
    | None => world1
    end.

End Demo.

(** ** Antipodal points *)

Section Embedding.
Context `{Platform}.

(** The contents of the vector that [geoTo3D(lat, lng)] builds. *)
Definition embedding (lat lng : number) : Vector3Data.t :=
  let latRad := (lat * MathConstants.DEG_TO_RAD)%num in
  let lngRad := (lng * MathConstants.DEG_TO_RAD)%num in
  Vector3Data.mk
    (Math_cos lngRad * Math_cos latRad * Num.one)%num
    (Math_sin latRad * Num.one)%num
    (Math_sin lngRad * Math_cos latRad * Num.one)%num.
End Embedding.

(** The contents of the vector that [add] builds. *)
Definition vector_sum (a b : Vector3Data.t) : Vector3Data.t :=
  Vector3Data.mk (Vector3Data.x a + Vector3Data.x b)%num
                 (Vector3Data.y a + Vector3Data.y b)%num
                 (Vector3Data.z a + Vector3Data.z b)%num.

(** Every component is [+0] or [-0]. *)
Definition is_zero_vector (v : Vector3Data.t) : bool :=
  Num.strict_eq (Vector3Data.x v) Num.zero &&
  Num.strict_eq (Vector3Data.y v) Num.zero &&
  Num.strict_eq (Vector3Data.z v) Num.zero.

(** ** A spherical move from (0, 0, 10) to (10, 0, 10) *)
Module Orbit.

(** The move, to take [d] milliseconds. *)
Definition move (d : number) : CameraAnimationConfig :=
  {| startPosition := 0;
     endPosition := 1;
     startTarget := None;
     endTarget := None;
     duration := d;
     easing := Some Linear;
     useSphericalInterpolation := Some true |}.

Definition start_vector : Vector3Data.t :=
  Vector3Data.mk (Num.of_Z 0) (Num.of_Z 0) (Num.of_Z 10).
Definition end_vector : Vector3Data.t :=
  Vector3Data.mk (Num.of_Z 10) (Num.of_Z 0) (Num.of_Z 10).

Definition animator (d : number) : CameraAnimatorData :=
  mkAnimator (move d) Num.zero Num.zero false (CameraAnimator.createEasingFunction Linear).

(** The two positions and the animator [new CameraAnimator(move d)]; the
    clock reads 0 at [start()] and [t] from then on. *)
Definition world (d : number) (t : Z) : World :=
  {| vectors := [start_vector; end_vector];
     animators := [animator d];
     clock := fun k => match k with 0 => Num.of_Z 0 | _ => Num.of_Z t end;
     ticks := 0 |}.

(** 10 * (1 / sqrt 200), the double 0.7071067811865475. *)
Definition unit_component : number := S754_finite false 6369051672525772 (-53).

(** What [normalize] leaves in the two positions. *)
Definition start_direction : Vector3Data.t :=
  Vector3Data.mk Num.zero Num.zero Num.one.
Definition end_direction : Vector3Data.t :=
  Vector3Data.mk unit_component Num.zero unit_component.

End Orbit.

(** ** A direction of length 5, and two opposite unit vectors *)
Module Directions.

Definition long_vector : Vector3Data.t :=
  Vector3Data.mk (Num.of_Z 3) (Num.of_Z 0) (Num.of_Z 4).

(** (3 * (1/5), 0, 4 * (1/5)): the doubles 0.6000000000000001 and 0.8. *)
Definition long_vector_normalized : Vector3Data.t :=
  Vector3Data.mk (S754_finite false 5404319552844596 (-53)) Num.zero
                 (S754_finite false 7205759403792794 (-53)).

Definition only (v : Vector3Data.t) : World := mkWorld [v] [] (fun _ => Num.zero) 0.

Definition east : Vector3Data.t := Vector3Data.mk (Num.of_Z 1) (Num.of_Z 0) (Num.of_Z 0).
Definition west : Vector3Data.t := Vector3Data.mk (Num.of_Z (-1)) (Num.of_Z 0) (Num.of_Z 0).

Definition opposite : World := mkWorld [east; west] [] (fun _ => Num.zero) 0.

(** [|a - b| <= tol]. *)
Definition within (tol a b : number) : bool := Num.le (SFabs (a - b)%num) tol.

End Directions.

(** The contents of the vector that a computation returns, and of the
    vector at [r] once a computation has run. *)
Definition result_vector (m : JS ref) (w : World) : option Vector3Data.t :=
  match m w with
  | Some (r, w') => vectors w' !! r
  | None => None
  end.

Definition vector_after {A} (m : JS A) (w : World) (r : ref) : option Vector3Data.t :=
  match m w with
  | Some (_, w') => vectors w' !! r
  | None => None
  end.

(** What a computation returns, and the animator at [r] once it has run. *)
Definition result_of {A} (m : JS A) (w : World) : option A :=
  match m w with
  | Some (a, _) => Some a
  | None => None
  end.

Definition animator_after {A} (m : JS A) (w : World) (r : ref) : option CameraAnimatorData :=
  match m w with
  | Some (_, w') => animators w' !! r
  | None => None
  end.

(** ** A point near the north pole *)
Module NearPole.

(** 89.9999997 degrees of latitude, 10 degrees of longitude. *)
Definition lat : number := Num.dec 899999997 7.
Definition lng : number := Num.of_Z 10.

Section RoundTrip.
Context `{Platform}.

End RoundTrip.

End NearPole.

(** ** The values that the converters compute *)

Section Positions.
Context `{Platform}.

(** The contents of the vector that [geoTo3D(lat, lng, radius)] builds. *)
Definition position_at (lat lng radius : number) : Vector3Data.t :=
  let latRad := (lat * MathConstants.DEG_TO_RAD)%num in
  let lngRad := (lng * MathConstants.DEG_TO_RAD)%num in
  Vector3Data.mk
    (Math_cos lngRad * Math_cos latRad * radius)%num
    (Math_sin latRad * radius)%num
    (Math_sin lngRad * Math_cos latRad * radius)%num.

(** [Vector3.Dot] on the contents of two vectors. *)
Definition dot_of (a b : Vector3Data.t) : number :=
  (Vector3Data.x a * Vector3Data.x b + Vector3Data.y a * Vector3Data.y b
   + Vector3Data.z a * Vector3Data.z b)%num.

(** [Math.max(-1, Math.min(1, dot))]. *)
Definition clamped (dot : number) : number :=
  Num.max (Num.neg (Num.of_Z 1)) (Num.min (Num.of_Z 1) dot).

(** The number that [greatCircleDistance] returns. *)
Definition great_circle (lat1 lng1 lat2 lng2 : number) : number :=
  (Math_acos (clamped (dot_of (position_at lat1 lng1 Num.one) (position_at lat2 lng2 Num.one)))
   * MathConstants.RAD_TO_DEG)%num.

(** The contents of the vector that [raDecTo3D(ra, dec, radius)] builds for
    a star. *)
Definition star_position (radius : number) (star : Star.t) : Vector3Data.t :=
  position_at (Star.dec star) (Star.ra star * Num.of_Z 15)%num radius.

(** The number that [starAngularSeparation] returns. *)
Definition separation (star1 star2 : Star.t) : number :=
  great_circle (Star.dec star1) (Star.ra star1 * Num.of_Z 15)%num
               (Star.dec star2) (Star.ra star2 * Num.of_Z 15)%num.

(** The test of [findStarsInFOV] on the contents of a star vector. *)
Definition in_field (centerRa centerDec fovDegrees : number) (s : Vector3Data.t) : bool :=
  Num.le (great_circle centerDec centerRa (Vector3Data.y s) (Vector3Data.x s))
         (fovDegrees / Num.of_Z 2)%num.
End Positions.

(** [a] is NaN or lies between [lo] and [hi]. *)
Definition nan_or_between (lo hi a : number) : Prop :=
  Num.is_nan a = true \/ (Num.le lo a = true /\ Num.le a hi = true).

(** A finite, positive number. *)
Definition positive_finite (a : number) : bool :=
  match a with
  | S754_finite false _ _ => true
  | _ => false
  end.

(** The contents of the [Vector3] that [wwtToBabylon] builds. *)
Definition babylon_of (v : WWTVector3d.t) : Vector3Data.t :=
  Vector3Data.mk (WWTVector3d.x v) (WWTVector3d.y v) (WWTVector3d.z v).

(** [a] is a zero, a finite number or an infinity of sign [s]. *)
Definition has_sign (s : bool) (a : number) : Prop :=
  match a with
  | S754_zero s' | S754_infinity s' | S754_finite s' _ _ => s' = s
  | S754_nan => False
  end.

(** ** The star field *)

Section StarField.
Context `{Platform}.

(** The test of [findStarsInFOV] on a star of the store [w]. *)
Definition star_in_field (w : World) (centerRa centerDec fovDegrees : number) (star : ref)
    : bool :=
  match vectors w !! star with
  | Some s => in_field centerRa centerDec fovDegrees s
  | None => false
  end.

(** The pairs that [findClosePairs] returns: those of a star with the
    stars after it, and all of them. *)
Fixpoint pairs_of (star : Star.t) (later : list Star.t) (maxSeparationDeg : number)
    : list (Star.t * Star.t * number) :=
  match later with
  | [] => []
  | other :: later' =>
      if Num.le (separation star other) maxSeparationDeg
      then (star, other, separation star other) :: pairs_of star later' maxSeparationDeg
      else pairs_of star later' maxSeparationDeg
  end.

Fixpoint close_pairs (stars : list Star.t) (maxSeparationDeg : number)
    : list (Star.t * Star.t * number) :=
  match stars with
  | [] => []
  | star :: later => pairs_of star later maxSeparationDeg ++ close_pairs later maxSeparationDeg
  end.

(** The two vectors that a call of [greatCircleDistance] leaves behind. *)
Definition distance_vectors (lat1 lng1 lat2 lng2 : number) : list Vector3Data.t :=
  [position_at lat1 lng1 Num.one; position_at lat2 lng2 Num.one].
End StarField.

(** A zero or a finite number. *)
Definition is_finite (a : number) : bool :=
  match a with
  | S754_zero _ | S754_finite _ _ _ => true
  | _ => false
  end.

Section Angles.
Context `{Platform}.

(** The number whose remainder by 360 is the azimuth that
    [cartesianToAzAlt] returns for a vector of contents [v]. *)
Definition turned_azimuth (v : Vector3Data.t) : number :=
  let n := normalized v in
  (Math_atan2 (Vector3Data.x n) (Vector3Data.z n) * MathConstants.RAD_TO_DEG
   + Num.of_Z 360)%num.

(** The number whose remainder by 24 is the right ascension that
    [cartesianToRaDec] returns for the longitude [lng]. *)
Definition turned_hours (lng : number) : number :=
  (lng / Num.of_Z 15 + Num.of_Z 24)%num.
End Angles.

Section Spherical.
Context `{Platform}.

(** The coordinates that [cartesianToSpherical] returns for a vector of
    contents [v]. *)
Definition spherical_of (v : Vector3Data.t) : Vector2.t :=
  let rho := Vector3.length_of v in
  if Num.strict_eq rho Num.zero then Vector2.mk Num.zero Num.zero
  else
    let longitude := Math_atan2 (Vector3Data.z v) (Vector3Data.x v) in
    let latitude := Math_asin (Vector3Data.y v / rho)%num in
    Vector2.mk (latitude * MathConstants.RAD_TO_DEG)%num
               (AstroMath.normalizeLongitude (longitude * MathConstants.RAD_TO_DEG)%num).

(** The contents of the vector that [sphericalMidpoint] converts back. *)
Definition midpoint_of (lat1 lng1 lat2 lng2 : number) : Vector3Data.t :=
  normalized (Vector3.scaled (vector_sum (position_at lat1 lng1 Num.one)
                                         (position_at lat2 lng2 Num.one))
                             (Num.dec 5 1)).
End Spherical.

(** ** A chain of one animator, and a running celestial animator *)
Module Solo.

Definition chain : CameraAnimationChainData := CameraAnimationChain.new [0].

(** From the first vector of the store to the second, in one second, started
    at time 0. *)
Definition celestial : CelestialCameraAnimatorData.t :=
  CelestialCameraAnimatorData.mk 0 1 (Num.of_Z 1000) Num.zero true.

(** A Babylon matrix whose entries are all one half. *)
Definition halves : Matrix.t := Matrix.mk (repeat (Num.dec 5 1) 16).

End Solo.

(** ** The round trip on a grid of points *)
Module Grid.


Section WithPlatform.
Context `{Platform}.


End WithPlatform.

End Grid.
(** * Doubles: results that need no rounding *)
Section ExactDoubles.
Local Open Scope Z_scope.

Lemma digits2_pos_iter_xO p j :
  digits2_pos (Pos.iter xO p j) = (digits2_pos p + j)%positive.
Proof.
  induction j as [|j IH] using Pos.peano_ind.
  - simpl. lia.
  - rewrite Pos.iter_succ. simpl. rewrite IH. lia.
Qed.


Lemma iter_pos_eq {A} (f : A -> A) n x : SpecFloat.iter_pos f n x = Pos.iter f x n.
Proof.
  revert x. induction n as [n IH|n IH|]; intros x; simpl.
  - rewrite !IH. rewrite <- !Pos.iter_swap. reflexivity.
  - rewrite !IH. reflexivity.
  - reflexivity.
Qed.

Lemma shr_iter_xO m j :
  Pos.iter shr_1 (Build_shr_record (Zpos (Pos.iter xO m j)) false false) j
  = Build_shr_record (Zpos m) false false.
Proof.
  induction j as [|j IH] using Pos.peano_ind.
  - reflexivity.
  - rewrite Pos.iter_succ_r. rewrite Pos.iter_succ. simpl. exact IH.
Qed.

Lemma fexp_normal d e :
  -1074 <= d + e - 53 -> fexp prec emax (d + e) = d + e - 53.
Proof. intros l. unfold fexp, emin, prec, emax. lia. Qed.

(** A mantissa of 53 bits with its exponent in range is the double. *)
Lemma round_aux_canonical s m e :
  digits2_pos m = 53%positive -> -1074 <= e <= 971 ->
  binary_round_aux prec emax s (Zpos m) e loc_Exact = S754_finite s m e.
Proof.
  intros d r. unfold binary_round_aux, shr_fexp. simpl Zdigits2. rewrite d.
  rewrite fexp_normal by lia.
  replace (53 + e - 53 - e) with 0 by lia. simpl.
  rewrite d. rewrite fexp_normal by lia.
  replace (53 + e - 53 - e) with 0 by lia. simpl.
  destruct (Z.leb_spec e (emax - prec)) as [_|gt]; [reflexivity|].
  unfold emax, prec in gt. lia.
Qed.


(** Fewer than 53 bits: the mantissa moves left. *)
Lemma round_shift_left s p e j :
  (digits2_pos p + j = 53)%positive -> -1074 <= e - Zpos j -> e - Zpos j <= 971 ->
  binary_round prec emax s p e = S754_finite s (Pos.iter xO p j) (e - Zpos j).
Proof.
  intros d lo hi. unfold binary_round, shl_align.
  assert (dz : Zpos (digits2_pos p) = 53 - Zpos j) by lia.
  rewrite dz. rewrite fexp_normal by lia.
  replace (53 - Zpos j + e - 53 - e) with (Zneg j) by lia.
  replace (53 - Zpos j + e - 53) with (e - Zpos j) by lia.
  apply round_aux_canonical; [|lia].
  rewrite digits2_pos_iter_xO. exact d.
Qed.


(** [digits2_pos] is the bit length. *)
Lemma digits2_pos_bounds p :
  2 ^ (Zpos (digits2_pos p) - 1) <= Zpos p < 2 ^ Zpos (digits2_pos p).
Proof.
  induction p as [p IH|p IH|]; simpl digits2_pos.
  - rewrite Pos2Z.inj_succ, Pos2Z.inj_xI.
    replace (Z.succ (Zpos (digits2_pos p)) - 1) with (Z.succ (Zpos (digits2_pos p) - 1)) by lia.
    rewrite !Z.pow_succ_r by lia.
    generalize dependent (2 ^ (Zpos (digits2_pos p) - 1)).
    generalize dependent (2 ^ Zpos (digits2_pos p)). intros; lia.
  - rewrite Pos2Z.inj_succ. change (Zpos p~0) with (2 * Zpos p).
    replace (Z.succ (Zpos (digits2_pos p)) - 1) with (Z.succ (Zpos (digits2_pos p) - 1)) by lia.
    rewrite !Z.pow_succ_r by lia.
    generalize dependent (2 ^ (Zpos (digits2_pos p) - 1)).
    generalize dependent (2 ^ Zpos (digits2_pos p)). intros; lia.
  - simpl. lia.
Qed.

Lemma digits2_pos_le p n : 0 < n -> Zpos p < 2 ^ n -> Zpos (digits2_pos p) <= n.
Proof.
  intros pos lt. destruct (digits2_pos_bounds p) as [lo _].
  destruct (Z_le_gt_dec (Zpos (digits2_pos p)) n) as [le|gt]; [exact le|].
  exfalso. assert (2 ^ n <= 2 ^ (Zpos (digits2_pos p) - 1)) by (apply Z.pow_le_mono_r; lia).
  lia.
Qed.

Lemma digits2_pos_ge p n : 0 <= n -> 2 ^ n <= Zpos p -> n < Zpos (digits2_pos p).
Proof.
  intros pos le. destruct (digits2_pos_bounds p) as [_ hi].
  destruct (Z_lt_le_dec n (Zpos (digits2_pos p))) as [lt|ge]; [exact lt|].
  exfalso. assert (2 ^ Zpos (digits2_pos p) <= 2 ^ n) by (apply Z.pow_le_mono_r; lia).
  lia.
Qed.











End ExactDoubles.

(** * Reasoning about computations on the store *)

Lemma wp_ret {A} (a : A) w (Q : A -> World -> Prop) : Q a w -> wp (ret a) w Q.
Proof. exact (fun q => q). Qed.

Lemma wp_bind {A B} (m : JS A) (f : A -> JS B) w (Q : B -> World -> Prop) :
  wp m w (fun a w' => wp (f a) w' Q) -> wp (bind m f) w Q.
Proof.
  unfold wp, bind. destruct (m w) as [[a w']|]; [exact (fun q => q) | tauto].
Qed.

Lemma wp_consequence {A} (m : JS A) w (Q Q' : A -> World -> Prop) :
  wp m w Q -> (forall a w', Q a w' -> Q' a w') -> wp m w Q'.
Proof.
  unfold wp. destruct (m w) as [[a w']|]; [auto | tauto].
Qed.

Lemma wp_run {A} (m : JS A) w (Q : A -> World -> Prop) :
  wp m w Q <-> exists a w', m w = Some (a, w') /\ Q a w'.
Proof.
  unfold wp. split.
  - destruct (m w) as [[a w']|]; [eauto | tauto].
  - intros (a & w' & -> & q). exact q.
Qed.

Lemma wp_elim {A} (m : JS A) w (Q : A -> World -> Prop) :
  wp m w Q -> exists a w', m w = Some (a, w') /\ Q a w'.
Proof. apply wp_run. Qed.

Lemma wp_and {A} (m : JS A) w (Q Q' : A -> World -> Prop) :
  wp m w Q -> wp m w Q' -> wp m w (fun a w' => Q a w' /\ Q' a w').
Proof.
  unfold wp. destruct (m w) as [[a w']|]; tauto.
Qed.

Lemma frame_refl keep w : frame keep w w.
Proof. unfold frame, kept. auto. Qed.

Lemma frame_trans keep w1 w2 w3 :
  frame keep w1 w2 -> frame keep w2 w3 -> frame keep w1 w3.
Proof.
  intros (a1 & c1 & t1 & l1 & k1) (a2 & c2 & t2 & l2 & k2).
  unfold frame, kept. repeat split; try congruence; [lia | eauto].
Qed.

Lemma frame_weaken (keep keep' : ref -> Prop) w w' :
  (forall r, keep' r -> keep r) -> frame keep w w' -> frame keep' w w'.
Proof.
  intros sub (a & c & t & l & k). unfold frame, kept. repeat split; auto.
Qed.

Lemma frame_valid keep w w' r : frame keep w w' -> valid w r -> valid w' r.
Proof. intros (_ & _ & _ & l & _) v. unfold valid in *. lia. Qed.

Lemma set_vectors_same w : set_vectors (vectors w) w = w.
Proof. destruct w; reflexivity. Qed.

Lemma frame_alloc w v : frame everything w (set_vectors (vectors w ++ [v]) w).
Proof.
  unfold frame, kept; simpl. repeat split; auto.
  - rewrite length_app. lia.
  - intros r u _ e. apply lookup_app_l_Some. exact e.
Qed.

Lemma frame_write w r v : frame (all_but r) w (set_vectors (<[r := v]> (vectors w)) w).
Proof.
  unfold frame, kept, all_but; simpl. repeat split; auto.
  - rewrite length_insert. lia.
  - intros r' u ne e. rewrite list_lookup_insert_ne; auto.
Qed.

Lemma valid_lookup w r : valid w r -> exists v, vectors w !! r = Some v.
Proof. intros v. apply lookup_lt_is_Some_2 in v. destruct v as [u e]. eauto. Qed.

Lemma lookup_valid w r v : vectors w !! r = Some v -> valid w r.
Proof. apply lookup_lt_Some. Qed.

(** ** The store primitives *)

Lemma wp_get_Vector3 w r v (Q : Vector3Data.t -> World -> Prop) :
  vectors w !! r = Some v -> Q v w -> wp (get_Vector3 r) w Q.
Proof. intros e q. unfold wp, get_Vector3. rewrite e. exact q. Qed.

Lemma wp_new_Vector3 w x y z (Q : ref -> World -> Prop) :
  Q (length (vectors w)) (set_vectors (vectors w ++ [Vector3Data.mk x y z]) w) ->
  wp (new_Vector3 x y z) w Q.
Proof. exact (fun q => q). Qed.

Lemma wp_put_Vector3 w r v u (Q : unit -> World -> Prop) :
  vectors w !! r = Some u ->
  Q tt (set_vectors (<[r := v]> (vectors w)) w) ->
  wp (put_Vector3 r v) w Q.
Proof. intros e q. unfold wp, put_Vector3. rewrite e. exact q. Qed.

(** ** The methods of [Vector3] *)

Section Vector3Runs.
Import Vector3Data.

Lemma length_run w r v :
  vectors w !! r = Some v -> Vector3.length r w = Some (Vector3.length_of v, w).
Proof.
  intros e. unfold Vector3.length, bind, get_Vector3. rewrite e. reflexivity.
Qed.

Lemma scaleInPlace_run w r v s :
  vectors w !! r = Some v ->
  Vector3.scaleInPlace r s w
  = Some (r, set_vectors (<[r := Vector3.scaled v s]> (vectors w)) w).
Proof.
  intros e. unfold Vector3.scaleInPlace, bind, get_Vector3, put_Vector3.
  rewrite e. simpl. rewrite e. reflexivity.
Qed.

Lemma normalize_run w r v :
  vectors w !! r = Some v ->
  Vector3.normalize r w
  = Some (r, set_vectors (<[r := normalized v]> (vectors w)) w).
Proof.
  intros e. unfold Vector3.normalize, bind. rewrite (length_run w r v e).
  unfold Vector3.normalizeFromLength, normalized.
  destruct (Num.strict_eq _ Num.zero || Num.strict_eq _ Num.one).
  - unfold ret. rewrite list_insert_id by exact e.
    rewrite set_vectors_same. reflexivity.
  - apply scaleInPlace_run. exact e.
Qed.

Lemma scale_run w r v s :
  vectors w !! r = Some v ->
  Vector3.scale r s w
  = Some (length (vectors w), set_vectors (vectors w ++ [Vector3.scaled v s]) w).
Proof.
  intros e. unfold Vector3.scale, bind, get_Vector3. rewrite e. reflexivity.
Qed.

Lemma add_run w r1 r2 v1 v2 :
  vectors w !! r1 = Some v1 -> vectors w !! r2 = Some v2 ->
  Vector3.add r1 r2 w
  = Some (length (vectors w),
          set_vectors (vectors w ++ [mk (x v1 + x v2) (y v1 + y v2) (z v1 + z v2)])%num w).
Proof.
  intros e1 e2. unfold Vector3.add, bind, get_Vector3. rewrite e1, e2. reflexivity.
Qed.

Lemma subtract_run w r1 r2 v1 v2 :
  vectors w !! r1 = Some v1 -> vectors w !! r2 = Some v2 ->
  Vector3.subtract r1 r2 w
  = Some (length (vectors w),
          set_vectors (vectors w ++ [mk (x v1 - x v2) (y v1 - y v2) (z v1 - z v2)])%num w).
Proof.
  intros e1 e2. unfold Vector3.subtract, bind, get_Vector3. rewrite e1, e2. reflexivity.
Qed.

Lemma Dot_run w r1 r2 v1 v2 :
  vectors w !! r1 = Some v1 -> vectors w !! r2 = Some v2 ->
  Vector3.Dot r1 r2 w = Some ((x v1 * x v2 + y v1 * y v2 + z v1 * z v2)%num, w).
Proof.
  intros e1 e2. unfold Vector3.Dot, bind, get_Vector3. rewrite e1, e2. reflexivity.
Qed.

Lemma Lerp_run w r1 r2 v1 v2 amount :
  vectors w !! r1 = Some v1 -> vectors w !! r2 = Some v2 ->
  Vector3.Lerp r1 r2 amount w
  = Some (length (vectors w), set_vectors (vectors w ++ [lerped v1 v2 amount]) w).
Proof.
  intros e1 e2. unfold Vector3.Lerp, bind, get_Vector3. rewrite e1, e2. reflexivity.
Qed.

End Vector3Runs.

Lemma wp_of_run {A} (m : JS A) w a w' (Q : A -> World -> Prop) :
  m w = Some (a, w') -> Q a w' -> wp m w Q.
Proof. intros e q. unfold wp. rewrite e. exact q. Qed.

(** ** What the methods of [Vector3] touch *)

Section Footprints.

Lemma allocates_alloc w v :
  allocates w (length (vectors w)) (set_vectors (vectors w ++ [v]) w).
Proof.
  unfold allocates, valid; simpl. split; [reflexivity|]. split.
  - rewrite length_app; simpl. lia.
  - apply frame_alloc.
Qed.

Lemma scale_spec w r s :
  valid w r -> wp (Vector3.scale r s) w (allocates w).
Proof.
  intros v. destruct (valid_lookup w r v) as [u e].
  eapply wp_of_run; [apply scale_run; exact e | apply allocates_alloc].
Qed.

Lemma add_spec w r1 r2 :
  valid w r1 -> valid w r2 -> wp (Vector3.add r1 r2) w (allocates w).
Proof.
  intros v1 v2. destruct (valid_lookup w r1 v1) as [u1 e1].
  destruct (valid_lookup w r2 v2) as [u2 e2].
  eapply wp_of_run; [apply add_run; eassumption | apply allocates_alloc].
Qed.

Lemma subtract_spec w r1 r2 :
  valid w r1 -> valid w r2 -> wp (Vector3.subtract r1 r2) w (allocates w).
Proof.
  intros v1 v2. destruct (valid_lookup w r1 v1) as [u1 e1].
  destruct (valid_lookup w r2 v2) as [u2 e2].
  eapply wp_of_run; [apply subtract_run; eassumption | apply allocates_alloc].
Qed.

Lemma Lerp_spec w r1 r2 amount :
  valid w r1 -> valid w r2 -> wp (Vector3.Lerp r1 r2 amount) w (allocates w).
Proof.
  intros v1 v2. destruct (valid_lookup w r1 v1) as [u1 e1].
  destruct (valid_lookup w r2 v2) as [u2 e2].
  eapply wp_of_run; [apply Lerp_run; eassumption | apply allocates_alloc].
Qed.

Lemma Dot_spec w r1 r2 :
  valid w r1 -> valid w r2 -> wp (Vector3.Dot r1 r2) w (fun _ w' => w' = w).
Proof.
  intros v1 v2. destruct (valid_lookup w r1 v1) as [u1 e1].
  destruct (valid_lookup w r2 v2) as [u2 e2].
  eapply wp_of_run; [apply Dot_run; eassumption | reflexivity].
Qed.

Lemma length_spec w r :
  valid w r -> wp (Vector3.length r) w (fun _ w' => w' = w).
Proof.
  intros v. destruct (valid_lookup w r v) as [u e].
  eapply wp_of_run; [apply length_run; exact e | reflexivity].
Qed.

Lemma writes_write w r v :
  valid w r -> writes r w r (set_vectors (<[r := v]> (vectors w)) w).
Proof.
  intros val. unfold writes, valid in *; simpl. split; [reflexivity|]. split.
  - rewrite length_insert. exact val.
  - apply frame_write.
Qed.

Lemma normalize_spec w r :
  valid w r -> wp (Vector3.normalize r) w (writes r w).
Proof.
  intros v. destruct (valid_lookup w r v) as [u e].
  eapply wp_of_run; [apply normalize_run; exact e | apply writes_write; exact v].
Qed.

Lemma scaleInPlace_spec w r s :
  valid w r -> wp (Vector3.scaleInPlace r s) w (writes r w).
Proof.
  intros v. destruct (valid_lookup w r v) as [u e].
  eapply wp_of_run; [apply scaleInPlace_run; exact e | apply writes_write; exact v].
Qed.

Lemma allocates_keeps w0 w r w' :
  allocates w r w' -> frame (valid w0) w w'.
Proof.
  intros (_ & _ & f). eapply frame_weaken; [|exact f]. exact (fun _ _ => I).
Qed.

Lemma writes_keeps w0 w r r' w' :
  length (vectors w0) <= r -> writes r w r' w' -> frame (valid w0) w w'.
Proof.
  intros fresh (_ & _ & f). eapply frame_weaken; [|exact f].
  unfold valid, all_but. intros r0 lt. lia.
Qed.

Lemma allocates_fresh w0 w r w' :
  frame (valid w0) w0 w -> allocates w r w' -> length (vectors w0) <= r.
Proof. intros (_ & _ & _ & l & _) (-> & _ & _). exact l. Qed.

End Footprints.

(** ** [slerp] builds its result and touches nothing else *)

Section SlerpFootprint.
Context `{Platform}.

(** A computation that returns a [Vector3] made during the call and leaves
    the objects of [w] as they were. *)
Lemma fresh_result_intro w w' r :
  frame (valid w) w w' -> valid w' r -> length (vectors w) <= r ->
  fresh_result w r w'.
Proof. unfold fresh_result. auto. Qed.

Lemma fresh_after_alloc w w1 r w2 :
  frame (valid w) w w1 -> allocates w1 r w2 -> fresh_result w r w2.
Proof.
  intros f al. pose proof (allocates_fresh w w1 r w2 f al) as fr.
  destruct al as (e & v & f'). apply fresh_result_intro; auto.
  eapply frame_trans; [exact f|]. eapply frame_weaken; [|exact f'].
  exact (fun _ _ => I).
Qed.

Lemma fresh_after_write w w1 r r' w2 :
  fresh_result w r w1 -> writes r w1 r' w2 -> fresh_result w r' w2.
Proof.
  intros (f & v & fr) wr. pose proof (writes_keeps w w1 r r' w2 fr wr) as f'.
  destruct wr as (-> & v' & _). apply fresh_result_intro; auto.
  eapply frame_trans; eassumption.
Qed.

Lemma slerp_spec w v1 v2 t :
  valid w v1 -> valid w v2 ->
  wp (AstroMath.slerp v1 v2 t) w (fresh_result w).
Proof.
  intros val1 val2. unfold AstroMath.slerp.
  apply wp_bind. eapply wp_consequence; [apply Dot_spec; assumption|].
  intros dot w0 ->. destruct (Num.gt dot (Num.dec 9995 4)).
  - apply wp_bind. eapply wp_consequence; [apply Lerp_spec; assumption|].
    intros l w1 al.
    pose proof (fresh_after_alloc w w l w1 (frame_refl _ _) al) as fl.
    eapply wp_consequence; [apply normalize_spec; apply fl|].
    intros r w2 wr. exact (fresh_after_write w w1 l r w2 fl wr).
  - apply wp_bind. eapply wp_consequence; [apply scale_spec; assumption|].
    intros s w1 al1.
    pose proof (fresh_after_alloc w w s w1 (frame_refl _ _) al1) as (f1 & vs & _).
    apply wp_bind. eapply wp_consequence;
      [apply subtract_spec; [eapply frame_valid; eassumption | exact vs]|].
    intros d w2 al2.
    pose proof (fresh_after_alloc w w1 d w2 f1 al2) as fd.
    apply wp_bind. eapply wp_consequence; [apply normalize_spec; apply fd|].
    intros rel w3 wr.
    pose proof (fresh_after_write w w2 d rel w3 fd wr) as (f3 & vrel & _).
    apply wp_bind. eapply wp_consequence;
      [apply scale_spec; eapply frame_valid; eassumption|].
    intros a w4 al4.
    pose proof (fresh_after_alloc w w3 a w4 f3 al4) as (f4 & va & _).
    apply wp_bind. eapply wp_consequence;
      [apply scale_spec; eapply frame_valid; [apply al4 | exact vrel]|].
    intros b w5 al5.
    pose proof (fresh_after_alloc w w4 b w5 f4 al5) as (f5 & vb & _).
    eapply wp_consequence;
      [apply add_spec; [eapply frame_valid; [apply al5 | exact va] | exact vb]|].
    intros r w6 al6. exact (fresh_after_alloc w w5 r w6 f5 al6).
Qed.

End SlerpFootprint.

(** ** [CameraAnimator]: one call of [update] *)

Section UpdateFacts.
Context `{Platform}.

Lemma update_idle w this a :
  animators w !! this = Some a -> isAnimating a = false ->
  CameraAnimator.update this w = Some (None, w).
Proof.
  intros e idle. unfold CameraAnimator.update, bind, get_Animator.
  rewrite e, idle. reflexivity.
Qed.

Lemma update_running_eq w this a :
  animators w !! this = Some a -> isAnimating a = true ->
  CameraAnimator.update this w
  = (let cfg := config a in
     let progress := CameraAnimator.progress_of (clocked w a) in
     let easedProgress := ease (easingFunction a) progress in
     let* position := position_block cfg easedProgress in
     let* target := target_block cfg easedProgress in
     finish_block this cfg progress position target) (clocked_world w this a).
Proof.
  intros e run.
  unfold CameraAnimator.update. unfold bind at 1. unfold get_Animator at 1.
  rewrite e, run. cbv beta iota delta [negb].
  unfold bind at 1. unfold performance_now at 1. cbv beta iota.
  unfold bind at 1. unfold CameraAnimator.assign at 1. unfold bind at 1.
  unfold get_Animator at 1. cbn [animators set_ticks]. rewrite e.
  unfold put_Animator at 1. cbn [animators set_ticks]. rewrite e.
  unfold bind at 1. unfold get_Animator at 1. cbn [animators set_animators].
  rewrite list_lookup_insert_eq by (eapply lookup_lt_Some; exact e).
  reflexivity.
Qed.

Lemma frame_step (K K' : ref -> Prop) w1 w2 w3 :
  frame K w1 w2 -> frame K' w2 w3 -> (forall r, K r -> K' r) -> frame K w1 w3.
Proof.
  intros f1 f2 sub. eapply frame_trans; [exact f1|].
  eapply frame_weaken; [exact sub | exact f2].
Qed.

Lemma frame_length K w w' : frame K w w' -> length (vectors w) <= length (vectors w').
Proof. intros (_ & _ & _ & l & _). exact l. Qed.

(** The position block returns a vector made during the call, and changes
    at most the vectors that [update] normalizes. *)
Lemma position_block_spec (K : ref -> Prop) w cfg eased :
  wf_config w cfg ->
  (forall r, K r -> valid w r /\ ~ In r (normalized_refs cfg)) ->
  wp (position_block cfg eased) w
     (fun r w' => frame K w w' /\ valid w' r /\ length (vectors w) <= r).
Proof.
  intros (vs & ve & _ & _) HK. unfold position_block.
  unfold normalized_refs in HK.
  destruct (CameraAnimator.spherical cfg).
  - apply wp_bind. eapply wp_consequence; [apply normalize_spec; exact vs|].
    intros n1 w1 (-> & vs1 & f1).
    apply wp_bind. eapply wp_consequence;
      [apply normalize_spec; eapply frame_valid; eassumption|].
    intros n2 w2 (-> & ve2 & f2).
    assert (f02 : frame K w w2).
    { eapply frame_step; [eapply frame_weaken; [|exact f1]|exact f2|].
      - intros r k. destruct (HK r k) as (_ & ni). intros ->. apply ni. left. reflexivity.
      - intros r k. destruct (HK r k) as (_ & ni). intros ->. apply ni. right. left. reflexivity. }
    assert (vs2 : valid w2 (startPosition cfg)) by (eapply frame_valid; eassumption).
    apply wp_bind. eapply wp_consequence; [apply slerp_spec; assumption|].
    intros pos w3 (f3 & vp & fr).
    assert (f03 : frame K w w3).
    { eapply frame_step; [exact f02 | exact f3 |].
      intros r k. destruct (HK r k) as (v & _).
      unfold valid in *. pose proof (frame_length _ _ _ f02). lia. }
    apply wp_bind. eapply wp_consequence;
      [apply length_spec; eapply frame_valid; eassumption|].
    intros sd w4 ->.
    apply wp_bind. eapply wp_consequence;
      [apply length_spec; eapply frame_valid; eassumption|].
    intros ed w4 ->.
    eapply wp_consequence; [apply scaleInPlace_spec; exact vp|].
    intros r w5 (-> & vp5 & f5).
    pose proof (frame_length _ _ _ f02) as l02.
    split; [|split; [exact vp5 | lia]].
    eapply frame_step; [exact f03 | exact f5 |].
    intros r k. destruct (HK r k) as (v & _). unfold valid, all_but in *. lia.
  - eapply wp_consequence; [apply Lerp_spec; assumption|].
    intros r w1 (-> & v1 & f1). split; [|split; [exact v1 | lia]].
    eapply frame_weaken; [|exact f1]. exact (fun _ _ => I).
Qed.

Lemma target_block_spec (K : ref -> Prop) w cfg eased :
  wf_config w cfg ->
  (forall r, K r -> valid w r /\ ~ In r (normalized_refs cfg)) ->
  wp (target_block cfg eased) w
     (fun t w' => frame K w w' /\
                  forall r, t = Some r -> valid w' r /\ length (vectors w) <= r).
Proof.
  intros (_ & _ & vst & vet) HK. unfold target_block.
  unfold normalized_refs, target_refs in HK.
  destruct (startTarget cfg) as [st|]; [destruct (endTarget cfg) as [et|]|].
  - specialize (vst st eq_refl). specialize (vet et eq_refl).
    destruct (CameraAnimator.spherical cfg).
    + apply wp_bind. eapply wp_consequence; [apply normalize_spec; exact vst|].
      intros n1 w1 (-> & vs1 & f1).
      apply wp_bind. eapply wp_consequence;
        [apply normalize_spec; eapply frame_valid; eassumption|].
      intros n2 w2 (-> & ve2 & f2).
      assert (f02 : frame K w w2).
      { eapply frame_step; [eapply frame_weaken; [|exact f1]|exact f2|].
        - intros r k. destruct (HK r k) as (_ & ni). intros ->. apply ni. simpl. tauto.
        - intros r k. destruct (HK r k) as (_ & ni). intros ->. apply ni. simpl. tauto. }
      assert (vs2 : valid w2 st) by (eapply frame_valid; eassumption).
      apply wp_bind. eapply wp_consequence; [apply slerp_spec; assumption|].
      intros t w3 (f3 & vt & fr). apply wp_ret.
      pose proof (frame_length _ _ _ f02) as l02.
      split.
      * eapply frame_step; [exact f02 | exact f3 |].
        intros r k. destruct (HK r k) as (v & _). unfold valid in *. lia.
      * intros r [= <-]. split; [exact vt | lia].
    + apply wp_bind. eapply wp_consequence; [apply Lerp_spec; assumption|].
      intros t w1 (-> & v1 & f1). apply wp_ret. split.
      * eapply frame_weaken; [|exact f1]. exact (fun _ _ => I).
      * intros r [= <-]. split; [exact v1 | lia].
  - apply wp_ret. split; [apply frame_refl | discriminate].
  - apply wp_ret. split; [apply frame_refl | discriminate].
Qed.

Lemma set_isAnimating_true a :
  isAnimating a = true -> CameraAnimator.set_isAnimating true a = a.
Proof. destruct a; simpl. intros ->. reflexivity. Qed.

Lemma clocked_isAnimating w a : isAnimating (clocked w a) = isAnimating a.
Proof. reflexivity. Qed.

Lemma clocked_config w a : config (clocked w a) = config a.
Proof. reflexivity. Qed.

(** A call of [update] on a running animator whose vectors are objects of
    the store returns a frame. *)
Theorem update_running w this a :
  animators w !! this = Some a -> isAnimating a = true ->
  wf_config w (config a) ->
  wp (CameraAnimator.update this) w (update_post w this a).
Proof.
  intros e run wf.
  unfold wp. rewrite (update_running_eq w this a e run). cbv zeta.
  set (w1 := clocked_world w this a).
  set (K := fun r => valid w r /\ ~ In r (normalized_refs (config a))).
  set (eased := ease _ _).
  change (wp (let* position := position_block (config a) eased in
              let* target := target_block (config a) eased in
              finish_block this (config a) (CameraAnimator.progress_of (clocked w a))
                           position target) w1 (update_post w this a)).
  assert (wf1 : wf_config w1 (config a)) by exact wf.
  apply wp_bind. eapply wp_consequence;
    [apply (position_block_spec K); [exact wf1 | exact (fun r k => k)]|].
  intros pos w2 (f2 & vp & frp).
  assert (wf2 : wf_config w2 (config a)).
  { destruct wf1 as (a1 & a2 & a3 & a4).
    repeat split; intros; eapply frame_valid; eauto. }
  apply wp_bind. eapply wp_consequence;
    [apply (target_block_spec K); [exact wf2|]|].
  { intros r k. destruct k as (v & ni). split; [|exact ni].
    eapply frame_valid; [exact f2 | exact v]. }
  intros tgt w3 (f3 & ft).
  assert (f13 : frame K w1 w3) by (eapply frame_trans; eassumption).
  destruct f13 as (ea & ec & et & kp).
  unfold finish_block, update_post. cbv zeta.
  destruct (Num.ge (CameraAnimator.progress_of (clocked w a)) Num.one).
  - assert (lk3 : animators w3 !! this = Some (clocked w a)).
    { rewrite ea. unfold w1, clocked_world. cbn [animators set_animators].
      apply list_lookup_insert_eq. eapply lookup_lt_Some; exact e. }
    unfold wp, bind, CameraAnimator.assign, bind, get_Animator, put_Animator.
    rewrite lk3. cbn [animators set_animators]. rewrite lk3.
    cbn [animators set_animators clock ticks vectors set_ticks ret].
    rewrite ec, et, ea. unfold w1, clocked_world.
    cbn [animators set_animators clock ticks vectors set_ticks ret negb].
    rewrite list_insert_insert_eq.
    repeat split; try reflexivity; apply kp.
  - apply wp_ret. rewrite ec, et, ea. unfold w1, clocked_world.
    cbn [animators set_animators clock ticks vectors set_ticks negb].
    rewrite set_isAnimating_true by exact run.
    split; [reflexivity|]. split; [reflexivity|]. split; [reflexivity|].
    split; [exact kp|].
    exists pos, tgt. split; [reflexivity|].
    pose proof (frame_length _ _ _ f2) as l2.
    pose proof (frame_length _ _ _ f3) as l3.
    split; [exact frp|]. split; [unfold valid in *; lia|].
    intros t et'. destruct (ft t et') as (vt & lt'). split; [|exact vt].
    change (vectors w1) with (vectors w) in *. lia.
Qed.
End UpdateFacts.

(** ** [CameraAnimator]: [start], [stop] and the progress *)

Section StartFacts.
Context `{Platform}.

Lemma start_run w this a :
  animators w !! this = Some a ->
  CameraAnimator.start this w = Some (tt, started_world w this a).
Proof.
  intros e. pose proof (lookup_lt_Some _ _ _ e) as lt.
  unfold CameraAnimator.start, CameraAnimator.assign.
  unfold bind at 1. unfold performance_now at 1. cbv beta iota.
  unfold bind at 1. unfold bind at 1. unfold get_Animator at 1.
  cbn [animators set_ticks]. rewrite e.
  unfold put_Animator at 1. cbn [animators set_ticks]. rewrite e.
  unfold bind at 1. unfold bind at 1. unfold get_Animator at 1.
  cbn [animators set_animators]. rewrite list_lookup_insert_eq by exact lt.
  unfold put_Animator at 1. cbn [animators set_animators].
  rewrite list_lookup_insert_eq by exact lt.
  unfold bind at 1. unfold get_Animator at 1.
  cbn [animators set_animators].
  rewrite list_lookup_insert_eq by (rewrite length_insert; exact lt).
  unfold put_Animator. cbn [animators set_animators].
  rewrite list_lookup_insert_eq by (rewrite length_insert; exact lt).
  rewrite !list_insert_insert_eq.
  unfold started_world, started, set_animators, set_ticks; simpl.
  reflexivity.
Qed.

Lemma stop_run w this a :
  animators w !! this = Some a ->
  CameraAnimator.stop this w
  = Some (tt, set_animators (<[this := CameraAnimator.set_isAnimating false a]> (animators w)) w).
Proof.
  intros e. unfold CameraAnimator.stop, CameraAnimator.assign, bind, get_Animator, put_Animator.
  rewrite e. cbn [animators]. rewrite e. reflexivity.
Qed.

(** Elapsed time over a zero duration. *)
Lemma progress_zero_duration (elapsed : number) :
  Num.gt elapsed Num.zero = true ->
  Num.min (elapsed / Num.zero)%num Num.one = Num.one.
Proof.
  destruct elapsed as [s|s| |s m e]; try destruct s; try discriminate; reflexivity.
Qed.

Lemma progress_negative_duration (elapsed d : number) :
  Num.ge elapsed Num.zero = true -> Num.lt d Num.zero = true ->
  Num.ge (Num.min (elapsed / d)%num Num.one) Num.one = false.
Proof.
  intros ge lt.
  destruct d as [sd|sd| |sd md ed]; try destruct sd; try discriminate;
  destruct elapsed as [s|s| |s m e]; try destruct s; try discriminate; try reflexivity.
  unfold Num.div, SFdiv.
  destruct (SFdiv_core_binary _ _ _ _ _ _) as [[mz ez] lz].
  unfold binary_round_aux.
  destruct (shr_fexp _ _ _ _ _) as [mrs' e'].
  destruct (shr_fexp _ _ _ _ _) as [mrs'' e''].
  destruct (shr_m mrs''); try reflexivity.
  destruct (Z.leb _ _); reflexivity.
Qed.
End StartFacts.

(** ** [CameraAnimationChain] *)

Section ChainFacts.
Context `{Platform}.

Lemma update_rec_eq fuel this :
  CameraAnimationChain.update_rec fuel this
  = if (length (animations this) <=? currentIndex this)%nat then ret (None, this)
    else
      let* current := CameraAnimationChain.animation_at this (currentIndex this) in
      let* state := CameraAnimator.update current in
      match state with
      | None =>
          if (currentIndex this <? length (animations this) - 1)%nat then
            match fuel with
            | O => fun _ => None
            | S fuel' =>
                let this := CameraAnimationChain.set_currentIndex (S (currentIndex this)) this in
                let* next := CameraAnimationChain.animation_at this (currentIndex this) in
                CameraAnimator.start next;;
                CameraAnimationChain.update_rec fuel' this
            end
          else ret (state, this)
      | Some _ => ret (state, this)
      end.
Proof. destruct fuel; reflexivity. Qed.

(** With the animator at the cursor running, [update] hands out its frame
    and leaves the cursor. *)
Lemma update_rec_running fuel c w cur a :
  currentIndex c < length (animations c) ->
  animations c !! currentIndex c = Some cur ->
  animators w !! cur = Some a -> isAnimating a = true ->
  wf_config w (config a) ->
  wp (CameraAnimationChain.update_rec fuel c) w
     (fun res w' => exists f, res = (Some f, c) /\
                    CameraAnimator.update cur w = Some (Some f, w') /\
                    update_post w cur a (Some f) w').
Proof.
  intros lt ec ea run wf. rewrite update_rec_eq.
  destruct (Nat.leb_spec (length (animations c)) (currentIndex c)) as [ge|_]; [lia|].
  pose proof (update_running w cur a ea run wf) as U.
  apply wp_run in U. destruct U as (res & w' & eU & post).
  unfold wp, bind, CameraAnimationChain.animation_at. rewrite ec, eU.
  assert (exists f, res = Some f) as [f ->].
  { unfold update_post in post. destruct post as (_ & _ & _ & _ & post).
    destruct (Num.ge _ _); [eauto | destruct post as (p & t & -> & _); eauto]. }
  exists f. auto.
Qed.

Lemma wf_config_kept (K : ref -> Prop) w w' cfg :
  length (vectors w) <= length (vectors w') -> wf_config w cfg -> wf_config w' cfg.
Proof.
  intros l (a1 & a2 & a3 & a4). unfold wf_config, valid in *.
  repeat split; intros; [| |apply a3 in H0|apply a4 in H0]; lia.
Qed.

Lemma wf_chain_step w w' c this a' :
  wf_chain w c ->
  length (vectors w) <= length (vectors w') ->
  (exists a, animators w !! this = Some a /\ config a' = config a) ->
  animators w' = <[this := a']> (animators w) ->
  wf_chain w' c.
Proof.
  intros wf l (a & ea & ecfg) ean i r ei.
  destruct (wf i r ei) as (b & eb & wfb).
  rewrite ean. destruct (decide (this = r)) as [->|ne].
  - exists a'. split.
    + apply list_lookup_insert_eq. eapply lookup_lt_Some; exact eb.
    + rewrite ecfg. assert (b = a) as -> by congruence.
      eapply (wf_config_kept everything); eassumption.
  - exists b. split.
    + rewrite list_lookup_insert_ne by exact ne. exact eb.
    + eapply (wf_config_kept everything); eassumption.
Qed.

Lemma wf_chain_animations w c c' :
  animations c' = animations c -> wf_chain w c -> wf_chain w c'.
Proof. intros e wf i r. rewrite e. apply wf. Qed.

Lemma update_post_wf_chain w this a res w' c :
  animators w !! this = Some a ->
  update_post w this a res w' -> wf_chain w c -> wf_chain w' c.
Proof.
  intros ea (_ & _ & ean & kp & _) wf.
  eapply wf_chain_step; [exact wf | apply kp | | exact ean].
  exists a. split; [exact ea | reflexivity].
Qed.

Lemma started_wf_chain w this a c :
  animators w !! this = Some a -> wf_chain w c -> wf_chain (started_world w this a) c.
Proof.
  intros ea wf. eapply wf_chain_step; [exact wf | | | reflexivity].
  - simpl. lia.
  - exists a. split; [exact ea | reflexivity].
Qed.

(** The state of the animator at the cursor after a call of [update] that
    found it running. *)
Lemma update_post_state w this a f w' outs :
  animators w !! this = Some a ->
  update_post w this a (Some f) w' ->
  exists a', animators w' !! this = Some a' /\ config a' = config a /\
             (isAnimating a' = true \/
              (isAnimating a' = false /\ ends_with_terminal (config a') (Some f :: outs))).
Proof.
  intros ea (_ & _ & ean & _ & post).
  eexists. split; [rewrite ean; apply list_lookup_insert_eq; eapply lookup_lt_Some; exact ea|].
  split; [reflexivity|].
  destruct (Num.ge _ _); simpl.
  - right. split; [reflexivity|]. exists 0, outs. simpl. congruence.
  - left. reflexivity.
Qed.

Lemma chain_update_running c w outs cur a :
  chain_inv c w outs ->
  animations c !! currentIndex c = Some cur ->
  animators w !! cur = Some a -> isAnimating a = true ->
  exists f w', CameraAnimationChain.update c w = Some ((Some f, c), w') /\
               CameraAnimator.update cur w = Some (Some f, w') /\
               chain_inv c w' (Some f :: outs).
Proof.
  intros (lt & wf & _) ec ea run.
  destruct (wf _ _ ec) as (a0 & ea0 & wfa). assert (a0 = a) as -> by congruence.
  pose proof (update_rec_running (length (animations c)) c w cur a lt ec ea run wfa) as U.
  apply wp_run in U. destruct U as (res & w' & eU & f & -> & eupd & post).
  exists f, w'. split; [exact eU|]. split; [exact eupd|].
  split; [exact lt|]. split; [eapply update_post_wf_chain; eassumption|].
  destruct (update_post_state w cur a f w' outs ea post) as (a' & ea' & _ & st).
  exists cur, a'. auto.
Qed.

Lemma chain_update_idle_last c w outs cur a :
  chain_inv c w outs ->
  animations c !! currentIndex c = Some cur ->
  animators w !! cur = Some a -> isAnimating a = false ->
  S (currentIndex c) = length (animations c) ->
  CameraAnimationChain.update c w = Some ((None, c), w) /\
  chain_inv c w (None :: outs).
Proof.
  intros (lt & wf & cur' & a' & ec' & ea' & st) ec ea idle last.
  split.
  - unfold CameraAnimationChain.update. rewrite update_rec_eq.
    destruct (Nat.leb_spec (length (animations c)) (currentIndex c)) as [ge|_]; [lia|].
    unfold bind, CameraAnimationChain.animation_at. rewrite ec.
    rewrite (update_idle w cur a ea idle).
    destruct (Nat.ltb_spec (currentIndex c) (length (animations c) - 1)) as [l|_]; [lia|].
    reflexivity.
  - split; [exact lt|]. split; [exact wf|].
    assert (cur' = cur) as -> by congruence. assert (a' = a) as -> by congruence.
    exists cur, a. split; [exact ec|]. split; [exact ea|].
    right. split; [exact idle|].
    destruct st as [run|(_ & k & rest & ->)]; [congruence|].
    exists (S k), rest. reflexivity.
Qed.

Lemma chain_update_idle_next c w outs cur a :
  chain_inv c w outs ->
  animations c !! currentIndex c = Some cur ->
  animators w !! cur = Some a -> isAnimating a = false ->
  S (currentIndex c) < length (animations c) ->
  exists nxt f w',
    let c' := CameraAnimationChain.set_currentIndex (S (currentIndex c)) c in
    animations c !! S (currentIndex c) = Some nxt /\
    CameraAnimationChain.update c w = Some ((Some f, c'), w') /\
    (CameraAnimator.start nxt;; CameraAnimator.update nxt) w = Some (Some f, w') /\
    chain_inv c' w' (Some f :: outs).
Proof.
  intros (lt & wf & _) ec ea idle more.
  destruct (lookup_lt_is_Some_2 (animations c) (S (currentIndex c)) more) as [nxt en].
  destruct (wf _ _ en) as (an & ean & wfn).
  set (c' := CameraAnimationChain.set_currentIndex (S (currentIndex c)) c).
  set (w1 := started_world w nxt an).
  assert (wf1 : wf_chain w1 c') by (apply started_wf_chain; assumption).
  assert (ean1 : animators w1 !! nxt = Some (started w an)).
  { unfold w1, started_world. cbn [animators set_animators].
    apply list_lookup_insert_eq. eapply lookup_lt_Some; exact ean. }
  destruct (length (animations c)) as [|fuel] eqn:elen; [lia|].
  pose proof (update_rec_running fuel c' w1 nxt (started w an)) as U.
  cbn [currentIndex animations c' CameraAnimationChain.set_currentIndex] in U.
  rewrite elen in U. specialize (U more en ean1 eq_refl wfn).
  apply wp_run in U. destruct U as (res & w' & eU & f & -> & eupd & post).
  exists nxt, f, w'. cbv zeta. fold c'.
  split; [exact en|]. split; [|split].
  - unfold CameraAnimationChain.update. rewrite elen, update_rec_eq, elen.
    destruct (Nat.leb_spec (S fuel) (currentIndex c)) as [ge|_]; [lia|].
    unfold bind at 1. unfold CameraAnimationChain.animation_at at 1. rewrite ec.
    unfold bind at 1. rewrite (update_idle w cur a ea idle).
    destruct (Nat.ltb_spec (currentIndex c) (S fuel - 1)) as [_|ge]; [|lia].
    fold c'. unfold bind at 1. unfold CameraAnimationChain.animation_at at 1.
    cbn [currentIndex animations c' CameraAnimationChain.set_currentIndex].
    rewrite en. unfold bind at 1. rewrite (start_run w nxt an ean).
    fold w1. exact eU.
  - unfold bind. rewrite (start_run w nxt an ean). fold w1. exact eupd.
  - split; [cbn; lia|]. split; [eapply update_post_wf_chain; eassumption|].
    destruct (update_post_state w1 nxt (started w an) f w' outs ean1 post)
      as (a' & ea' & _ & st).
    exists nxt, a'. auto.
Qed.

Lemma chain_inv_start c0 w0 c w :
  animations c0 <> [] -> wf_chain w0 c0 ->
  CameraAnimationChain.start c0 w0 = Some (c, w) ->
  chain_inv c w [].
Proof.
  intros ne wf. unfold CameraAnimationChain.start.
  destruct (animations c0) as [|r0 rest] eqn:el; [congruence|].
  cbn [length Nat.ltb Nat.leb].
  destruct (wf 0 r0) as (a0 & ea0 & wfa); [rewrite el; reflexivity|].
  unfold bind, CameraAnimationChain.animation_at.
  cbn [animations CameraAnimationChain.set_currentIndex]. rewrite el.
  cbn [lookup list_lookup]. rewrite (start_run w0 r0 a0 ea0).
  unfold ret. intros [= <- <-].
  assert (wf1 : wf_chain (started_world w0 r0 a0) c0) by (apply started_wf_chain; assumption).
  split; [cbn; rewrite el; cbn; lia|].
  split; [exact wf1|].
  exists r0, (started w0 a0). split; [cbn; rewrite el; reflexivity|].
  split; [|left; reflexivity].
  unfold started_world. cbn [animators set_animators].
  apply list_lookup_insert_eq. eapply lookup_lt_Some; exact ea0.
Qed.

Lemma chain_inv_update c w outs out c' w' :
  chain_inv c w outs ->
  CameraAnimationChain.update c w = Some ((out, c'), w') ->
  chain_inv c' w' (out :: outs).
Proof.
  intros inv eU. pose proof inv as (lt & wf & cur & a & ec & ea & st).
  destruct (isAnimating a) eqn:run.
  - destruct (chain_update_running c w outs cur a inv ec ea run) as (f & w1 & e1 & _ & i1).
    congruence.
  - destruct (Nat.eq_dec (S (currentIndex c)) (length (animations c))) as [last|nl].
    + destruct (chain_update_idle_last c w outs cur a inv ec ea run last) as (e1 & i1).
      congruence.
    + destruct (chain_update_idle_next c w outs cur a inv ec ea run) as (n & f & w1 & en & e1 & _ & i1);
        [lia|]. cbv zeta in *. congruence.
Qed.

Lemma reachable_inv c0 w0 c w outs :
  animations c0 <> [] -> wf_chain w0 c0 ->
  reachable c0 w0 c w outs -> chain_inv c w outs.
Proof.
  intros ne wf r. induction r as [c w e|c w outs out c' w' r IH e].
  - eapply chain_inv_start; eassumption.
  - eapply chain_inv_update; eassumption.
Qed.

End ChainFacts.

(** * The specification, statement by statement *)

Section ChainTheorem.
Context `{Platform}.

(** C8: in every state that a non-empty chain reaches from [start()] by
    calls of [update()], (1) when the animator at the cursor is no longer
    running and is not the last one, [update()] advances the cursor by one,
    starts the animator there and returns, in the same call, the non-null
    frame that this animator's first [update()] gives; and (2) [update()]
    returns null only when the cursor is at the last animator and that
    animator has stopped after delivering its terminal frame. *)
Theorem chain_update_at_segment_boundary c0 w0 c w outs :
  animations c0 <> [] -> wf_chain w0 c0 -> reachable c0 w0 c w outs ->
  (forall cur a,
      animations c !! currentIndex c = Some cur ->
      animators w !! cur = Some a -> isAnimating a = false ->
      S (currentIndex c) < length (animations c) ->
      exists nxt f w',
        animations c !! S (currentIndex c) = Some nxt /\
        CameraAnimationChain.update c w
        = Some ((Some f, CameraAnimationChain.set_currentIndex (S (currentIndex c)) c), w') /\
        (CameraAnimator.start nxt;; CameraAnimator.update nxt) w = Some (Some f, w')) /\
  (forall c' w',
      CameraAnimationChain.update c w = Some ((None, c'), w') ->
      S (currentIndex c) = length (animations c) /\
      exists last a,
        animations c !! currentIndex c = Some last /\
        animators w !! last = Some a /\
        isAnimating a = false /\
        ends_with_terminal (config a) outs).
Proof.
  intros ne wf r. pose proof (reachable_inv c0 w0 c w outs ne wf r) as inv. split.
  - intros cur a ec ea idle more.
    destruct (chain_update_idle_next c w outs cur a inv ec ea idle more)
      as (nxt & f & w' & en & eU & eS & _).
    exists nxt, f, w'. auto.
  - intros c' w' eU. pose proof inv as (lt & _ & cur & a & ec & ea & st).
    destruct (isAnimating a) eqn:run.
    + destruct (chain_update_running c w outs cur a inv ec ea run) as (f & w1 & e1 & _).
      congruence.
    + destruct (Nat.eq_dec (S (currentIndex c)) (length (animations c))) as [last|nl].
      * split; [exact last|]. exists cur, a.
        destruct st as [?|(_ & t)]; [congruence|]. auto.
      * destruct (chain_update_idle_next c w outs cur a inv ec ea run)
          as (n & f & w1 & _ & e1 & _); [lia|]. congruence.
Qed.
End ChainTheorem.

Lemma demo_wf_chain : wf_chain Demo.world0 Demo.chain0.
Proof.
  intros i r e. destruct i as [|[|i]]; simpl in e; inversion e; subst; clear e.
  - eexists. split; [reflexivity|]. unfold wf_config, valid; simpl.
    repeat split; try lia; discriminate.
  - eexists. split; [reflexivity|]. unfold wf_config, valid; simpl.
    repeat split; try lia; discriminate.
Qed.

Lemma demo_start : CameraAnimationChain.start Demo.chain0 Demo.world0 = Some (Demo.chain0, Demo.world1).
Proof. vm_compute. reflexivity. Qed.
Lemma demo_first_update : @CameraAnimationChain.update ReferencePlatform.platform Demo.chain0 Demo.world1 = Some ((Some (mkFrame 1 None), Demo.chain0), Demo.world2).
Proof. vm_compute. reflexivity. Qed.
Lemma demo_reachable :
  @reachable ReferencePlatform.platform Demo.chain0 Demo.world0 Demo.chain0 Demo.world2
    [Some (mkFrame 1 None)].
Proof.
  eapply reach_update; [apply reach_start; exact demo_start | exact demo_first_update].
Qed.

Lemma chain_update_at_segment_boundary_witness :
  exists f w',
    @CameraAnimationChain.update ReferencePlatform.platform Demo.chain0 Demo.world2
    = Some ((Some f, CameraAnimationChain.set_currentIndex 1 Demo.chain0), w').
Proof.
  destruct (@chain_update_at_segment_boundary ReferencePlatform.platform
              Demo.chain0 Demo.world0 Demo.chain0 Demo.world2 [Some (mkFrame 1 None)])
    as [advance _].
  - discriminate.
  - exact demo_wf_chain.
  - exact demo_reachable.
  - destruct (advance 0 (mkAnimator (Demo.segment 0 1) (Num.of_Z 0) (Num.of_Z 1000) false
                                    (mkEasing CubicEase EASINGMODE_EASEIN)))
      as (nxt & f & w' & _ & e & _).
    + reflexivity.
    + vm_compute. reflexivity.
    + reflexivity.
    + simpl. lia.
    + exists f, w'. exact e.
Defined.

(** ** The legacy bridge *)

Section Bridge.
Context `{Platform}.
Import WWTMatrix3d.

Lemma vector_round_trip v w :
  (let* b := WWTCompat.wwtToBabylon v in WWTCompat.babylonToWWT b) w
  = Some (v, set_vectors (vectors w ++ [Vector3Data.mk (WWTVector3d.x v) (WWTVector3d.y v)
                                                        (WWTVector3d.z v)]) w).
Proof.
  unfold bind, WWTCompat.wwtToBabylon, WWTCompat.babylonToWWT, new_Vector3, get_Vector3, bind.
  cbn [vectors set_vectors]. rewrite list_lookup_middle by reflexivity.
  destruct v; reflexivity.
Qed.

Lemma matrix_round_trip m :
  WWTCompat.babylonMatrixToWWT (WWTCompat.wwtMatrixToBabylon m) = map_fields Matrix.store m.
Proof. reflexivity. Qed.

Lemma FromValues_length a0 a1 a2 a3 a4 a5 a6 a7 a8 a9 a10 a11 a12 a13 a14 a15 :
  length (Matrix.m (Matrix.FromValues a0 a1 a2 a3 a4 a5 a6 a7 a8 a9 a10 a11 a12 a13 a14 a15)) = 16.
Proof. reflexivity. Qed.

(** C3: the vector round trip [babylonToWWT (wwtToBabylon v)] gives back
    [v] exactly.  The matrix round trip
    [babylonMatrixToWWT (wwtMatrixToBabylon m)] gives back every field of
    [m] at its own place after it went through the matrix storage
    ([Math.fround] under the library's default [Float32Array]); it is [m]
    exactly when the storage leaves every field of [m] as it is. *)
Theorem bridge_round_trips v m w :
  (exists w', (let* b := WWTCompat.wwtToBabylon v in WWTCompat.babylonToWWT b) w = Some (v, w')) /\
  WWTCompat.babylonMatrixToWWT (WWTCompat.wwtMatrixToBabylon m) = map_fields Matrix.store m /\
  (map_fields Matrix.store m = m ->
   WWTCompat.babylonMatrixToWWT (WWTCompat.wwtMatrixToBabylon m) = m).
Proof.
  split; [|split].
  - eexists. apply vector_round_trip.
  - apply matrix_round_trip.
  - intros fixed. rewrite matrix_round_trip. exact fixed.
Qed.

Lemma store_64 a : MatrixUse64Bits = true -> Matrix.store a = a.
Proof. unfold Matrix.store. intros ->. reflexivity. Qed.

Lemma store_32 a : MatrixUse64Bits = false -> Matrix.store a = Num.fround a.
Proof. unfold Matrix.store. intros ->. reflexivity. Qed.

Lemma matrix_round_trip_64 m :
  MatrixUse64Bits = true ->
  WWTCompat.babylonMatrixToWWT (WWTCompat.wwtMatrixToBabylon m) = m.
Proof.
  intros u. rewrite matrix_round_trip. destruct m; unfold map_fields; simpl.
  rewrite !store_64 by exact u. reflexivity.
Qed.

End Bridge.

(** The matrix whose sixteen fields are all 0.1. *)
Lemma bridge_round_trips_counterexample :
  exists m : WWTMatrix3d.t,
    WWTMatrix3d._m11 m = Num.dec 1 1 /\
    forall P : Platform, @MatrixUse64Bits P = false ->
      WWTMatrix3d._m11 (WWTCompat.babylonMatrixToWWT (@WWTCompat.wwtMatrixToBabylon P m))
      = S754_finite false 7205759511166976 (-56) /\
      Num.strict_eq
        (WWTMatrix3d._m11 (WWTCompat.babylonMatrixToWWT (@WWTCompat.wwtMatrixToBabylon P m)))
        (WWTMatrix3d._m11 m) = false.
Proof.
  set (t := Num.dec 1 1).
  exists (WWTMatrix3d.mk t t t t t t t t t t t t t t t t).
  split; [reflexivity|]. intros P u.
  rewrite matrix_round_trip. cbn [WWTMatrix3d.map_fields WWTMatrix3d._m11].
  rewrite (store_32 t u). split; vm_compute; reflexivity.
Qed.

(** ** The longitude fold *)



Lemma normalizeLongitude_counterexample :
  Num.gt (Num.of_Z 270) (Num.of_Z 180) = true /\
  AstroMath.normalizeLongitude (Num.of_Z 270) = Num.of_Z (-270) /\
  (Num.of_Z 270 - Num.of_Z 360)%num = Num.of_Z (-90) /\
  Num.strict_eq (AstroMath.normalizeLongitude (Num.of_Z 270))
                (Num.of_Z 270 - Num.of_Z 360)%num = false.
Proof. vm_compute. repeat split; reflexivity. Qed.

(** ** Antipodal points *)

Lemma strict_eq_zero a : Num.strict_eq a Num.zero = true -> exists s, a = S754_zero s.
Proof.
  destruct a as [s|s| |s m e]; try destruct s; try discriminate; eauto.
Qed.

Lemma half_finite : Num.dec 5 1 = S754_finite false 4503599627370496 (-53).
Proof. vm_compute. reflexivity. Qed.

Lemma zero_vector_length sx sy sz :
  Vector3.length_of (Vector3Data.mk (S754_zero sx) (S754_zero sy) (S754_zero sz)) = Num.zero.
Proof. destruct sx, sy, sz; reflexivity. Qed.

Lemma zero_vector_normalized sx sy sz :
  normalized (Vector3Data.mk (S754_zero sx) (S754_zero sy) (S754_zero sz))
  = Vector3Data.mk (S754_zero sx) (S754_zero sy) (S754_zero sz).
Proof. unfold normalized. rewrite zero_vector_length. reflexivity. Qed.

Lemma lookup_alloc {A} (l : list A) v : (l ++ [v]) !! length l = Some v.
Proof. apply list_lookup_middle. reflexivity. Qed.

Lemma lookup_alloc_old {A} (l : list A) v k : (l ++ [v] ++ k) !! length l = Some v.
Proof. apply list_lookup_middle. reflexivity. Qed.

Section Antipodes.
Context `{Platform}.

Lemma geoTo3D_run lat lng w :
  AstroMath.geoTo3D lat lng None w
  = Some (length (vectors w), set_vectors (vectors w ++ [embedding lat lng]) w).
Proof. reflexivity. Qed.

Lemma cartesianToSpherical_zero w vec sx sy sz :
  vectors w !! vec = Some (Vector3Data.mk (S754_zero sx) (S754_zero sy) (S754_zero sz)) ->
  AstroMath.cartesianToSpherical vec w = Some (Vector2.mk Num.zero Num.zero, w).
Proof.
  intros e. unfold AstroMath.cartesianToSpherical, bind.
  rewrite (length_run w vec _ e), zero_vector_length. reflexivity.
Qed.

(** C10: when the [geoTo3D] embeddings of the two points sum to the zero
    vector, [sphericalMidpoint] returns latitude 0 and longitude 0, and
    changes no object that existed before the call. *)
Theorem sphericalMidpoint_of_antipodes lat1 lng1 lat2 lng2 w :
  is_zero_vector (vector_sum (embedding lat1 lng1) (embedding lat2 lng2)) = true ->
  exists w', AstroMath.sphericalMidpoint lat1 lng1 lat2 lng2 w
             = Some (Vector2.mk Num.zero Num.zero, w') /\
             frame everything w w'.
Proof.
  intros zero. unfold is_zero_vector in zero.
  apply andb_prop in zero. destruct zero as [zero zz].
  apply andb_prop in zero. destruct zero as [zx zy].
  apply strict_eq_zero in zx, zy, zz.
  destruct zx as [sx ex], zy as [sy ey], zz as [sz ez].
  set (e1 := embedding lat1 lng1) in *. set (e2 := embedding lat2 lng2) in *.
  set (n := length (vectors w)).
  set (half := Vector3Data.mk (S754_zero (xorb sx false)) (S754_zero (xorb sy false))
                              (S754_zero (xorb sz false))).
  set (l4 := vectors w ++ [e1; e2; vector_sum e1 e2; half]).
  exists (set_vectors l4 w). split.
  - unfold AstroMath.sphericalMidpoint.
    unfold bind at 1. rewrite geoTo3D_run.
    unfold bind at 1. rewrite geoTo3D_run. cbn [vectors set_vectors].
    unfold bind at 1.
    rewrite (add_run _ n (length (vectors w ++ [e1])) e1 e2).
    2:{ cbn [vectors set_vectors]. rewrite <- app_assoc. apply lookup_alloc_old. }
    2:{ cbn [vectors set_vectors]. apply lookup_alloc. }
    cbn [vectors set_vectors].
    unfold bind at 1.
    rewrite (scale_run _ _ (vector_sum e1 e2)).
    2:{ cbn [vectors set_vectors]. apply lookup_alloc. }
    cbn [vectors set_vectors].
    assert (eh : Vector3.scaled (vector_sum e1 e2) (Num.dec 5 1) = half).
    { unfold Vector3.scaled, vector_sum. cbn [Vector3Data.x Vector3Data.y Vector3Data.z].
      unfold vector_sum in ex, ey, ez.
      cbn [Vector3Data.x Vector3Data.y Vector3Data.z] in ex, ey, ez.
      rewrite ex, ey, ez, half_finite. reflexivity. }
    rewrite eh.
    assert (el : ((((vectors w ++ [e1]) ++ [e2]) ++ [vector_sum e1 e2]) ++ [half]) = l4).
    { unfold l4. rewrite <- !app_assoc. reflexivity. }
    unfold bind at 1.
    rewrite (normalize_run _ _ half) by (cbn [vectors set_vectors]; apply lookup_alloc).
    cbn [vectors set_vectors].
    assert (nh : normalized half = half) by apply zero_vector_normalized.
    rewrite nh.
    rewrite list_insert_id by apply lookup_alloc.
    rewrite (cartesianToSpherical_zero _ _ (xorb sx false) (xorb sy false) (xorb sz false))
      by (cbn [vectors set_vectors]; apply lookup_alloc).
    unfold set_vectors. cbn [vectors animators clock ticks].
    do 3 f_equal. exact el.
  - unfold frame, kept, everything, l4. cbn [animators clock ticks vectors set_vectors].
    repeat split; auto.
    + rewrite length_app. lia.
    + intros r v _ e. apply lookup_app_l_Some. exact e.
Qed.
End Antipodes.

Lemma sphericalMidpoint_of_antipodes_witness :
  exists w',
    @AstroMath.sphericalMidpoint ReferencePlatform.platform
      (Num.of_Z 0) (Num.of_Z 30) (Num.of_Z 0) (Num.of_Z (-150)) (Demo.empty_world Demo.clock)
    = Some (Vector2.mk Num.zero Num.zero, w') /\
    frame everything (Demo.empty_world Demo.clock) w'.
Proof.
  apply (@sphericalMidpoint_of_antipodes ReferencePlatform.platform).
  vm_compute. reflexivity.
Defined.

(** Antipodal points whose embeddings do not sum to the zero vector, on the
    reference platform. For the poles (90, 0) and (-90, 0) the two cosines of
    a quarter turn, 6.1e-17 each, add up in the x component (the midpoint
    returned is (0, 0) all the same); for (0, 0) and (0, 180) the sine of a
    half turn, 1.2e-16, is left in the z component, and the midpoint returned
    is (0, 90). *)
Lemma antipodal_points_counterexample :
  is_zero_vector (vector_sum (@embedding ReferencePlatform.platform (Num.of_Z 90) (Num.of_Z 0))
                             (@embedding ReferencePlatform.platform (Num.of_Z (-90)) (Num.of_Z 0)))
  = false /\
  is_zero_vector (vector_sum (@embedding ReferencePlatform.platform (Num.of_Z 0) (Num.of_Z 0))
                             (@embedding ReferencePlatform.platform (Num.of_Z 0) (Num.of_Z 180)))
  = false /\
  result_of (@AstroMath.sphericalMidpoint ReferencePlatform.platform
               (Num.of_Z 0) (Num.of_Z 0) (Num.of_Z 0) (Num.of_Z 180))
            (Demo.empty_world Demo.clock)
  = Some (Vector2.mk (Num.of_Z 0) (Num.of_Z 90)).
Proof. vm_compute. repeat split; reflexivity. Qed.

(** ** Arguments that the code overwrites *)

Section Overwrites.
Context `{Platform}.

(** [cartesianToAzAlt] normalizes the caller's vector in place. *)
Lemma cartesianToAzAlt_run w vec v :
  vectors w !! vec = Some v ->
  exists azalt,
    AstroMath.cartesianToAzAlt vec w
    = Some (azalt, set_vectors (<[vec := normalized v]> (vectors w)) w).
Proof.
  intros e. unfold AstroMath.cartesianToAzAlt. unfold bind at 1.
  rewrite (normalize_run w vec v e). unfold bind, get_Vector3.
  cbn [vectors set_vectors].
  rewrite list_lookup_insert_eq by (eapply lookup_lt_Some; exact e).
  eexists. reflexivity.
Qed.

(** C7: [cartesianToAzAlt] is not pure in its argument: called on the
    vector (3, 0, 4) it leaves the caller's vector as
    (0.6000000000000001, 0, 0.8). *)
Theorem cartesianToAzAlt_overwrites_its_argument :
  exists azalt,
    AstroMath.cartesianToAzAlt 0 (Directions.only Directions.long_vector)
    = Some (azalt, Directions.only Directions.long_vector_normalized).
Proof.
  destruct (cartesianToAzAlt_run (Directions.only Directions.long_vector) 0
              Directions.long_vector eq_refl) as [azalt e].
  exists azalt. rewrite e. reflexivity.
Qed.

(** [slerp] of two opposite unit vectors: the component of the second
    orthogonal to the first is the zero vector, which [normalize] leaves,
    so that the result is the first vector scaled by the cosine. *)
Lemma slerp_opposite t :
  let theta := (Math_acos (Num.of_Z (-1)) * t)%num in
  let c := Math_cos theta in
  let s := Math_sin theta in
  result_vector (AstroMath.slerp 0 1 t) Directions.opposite
  = Some (Vector3Data.mk (Num.of_Z 1 * c + Num.zero * s)%num
                         (Num.of_Z 0 * c + Num.zero * s)%num
                         (Num.of_Z 0 * c + Num.zero * s)%num).
Proof.
  cbv zeta. unfold result_vector, AstroMath.slerp. unfold bind at 1.
  rewrite (Dot_run Directions.opposite 0 1 Directions.east Directions.west eq_refl eq_refl).
  match goal with |- context [Num.gt ?a ?b] =>
    replace (Num.gt a b) with false by (vm_compute; reflexivity) end.
  match goal with |- context [Num.max ?a ?b] =>
    replace (Num.max a b) with (Num.of_Z (-1)) by (vm_compute; reflexivity) end.
  unfold bind at 1.
  set (r1 := Vector3.scale 0 (Num.of_Z (-1)) Directions.opposite).
  vm_compute in r1. subst r1. cbv beta iota.
  unfold bind at 1.
  match goal with |- context [Vector3.subtract ?a ?b ?w] =>
    set (r2 := Vector3.subtract a b w) end.
  vm_compute in r2. subst r2. cbv beta iota.
  unfold bind at 1.
  match goal with |- context [Vector3.normalize ?a ?w] =>
    set (r3 := Vector3.normalize a w) end.
  vm_compute in r3. subst r3. cbv beta iota.
  unfold bind, Vector3.scale, Vector3.add, bind, get_Vector3, new_Vector3.
  cbn [vectors set_vectors lookup list_lookup app length Vector3Data.x Vector3Data.y Vector3Data.z].
  reflexivity.
Qed.

(** The first [update] of the spherical move normalizes the two positions
    of the configuration in place: half way, and at the end. *)
Lemma orbit_update_half_way :
  let run := CameraAnimator.start 0;; CameraAnimator.update 0 in
  vector_after run (Orbit.world (Num.of_Z 1000) 500) 0 = Some Orbit.start_direction /\
  vector_after run (Orbit.world (Num.of_Z 1000) 500) 1 = Some Orbit.end_direction.
Proof. vm_compute. split; reflexivity. Qed.

End Overwrites.

(** C5: [slerp] of the opposite unit vectors (1, 0, 0) and (-1, 0, 0) is
    the first vector scaled by the cosine of the angle, on every platform;
    at [t = 0.5] it is not a unit vector: with the reference implementations
    of [Math.acos], [Math.cos] and [Math.sin] the result is
    (6.123233995736766e-17, 0, 0), whose length is not within 1e-8 of 1. *)
Theorem slerp_of_opposite_vectors_is_not_unit :
  (forall (P : Platform) (t : number),
      let theta := (@Math_acos P (Num.of_Z (-1)) * t)%num in
      let c := @Math_cos P theta in
      let s := @Math_sin P theta in
      result_vector (@AstroMath.slerp P 0 1 t) Directions.opposite
      = Some (Vector3Data.mk (Num.of_Z 1 * c + Num.zero * s)%num
                             (Num.of_Z 0 * c + Num.zero * s)%num
                             (Num.of_Z 0 * c + Num.zero * s)%num)) /\
  (let tiny := S754_finite false 4967757600021511 (-106) in
   let v := Vector3Data.mk tiny Num.zero Num.zero in
   result_vector (@AstroMath.slerp ReferencePlatform.platform 0 1 (Num.dec 5 1))
                 Directions.opposite = Some v /\
   Vector3.length_of v = tiny /\
   Directions.within (Num.dec 1 8) (Vector3.length_of v) Num.one = false).
Proof.
  split.
  - intros P t. exact (@slerp_opposite P t).
  - vm_compute. repeat split; reflexivity.
Qed.

Section OrbitFacts.
Context `{Platform}.

(** C2: [update()] overwrites the configured positions in spherical
    mode: for the move from (0, 0, 10) to (10, 0, 10) in 1000 ms, the
    [update()] at 500 ms leaves (0, 0, 1) in the configured start position
    and (0.7071067811865475, 0, 0.7071067811865475) in the configured end
    position. *)
Theorem update_overwrites_the_configured_positions :
  let run := CameraAnimator.start 0;; CameraAnimator.update 0 in
  let w := Orbit.world (Num.of_Z 1000) 500 in
  vectors w !! 0 = Some Orbit.start_vector /\
  vectors w !! 1 = Some Orbit.end_vector /\
  vector_after run w 0 = Some Orbit.start_direction /\
  vector_after run w 1 = Some Orbit.end_direction.
Proof. vm_compute. repeat split; reflexivity. Qed.

(** C1: in spherical mode the [update()] that observes progress 1 stops
    the animator and returns the configured end position object, but has
    normalized it before: for the move from (0, 0, 10) to (10, 0, 10) in
    1000 ms, the position returned at 1000 ms is
    (0.7071067811865475, 0, 0.7071067811865475), not (10, 0, 10). *)
Theorem update_returns_the_normalized_end_position :
  let run := CameraAnimator.start 0;; CameraAnimator.update 0 in
  let w := Orbit.world (Num.of_Z 1000) 1000 in
  vectors w !! 1 = Some Orbit.end_vector /\
  result_of run w = Some (Some (mkFrame 1 None)) /\
  option_map isAnimating (animator_after run w 0) = Some false /\
  vector_after run w 1 = Some Orbit.end_direction.
Proof. vm_compute. repeat split; reflexivity. Qed.

End OrbitFacts.

(** ** Durations that are not positive *)

Section Durations.
Context `{Platform}.

(** [start()] then [update()], on an animator whose vectors are objects of
    the store. *)
Lemma start_then_update w this a :
  animators w !! this = Some a -> wf_config w (config a) ->
  wp (CameraAnimator.start this;; CameraAnimator.update this) w
     (update_post (started_world w this a) this (started w a)).
Proof.
  intros ea wf. apply wp_bind. eapply wp_of_run; [apply start_run; exact ea|].
  apply update_running.
  - unfold started_world. cbn [animators set_animators].
    apply list_lookup_insert_eq. eapply lookup_lt_Some; exact ea.
  - reflexivity.
  - exact wf.
Qed.

(** The progress that the first [update()] after [start()] computes. *)
Lemma first_progress w this a :
  CameraAnimator.progress_of (clocked (started_world w this a) (started w a))
  = Num.min ((clock w (S (ticks w)) - clock w (ticks w)) / duration (config a))%num Num.one.
Proof. reflexivity. Qed.

(** Elapsed time over a duration of [-0]. *)
Lemma progress_negative_zero_duration (elapsed : number) :
  Num.gt elapsed Num.zero = true ->
  Num.min (elapsed / S754_zero true)%num Num.one = S754_infinity true.
Proof.
  destruct elapsed as [s|s| |s m e]; try destruct s; try discriminate; reflexivity.
Qed.

(** C6: an animator whose duration is a zero, [+0] or [-0], that is
    started, and whose first [update()] reads a clock later than [start()]
    did. With [+0] the progress computed is 1 and the call completes the
    animation: it returns the terminal frame and leaves the animator not
    running. With [-0] the progress is -Infinity and the call returns a
    frame and leaves the animator running. *)
Theorem zero_duration_first_update w this a (negative : bool) :
  animators w !! this = Some a -> wf_config w (config a) ->
  duration (config a) = S754_zero negative ->
  Num.gt (clock w (S (ticks w)) - clock w (ticks w))%num Num.zero = true ->
  exists f w' a',
    (CameraAnimator.start this;; CameraAnimator.update this) w = Some (Some f, w') /\
    animators w' !! this = Some a' /\
    if negative
    then isAnimating a' = true /\
         CameraAnimator.progress_of a' = S754_infinity true
    else f = terminal_frame (config a) /\
         isAnimating a' = false /\
         CameraAnimator.progress_of a' = Num.one.
Proof.
  intros ea wf zero later.
  pose proof (start_then_update w this a ea wf) as U.
  apply wp_run in U. destruct U as (res & w' & eU & post).
  unfold update_post in post. cbv zeta in post.
  assert (ea' : forall b,
             animators w' = <[this := b]> (animators (started_world w this a)) ->
             animators w' !! this = Some b).
  { intros b ean. rewrite ean. unfold started_world. cbn [animators set_animators].
    apply list_lookup_insert_eq. rewrite length_insert. eapply lookup_lt_Some; exact ea. }
  rewrite first_progress, zero in post.
  destruct negative.
  - rewrite (progress_negative_zero_duration _ later) in post.
    change (Num.ge (S754_infinity true) Num.one) with false in post. cbv iota in post.
    destruct post as (_ & _ & ean & _ & pos & tgt & -> & _).
    exists (mkFrame pos tgt), w'. eexists. split; [exact eU|].
    split; [exact (ea' _ ean)|]. split; [reflexivity|].
    change (CameraAnimator.progress_of
              (clocked (started_world w this a) (started w a)) = S754_infinity true).
    rewrite first_progress, zero. apply progress_negative_zero_duration. exact later.
  - change (S754_zero false) with Num.zero in post.
    rewrite (progress_zero_duration _ later) in post.
    change (Num.ge Num.one Num.one) with true in post. cbv iota in post.
    destruct post as (_ & _ & ean & _ & ->).
    exists (terminal_frame (config a)), w'. eexists. split; [exact eU|].
    split; [exact (ea' _ ean)|]. split; [reflexivity|]. split; [reflexivity|].
    change (CameraAnimator.progress_of
              (clocked (started_world w this a) (started w a)) = Num.one).
    rewrite first_progress, zero. apply progress_zero_duration. exact later.
Qed.

(** With a negative duration the first [update()] does not complete the
    animation, however late it comes. *)
Lemma negative_duration_never_completes w this a :
  animators w !! this = Some a -> wf_config w (config a) ->
  Num.lt (duration (config a)) Num.zero = true ->
  Num.ge (clock w (S (ticks w)) - clock w (ticks w))%num Num.zero = true ->
  exists f w' a',
    (CameraAnimator.start this;; CameraAnimator.update this) w = Some (Some f, w') /\
    animators w' !! this = Some a' /\
    isAnimating a' = true /\
    Num.ge (CameraAnimator.progress_of a') Num.one = false.
Proof.
  intros ea wf neg later.
  pose proof (start_then_update w this a ea wf) as U.
  apply wp_run in U. destruct U as (res & w' & eU & post).
  unfold update_post in post. cbv zeta in post.
  pose proof (progress_negative_duration _ _ later neg) as np.
  rewrite first_progress, np in post. cbv iota in post.
  destruct post as (_ & _ & ean & _ & pos & tgt & -> & _).
  exists (mkFrame pos tgt), w'. eexists. split; [exact eU|]. split.
  - rewrite ean. unfold started_world. cbn [animators set_animators].
    apply list_lookup_insert_eq. rewrite length_insert. eapply lookup_lt_Some; exact ea.
  - split; [reflexivity|].
    change (Num.ge (CameraAnimator.progress_of
              (clocked (started_world w this a) (started w a))) Num.one = false).
    rewrite first_progress. exact np.
Qed.

End Durations.

Lemma orbit_wf d t : wf_config (Orbit.world d t) (Orbit.move d).
Proof.
  unfold wf_config, valid; simpl. repeat split; try lia; discriminate.
Qed.

Lemma zero_duration_first_update_witness :
  (exists f w' a',
      (CameraAnimator.start 0;; @CameraAnimator.update ReferencePlatform.platform 0)
        (Orbit.world Num.zero 16) = Some (Some f, w') /\
      animators w' !! 0 = Some a' /\
      f = terminal_frame (Orbit.move Num.zero) /\
      isAnimating a' = false /\
      CameraAnimator.progress_of a' = Num.one) /\
  (exists f w' a',
      (CameraAnimator.start 0;; @CameraAnimator.update ReferencePlatform.platform 0)
        (Orbit.world (S754_zero true) 16) = Some (Some f, w') /\
      animators w' !! 0 = Some a' /\
      isAnimating a' = true /\
      CameraAnimator.progress_of a' = S754_infinity true).
Proof.
  split.
  - apply (@zero_duration_first_update ReferencePlatform.platform
             (Orbit.world Num.zero 16) 0 (Orbit.animator Num.zero) false).
    + reflexivity.
    + apply orbit_wf.
    + reflexivity.
    + vm_compute. reflexivity.
  - apply (@zero_duration_first_update ReferencePlatform.platform
             (Orbit.world (S754_zero true) 16) 0 (Orbit.animator (S754_zero true)) true).
    + reflexivity.
    + apply orbit_wf.
    + reflexivity.
    + vm_compute. reflexivity.
Defined.

(** Two animators that the first [update()] after [start()] leaves running:
    a duration of -1000 ms with the update 500 ms after the start (progress
    -0.5), and a duration of 0 ms with the update in the same millisecond as
    the start (progress 0 / 0, not a number). *)
Lemma non_positive_duration_counterexample :
  exists w z this a b,
    animators w !! this = Some a /\
    animators z !! this = Some b /\
    Num.lt (duration (config a)) Num.zero = true /\
    Num.strict_eq (duration (config b)) Num.zero = true /\
    forall P : Platform,
      (exists f w' a',
          (CameraAnimator.start this;; @CameraAnimator.update P this) w = Some (Some f, w') /\
          animators w' !! this = Some a' /\
          isAnimating a' = true /\
          CameraAnimator.progress_of a' = Num.neg (Num.dec 5 1)) /\
      (exists f z' b',
          (CameraAnimator.start this;; @CameraAnimator.update P this) z = Some (Some f, z') /\
          animators z' !! this = Some b' /\
          isAnimating b' = true /\
          Num.is_nan (CameraAnimator.progress_of b') = true).
Proof.
  exists (Orbit.world (Num.of_Z (-1000)) 500), (Orbit.world Num.zero 0), 0,
         (Orbit.animator (Num.of_Z (-1000))), (Orbit.animator Num.zero).
  split; [reflexivity|]. split; [reflexivity|].
  split; [vm_compute; reflexivity|]. split; [vm_compute; reflexivity|].
  intros P. split.
  - pose proof (@start_then_update P (Orbit.world (Num.of_Z (-1000)) 500) 0
                  (Orbit.animator (Num.of_Z (-1000))) eq_refl (orbit_wf _ _)) as U.
    destruct (wp_elim _ _ _ U) as (res & w' & eU & post).
    unfold update_post in post. cbv zeta in post.
    rewrite first_progress in post.
    match type of post with context [Num.ge ?p Num.one] =>
      replace (Num.ge p Num.one) with false in post by (vm_compute; reflexivity) end.
    cbv iota in post.
    destruct post as (_ & _ & ean & _ & pos & tgt & -> & _).
    exists (mkFrame pos tgt), w'. eexists. split; [exact eU|]. split.
    + rewrite ean. reflexivity.
    + split; [reflexivity|]. vm_compute. reflexivity.
  - pose proof (@start_then_update P (Orbit.world Num.zero 0) 0
                  (Orbit.animator Num.zero) eq_refl (orbit_wf _ _)) as U.
    destruct (wp_elim _ _ _ U) as (res & z' & eU & post).
    unfold update_post in post. cbv zeta in post.
    rewrite first_progress in post.
    match type of post with context [Num.ge ?p Num.one] =>
      replace (Num.ge p Num.one) with false in post by (vm_compute; reflexivity) end.
    cbv iota in post.
    destruct post as (_ & _ & ean & _ & pos & tgt & -> & _).
    exists (mkFrame pos tgt), z'. eexists. split; [exact eU|]. split.
    + rewrite ean. reflexivity.
    + split; [reflexivity|]. vm_compute. reflexivity.
Qed.

(** * Further properties of the animator, the chain and the conversions *)

Section AnimatorProperties.
Context `{Platform}.

(** In linear mode a call of [update()] on a running animator returns a
    frame, keeps the configuration of the animator, and leaves every vector
    that existed before the call as it was. *)
Theorem linear_update_keeps_every_vector w this a :
  animators w !! this = Some a -> isAnimating a = true ->
  wf_config w (config a) -> CameraAnimator.spherical (config a) = false ->
  exists f w' a',
    CameraAnimator.update this w = Some (Some f, w') /\
    animators w' !! this = Some a' /\ config a' = config a /\
    forall r v, vectors w !! r = Some v -> vectors w' !! r = Some v.
Proof.
  intros ea run wf lin.
  destruct (wp_elim _ _ _ (update_running w this a ea run wf))
    as (res & w' & eU & _ & _ & ean & kp & post).
  assert (exists f, res = Some f) as [f ->].
  { destruct (Num.ge _ _); [eauto | destruct post as (p & t & -> & _); eauto]. }
  exists f, w'. eexists. split; [exact eU|]. split.
  - rewrite ean. apply list_lookup_insert_eq. eapply lookup_lt_Some; exact ea.
  - split; [reflexivity|]. intros r v e. apply kp; [|exact e].
    split; [eapply lookup_valid; exact e|].
    unfold normalized_refs. rewrite lin. intros [].
Qed.

(** In linear mode the [update()] that observes a progress of 1 or more
    stops the animator and returns the configured end position and end
    target, and every vector that existed before the call, these two
    included, is as it was. *)
Theorem linear_update_returns_the_configured_end w this a :
  animators w !! this = Some a -> isAnimating a = true ->
  wf_config w (config a) -> CameraAnimator.spherical (config a) = false ->
  Num.ge (CameraAnimator.progress_of (clocked w a)) Num.one = true ->
  exists w' a',
    CameraAnimator.update this w = Some (Some (terminal_frame (config a)), w') /\
    animators w' !! this = Some a' /\ isAnimating a' = false /\ config a' = config a /\
    forall r v, vectors w !! r = Some v -> vectors w' !! r = Some v.
Proof.
  intros ea run wf lin done.
  destruct (wp_elim _ _ _ (update_running w this a ea run wf))
    as (res & w' & eU & post).
  unfold update_post in post. cbv zeta in post. rewrite done in post.
  destruct post as (_ & _ & ean & kp & ->).
  exists w'. eexists. split; [exact eU|]. split.
  - rewrite ean. apply list_lookup_insert_eq. eapply lookup_lt_Some; exact ea.
  - split; [reflexivity|]. split; [reflexivity|]. intros r v e. apply kp; [|exact e].
    split; [eapply lookup_valid; exact e|].
    unfold normalized_refs. rewrite lin. intros [].
Qed.

(** [update()] on an animator that is not running returns [null] and
    changes nothing, the clock included. *)
Theorem idle_update_returns_null w this a :
  animators w !! this = Some a -> isAnimating a = false ->
  CameraAnimator.update this w = Some (None, w).
Proof. apply update_idle. Qed.

(** [start()] and [stop()] write the fields of the animator only: no vector
    changes and the configuration stays. *)
Theorem start_and_stop_keep_the_configuration w this a :
  animators w !! this = Some a ->
  (exists w' a',
      CameraAnimator.start this w = Some (tt, w') /\ vectors w' = vectors w /\
      animators w' !! this = Some a' /\ config a' = config a /\ isAnimating a' = true) /\
  (exists w' a',
      CameraAnimator.stop this w = Some (tt, w') /\ vectors w' = vectors w /\
      animators w' !! this = Some a' /\ config a' = config a /\ isAnimating a' = false).
Proof.
  intros ea. pose proof (lookup_lt_Some _ _ _ ea) as lt. split.
  - exists (started_world w this a), (started w a).
    split; [apply start_run; exact ea|]. split; [reflexivity|].
    split; [apply list_lookup_insert_eq; exact lt|]. split; reflexivity.
  - eexists. exists (CameraAnimator.set_isAnimating false a).
    split; [apply stop_run; exact ea|]. split; [reflexivity|].
    split; [apply list_lookup_insert_eq; exact lt|]. split; reflexivity.
Qed.

(** [slerp] returns a vector that it has made and leaves every vector that
    existed before the call, its two arguments included, as it was. *)
Theorem slerp_keeps_its_arguments w v1 v2 t :
  valid w v1 -> valid w v2 ->
  exists r w',
    AstroMath.slerp v1 v2 t w = Some (r, w') /\
    length (vectors w) <= r /\ valid w' r /\
    forall r0 v, vectors w !! r0 = Some v -> vectors w' !! r0 = Some v.
Proof.
  intros val1 val2.
  destruct (wp_elim _ _ _ (slerp_spec w v1 v2 t val1 val2))
    as (r & w' & e & (_ & _ & _ & _ & kp) & vr & fr).
  exists r, w'. split; [exact e|]. split; [exact fr|]. split; [exact vr|].
  intros r0 v e0. apply kp; [eapply lookup_valid|]; exact e0.
Qed.

(** From every state that a non-empty chain reaches, [update()] returns:
    its recursion ends. *)
Theorem chain_update_returns c0 w0 c w outs :
  animations c0 <> [] -> wf_chain w0 c0 -> reachable c0 w0 c w outs ->
  exists out c' w', CameraAnimationChain.update c w = Some ((out, c'), w').
Proof.
  intros ne wf r. pose proof (reachable_inv c0 w0 c w outs ne wf r) as inv.
  pose proof inv as (lt & _ & cur & a & ec & ea & _).
  destruct (isAnimating a) eqn:run.
  - destruct (chain_update_running c w outs cur a inv ec ea run) as (f & w' & e & _).
    eauto.
  - destruct (Nat.eq_dec (S (currentIndex c)) (length (animations c))) as [last|nl].
    + destruct (chain_update_idle_last c w outs cur a inv ec ea run last) as (e & _).
      eauto.
    + destruct (chain_update_idle_next c w outs cur a inv ec ea run)
        as (n & f & w' & _ & e & _); [lia|]. eauto.
Qed.

(** While the animator at the cursor is running, the chain's [update()]
    returns the frame of that animator's [update()] and leaves the cursor
    where it is. *)
Theorem chain_update_while_running c0 w0 c w outs cur a :
  animations c0 <> [] -> wf_chain w0 c0 -> reachable c0 w0 c w outs ->
  animations c !! currentIndex c = Some cur ->
  animators w !! cur = Some a -> isAnimating a = true ->
  exists f w',
    CameraAnimationChain.update c w = Some ((Some f, c), w') /\
    CameraAnimator.update cur w = Some (Some f, w').
Proof.
  intros ne wf r ec ea run.
  pose proof (reachable_inv c0 w0 c w outs ne wf r) as inv.
  destruct (chain_update_running c w outs cur a inv ec ea run) as (f & w' & e & e' & _).
  eauto.
Qed.

End AnimatorProperties.

(** With 64-bit matrices the matrix round trip gives back the matrix. *)
Theorem matrix_round_trip_is_exact_in_64_bits (P : Platform) m :
  @MatrixUse64Bits P = true ->
  WWTCompat.babylonMatrixToWWT (@WWTCompat.wwtMatrixToBabylon P m) = m.
Proof.
  intros u. rewrite matrix_round_trip. destruct m; unfold WWTMatrix3d.map_fields; simpl.
  rewrite !store_64 by exact u. reflexivity.
Qed.

(** ** The properties at concrete animators *)

Lemma demo_running_animator :
  animators Demo.world1 !! 0
  = Some (mkAnimator (Demo.segment 0 1) (Num.of_Z 0) Num.zero true
                     (mkEasing CubicEase EASINGMODE_EASEIN)).
Proof. reflexivity. Qed.

Lemma demo_wf_config w from to :
  from < length (vectors w) -> to < length (vectors w) ->
  wf_config w (Demo.segment from to).
Proof. intros l1 l2. unfold wf_config, valid; simpl. repeat split; try assumption; discriminate. Qed.

Lemma linear_update_keeps_every_vector_witness :
  exists f w' a',
    @CameraAnimator.update ReferencePlatform.platform 0 Demo.world1 = Some (Some f, w') /\
    animators w' !! 0 = Some a' /\ config a' = Demo.segment 0 1 /\
    forall r v, vectors Demo.world1 !! r = Some v -> vectors w' !! r = Some v.
Proof.
  apply (@linear_update_keeps_every_vector ReferencePlatform.platform Demo.world1 0
           (mkAnimator (Demo.segment 0 1) (Num.of_Z 0) Num.zero true
                       (mkEasing CubicEase EASINGMODE_EASEIN))).
  - reflexivity.
  - reflexivity.
  - apply demo_wf_config; simpl; lia.
  - reflexivity.
Defined.

Lemma linear_update_returns_the_configured_end_witness :
  exists w' a',
    @CameraAnimator.update ReferencePlatform.platform 0 Demo.world1
    = Some (Some (terminal_frame (Demo.segment 0 1)), w') /\
    animators w' !! 0 = Some a' /\ isAnimating a' = false /\ config a' = Demo.segment 0 1 /\
    forall r v, vectors Demo.world1 !! r = Some v -> vectors w' !! r = Some v.
Proof.
  apply (@linear_update_returns_the_configured_end ReferencePlatform.platform Demo.world1 0
           (mkAnimator (Demo.segment 0 1) (Num.of_Z 0) Num.zero true
                       (mkEasing CubicEase EASINGMODE_EASEIN))).
  - reflexivity.
  - reflexivity.
  - apply demo_wf_config; simpl; lia.
  - reflexivity.
  - vm_compute. reflexivity.
Defined.

Lemma idle_update_returns_null_witness :
  @CameraAnimator.update ReferencePlatform.platform 0 Demo.world2 = Some (None, Demo.world2).
Proof.
  apply (@idle_update_returns_null ReferencePlatform.platform Demo.world2 0
           (mkAnimator (Demo.segment 0 1) (Num.of_Z 0) (Num.of_Z 1000) false
                       (mkEasing CubicEase EASINGMODE_EASEIN))).
  - vm_compute. reflexivity.
  - reflexivity.
Defined.

Lemma start_and_stop_keep_the_configuration_witness :
  (exists w' a',
      CameraAnimator.start 0 Demo.world0 = Some (tt, w') /\ vectors w' = vectors Demo.world0 /\
      animators w' !! 0 = Some a' /\ config a' = Demo.segment 0 1 /\ isAnimating a' = true) /\
  (exists w' a',
      CameraAnimator.stop 0 Demo.world0 = Some (tt, w') /\ vectors w' = vectors Demo.world0 /\
      animators w' !! 0 = Some a' /\ config a' = Demo.segment 0 1 /\ isAnimating a' = false).
Proof.
  apply (start_and_stop_keep_the_configuration Demo.world0 0
           (mkAnimator (Demo.segment 0 1) Num.zero Num.zero false
                       (mkEasing CubicEase EASINGMODE_EASEIN))).
  reflexivity.
Defined.

Lemma slerp_keeps_its_arguments_witness :
  exists r w',
    @AstroMath.slerp ReferencePlatform.platform 0 1 (Num.dec 5 1) Directions.opposite
    = Some (r, w') /\
    length (vectors Directions.opposite) <= r /\ valid w' r /\
    forall r0 v, vectors Directions.opposite !! r0 = Some v -> vectors w' !! r0 = Some v.
Proof.
  apply (@slerp_keeps_its_arguments ReferencePlatform.platform Directions.opposite 0 1).
  - unfold valid. simpl. lia.
  - unfold valid. simpl. lia.
Defined.

Lemma chain_update_returns_witness :
  exists out c' w',
    @CameraAnimationChain.update ReferencePlatform.platform Demo.chain0 Demo.world2
    = Some ((out, c'), w').
Proof.
  apply (@chain_update_returns ReferencePlatform.platform
           Demo.chain0 Demo.world0 Demo.chain0 Demo.world2 [Some (mkFrame 1 None)]).
  - discriminate.
  - exact demo_wf_chain.
  - exact demo_reachable.
Defined.

Lemma demo_started :
  @reachable ReferencePlatform.platform Demo.chain0 Demo.world0 Demo.chain0 Demo.world1 [].
Proof. apply reach_start. exact demo_start. Qed.

Lemma chain_update_while_running_witness :
  exists f w',
    @CameraAnimationChain.update ReferencePlatform.platform Demo.chain0 Demo.world1
    = Some ((Some f, Demo.chain0), w') /\
    @CameraAnimator.update ReferencePlatform.platform 0 Demo.world1 = Some (Some f, w').
Proof.
  apply (@chain_update_while_running ReferencePlatform.platform
           Demo.chain0 Demo.world0 Demo.chain0 Demo.world1 [] 0
           (mkAnimator (Demo.segment 0 1) (Num.of_Z 0) Num.zero true
                       (mkEasing CubicEase EASINGMODE_EASEIN))).
  - discriminate.
  - exact demo_wf_chain.
  - exact demo_started.
  - reflexivity.
  - reflexivity.
  - reflexivity.
Defined.

Lemma negative_duration_never_completes_witness :
  exists f w' a',
    (CameraAnimator.start 0;; @CameraAnimator.update ReferencePlatform.platform 0)
      (Orbit.world (Num.of_Z (-1000)) 500) = Some (Some f, w') /\
    animators w' !! 0 = Some a' /\
    isAnimating a' = true /\
    Num.ge (CameraAnimator.progress_of a') Num.one = false.
Proof.
  apply (@negative_duration_never_completes ReferencePlatform.platform
           (Orbit.world (Num.of_Z (-1000)) 500) 0 (Orbit.animator (Num.of_Z (-1000)))).
  - reflexivity.
  - apply orbit_wf.
  - vm_compute. reflexivity.
  - vm_compute. reflexivity.
Defined.

Lemma matrix_round_trip_is_exact_in_64_bits_witness :
  let t := Num.dec 1 1 in
  let m := WWTMatrix3d.mk t t t t t t t t t t t t t t t t in
  WWTCompat.babylonMatrixToWWT (@WWTCompat.wwtMatrixToBabylon ReferencePlatform.platform64 m) = m.
Proof.
  intros t m. apply (matrix_round_trip_is_exact_in_64_bits ReferencePlatform.platform64 m).
  reflexivity.
Defined.

(** ** The conversions at concrete points, on the reference platform *)


(** The midpoint of the two poles, (90, 0) and (-90, 0), is (0, 0), although
    their embeddings do not sum to the zero vector: the two cosines of a
    quarter turn, 6.1e-17 each, add up in the x component. *)
Theorem sphericalMidpoint_of_the_poles :
  result_of (@AstroMath.sphericalMidpoint ReferencePlatform.platform
               (Num.of_Z 90) (Num.of_Z 0) (Num.of_Z (-90)) (Num.of_Z 0))
            (Demo.empty_world Demo.clock)
  = Some (Vector2.mk Num.zero Num.zero) /\
  is_zero_vector (vector_sum (@embedding ReferencePlatform.platform (Num.of_Z 90) (Num.of_Z 0))
                             (@embedding ReferencePlatform.platform (Num.of_Z (-90)) (Num.of_Z 0)))
  = false.
Proof. vm_compute. split; reflexivity. Qed.

(** The largest angle that [Math.atan2] returns, the double [Math.PI], is
    180 degrees exactly: the longitude fold is not taken. *)
Theorem half_turn_is_not_folded :
  (Math_PI * MathConstants.RAD_TO_DEG)%num = Num.of_Z 180 /\
  AstroMath.normalizeLongitude (Math_PI * MathConstants.RAD_TO_DEG)%num = Num.of_Z 180.
Proof. vm_compute. split; reflexivity. Qed.

(** * The converters *)

(** ** Comparisons and products of doubles *)

Lemma mul_comm (a b : number) : (a * b)%num = (b * a)%num.
Proof.
  unfold Num.mul, SFmul.
  destruct a as [sa|sa| |sa ma ea], b as [sb|sb| |sb mb eb]; try reflexivity;
    try (rewrite (xorb_comm sa sb); reflexivity).
  rewrite (xorb_comm sa sb), (Pos.mul_comm ma mb), (Z.add_comm ea eb). reflexivity.
Qed.

Lemma compare_antisym (a b : number) :
  SFcompare b a = option_map CompOpp (SFcompare a b).
Proof.
  destruct a as [sa|sa| |sa ma ea], b as [sb|sb| |sb mb eb]; try reflexivity;
    try (destruct sa; reflexivity); try (destruct sb; reflexivity);
    try (destruct sa, sb; reflexivity).
  cbn [SFcompare option_map]. f_equal.
  change (PosDef.Pos.compare_cont Eq mb ma) with (Pos.compare mb ma).
  change (PosDef.Pos.compare_cont Eq ma mb) with (Pos.compare ma mb).
  rewrite (Z.compare_antisym ea eb), (Pos.compare_antisym ma mb).
  destruct sa, sb; try reflexivity;
    destruct (Z.compare ea eb); cbn [CompOpp]; try reflexivity.
Qed.

Lemma compare_refl (a : number) : Num.is_nan a = false -> SFcompare a a = Some Eq.
Proof.
  destruct a as [s|s| |s m e]; try discriminate; intros _; try (destruct s; reflexivity).
  cbn [SFcompare]. rewrite Z.compare_refl.
  change (PosDef.Pos.compare_cont Eq m m) with (Pos.compare m m).
  rewrite Pos.compare_refl. destruct s; reflexivity.
Qed.

Lemma le_refl (a : number) : Num.is_nan a = false -> Num.le a a = true.
Proof. intros n. unfold Num.le, SFleb. rewrite (compare_refl a n). reflexivity. Qed.

(** Of two numbers that compare, one is at most the other. *)
Lemma le_total (a b : number) :
  Num.is_nan a = false -> Num.is_nan b = false -> Num.lt a b = false -> Num.le b a = true.
Proof.
  unfold Num.lt, Num.le, SFltb, SFleb. intros na nb. rewrite (compare_antisym a b).
  destruct a as [sa|sa| |sa ma ea], b as [sb|sb| |sb mb eb]; try discriminate;
    destruct (SFcompare _ _) as [[ | | ]|] eqn:e; cbn; try congruence; try discriminate e.
Qed.

Lemma lt_le (a b : number) : Num.lt a b = true -> Num.le a b = true.
Proof.
  unfold Num.lt, Num.le, SFltb, SFleb. destruct (SFcompare a b) as [[ | | ]|]; congruence.
Qed.

Lemma strict_eq_le (a b : number) :
  Num.strict_eq a b = true -> Num.le a b = true /\ Num.le b a = true.
Proof.
  unfold Num.strict_eq, Num.le, SFeqb, SFleb. rewrite (compare_antisym a b).
  destruct (SFcompare a b) as [[ | | ]|]; cbn; intros; try discriminate; auto.
Qed.

Lemma min_spec (a b : number) :
  Num.is_nan a = false -> Num.is_nan b = false ->
  (Num.min a b = a \/ Num.min a b = b) /\
  Num.le (Num.min a b) a = true /\ Num.le (Num.min a b) b = true.
Proof.
  intros na nb. unfold Num.min. rewrite na, nb. cbn [orb].
  destruct (Num.strict_eq a b) eqn:e.
  - destruct (strict_eq_le a b e) as [l1 l2].
    destruct (Num.is_neg_zero a); (split; [auto|]); split; auto using le_refl.
  - destruct (Num.lt a b) eqn:l; (split; [auto|]); split;
      auto using le_refl, lt_le, le_total.
Qed.

Lemma max_spec (a b : number) :
  Num.is_nan a = false -> Num.is_nan b = false ->
  (Num.max a b = a \/ Num.max a b = b) /\
  Num.le a (Num.max a b) = true /\ Num.le b (Num.max a b) = true.
Proof.
  intros na nb. unfold Num.max. rewrite na, nb. cbn [orb].
  destruct (Num.strict_eq a b) eqn:e.
  - destruct (strict_eq_le a b e) as [l1 l2].
    destruct (Num.is_neg_zero a); (split; [auto|]); split; auto using le_refl.
  - destruct (Num.lt a b) eqn:l; (split; [auto|]); split;
      auto using le_refl, lt_le, le_total.
Qed.

Lemma min_nan (a b : number) :
  Num.is_nan (Num.min a b) = Num.is_nan a || Num.is_nan b.
Proof.
  destruct (Num.is_nan a) eqn:na; [unfold Num.min; rewrite na; reflexivity|].
  destruct (Num.is_nan b) eqn:nb; [unfold Num.min; rewrite na, nb; reflexivity|].
  destruct (min_spec a b na nb) as [[-> | ->] _]; cbn; assumption.
Qed.

Lemma max_nan (a b : number) :
  Num.is_nan (Num.max a b) = Num.is_nan a || Num.is_nan b.
Proof.
  destruct (Num.is_nan a) eqn:na; [unfold Num.max; rewrite na; reflexivity|].
  destruct (Num.is_nan b) eqn:nb; [unfold Num.max; rewrite na, nb; reflexivity|].
  destruct (max_spec a b na nb) as [[-> | ->] _]; cbn; assumption.
Qed.

Lemma strict_eq_finite s m e b :
  Num.strict_eq (S754_finite s m e) b = true -> b = S754_finite s m e.
Proof.
  unfold Num.strict_eq, SFeqb. intros eq.
  destruct b as [sb|sb| |sb mb eb]; cbn [SFcompare] in eq;
    try (destruct s; discriminate eq); try (destruct sb; discriminate eq);
    try discriminate eq.
  change (PosDef.Pos.compare_cont Eq m mb) with (Pos.compare m mb) in eq.
  destruct s, sb; try discriminate eq;
    destruct (Z.compare_spec e eb) as [->| | ]; try discriminate eq;
    destruct (Pos.compare_spec m mb) as [->| | ]; try discriminate eq; reflexivity.
Qed.

Section Clamp.
Context `{Platform}.

Lemma clamped_range (dot : number) :
nan_or_between (Num.neg (Num.of_Z 1)) (Num.of_Z 1) (clamped dot).
Proof.
unfold nan_or_between, clamped.
destruct (Num.is_nan dot) eqn:nd.
- left. rewrite max_nan, min_nan, nd. reflexivity.
- right. set (one := Num.of_Z 1). set (m := Num.min one dot).
  assert (n1 : Num.is_nan one = false) by reflexivity.
  assert (nm : Num.is_nan m = false) by (unfold m; rewrite min_nan, nd; reflexivity).
  destruct (min_spec one dot n1 nd) as (_ & m1 & _). fold m in m1.
  destruct (max_spec (Num.neg one) m eq_refl nm) as ([e | e] & l1 & l2).
  + split; [exact l1|]. rewrite e. reflexivity.
  + split; [exact l1|]. rewrite e. exact m1.
Qed.
End Clamp.

(** ** What the converters return and touch *)

Section Converters.
Context `{Platform}.

Lemma geoTo3D_at lat lng radius w :
  AstroMath.geoTo3D lat lng radius w
  = Some (length (vectors w),
          set_vectors (vectors w ++ [position_at lat lng (default Num.one radius)]) w).
Proof. reflexivity. Qed.

Lemma raDecTo3D_at ra dec radius w :
  AstroMath.raDecTo3D ra dec radius w
  = Some (length (vectors w),
          set_vectors (vectors w ++ [position_at dec (ra * Num.of_Z 15)%num
                                                 (default Num.one radius)]) w).
Proof. reflexivity. Qed.

Lemma greatCircleDistance_run lat1 lng1 lat2 lng2 w :
  AstroMath.greatCircleDistance lat1 lng1 lat2 lng2 w
  = Some (great_circle lat1 lng1 lat2 lng2,
          set_vectors (vectors w ++ [position_at lat1 lng1 Num.one;
                                     position_at lat2 lng2 Num.one]) w).
Proof.
  unfold AstroMath.greatCircleDistance. unfold bind at 1. rewrite geoTo3D_at.
  unfold bind at 1. rewrite geoTo3D_at. cbn [vectors set_vectors default].
  unfold bind at 1.
  rewrite (Dot_run _ (length (vectors w)) (length (vectors w ++ [position_at lat1 lng1 Num.one]))
             (position_at lat1 lng1 Num.one) (position_at lat2 lng2 Num.one)).
  - unfold ret, great_circle, clamped, dot_of, set_vectors. cbn [vectors animators clock ticks].
    rewrite <- app_assoc. reflexivity.
  - cbn [vectors set_vectors]. rewrite <- app_assoc. apply lookup_alloc_old.
  - cbn [vectors set_vectors]. apply lookup_alloc.
Qed.

Lemma dot_of_comm a b : dot_of a b = dot_of b a.
Proof.
  unfold dot_of.
  rewrite (mul_comm (Vector3Data.x a)), (mul_comm (Vector3Data.y a)),
    (mul_comm (Vector3Data.z a)).
  reflexivity.
Qed.

Lemma great_circle_comm lat1 lng1 lat2 lng2 :
  great_circle lat1 lng1 lat2 lng2 = great_circle lat2 lng2 lat1 lng1.
Proof. unfold great_circle. rewrite dot_of_comm. reflexivity. Qed.

Lemma le_lt_or_eq (a b : number) : Num.le a b = Num.lt a b || Num.strict_eq a b.
Proof.
  unfold Num.le, Num.lt, Num.strict_eq, SFleb, SFltb, SFeqb.
  destruct (SFcompare a b) as [[ | | ]|]; reflexivity.
Qed.

Lemma lt_not_ge (a b : number) : Num.lt a b = true -> Num.le b a = false.
Proof.
  unfold Num.le, Num.lt, SFleb, SFltb. rewrite (compare_antisym a b).
  destruct (SFcompare a b) as [[ | | ]|]; cbn; congruence.
Qed.

Lemma lt_not_eq (a b : number) : Num.lt a b = true -> Num.strict_eq a b = false.
Proof.
  unfold Num.lt, Num.strict_eq, SFltb, SFeqb.
  destruct (SFcompare a b) as [[ | | ]|]; congruence.
Qed.

Lemma le_not_nan (a b : number) : Num.le a b = true -> Num.is_nan b = false.
Proof. destruct a as [[]|[]| |[] ? ?], b as [[]|[]| |[] ? ?]; try reflexivity; discriminate. Qed.

(** The clamp leaves a number of [-1, 1] as it is. *)
Lemma clamped_inside (dot : number) :
  Num.le (Num.neg (Num.of_Z 1)) dot = true -> Num.le dot (Num.of_Z 1) = true ->
  clamped dot = dot.
Proof.
  intros lo hi. pose proof (le_not_nan _ _ lo) as nd.
  assert (m : Num.min (Num.of_Z 1) dot = dot).
  { unfold Num.min. rewrite nd. cbn [Num.is_nan orb].
    destruct (Num.strict_eq (Num.of_Z 1) dot) eqn:e; [reflexivity|].
    destruct (Num.lt (Num.of_Z 1) dot) eqn:l; [|reflexivity].
    rewrite (lt_not_ge _ _ l) in hi. discriminate hi. }
  unfold clamped. rewrite m. unfold Num.max. rewrite nd. cbn [Num.is_nan orb].
  destruct (Num.strict_eq (Num.neg (Num.of_Z 1)) dot) eqn:e.
  - symmetry. apply (strict_eq_finite _ _ _ _ e).
  - destruct (Num.lt (Num.neg (Num.of_Z 1)) dot) eqn:l; [reflexivity|].
    rewrite le_lt_or_eq, l, e in lo. discriminate lo.
Qed.

(** The clamp takes a number above 1 to 1 and a number below -1 to -1. *)
Lemma clamped_above (dot : number) :
  Num.gt dot (Num.of_Z 1) = true -> clamped dot = Num.of_Z 1.
Proof.
  intros l. change (Num.lt (Num.of_Z 1) dot = true) in l.
  assert (nd : Num.is_nan dot = false) by (destruct dot; [| |discriminate l|]; reflexivity).
  unfold clamped, Num.min. rewrite nd, (lt_not_eq _ _ l), l. reflexivity.
Qed.

Lemma clamped_below (dot : number) :
  Num.lt dot (Num.neg (Num.of_Z 1)) = true -> clamped dot = Num.neg (Num.of_Z 1).
Proof.
  intros l.
  assert (m : Num.min (Num.of_Z 1) dot = dot).
  { destruct dot as [[]|[]| |[] m e]; try discriminate l; reflexivity. }
  unfold clamped. rewrite m.
  assert (nd : Num.is_nan dot = false) by (destruct dot; [| |discriminate l|]; reflexivity).
  unfold Num.max. rewrite nd. cbn [Num.is_nan orb].
  assert (e : Num.strict_eq (Num.neg (Num.of_Z 1)) dot = false).
  { unfold Num.strict_eq, SFeqb. unfold Num.lt, SFltb in l.
    rewrite (compare_antisym dot). destruct (SFcompare dot _) as [[ | | ]|]; try discriminate l.
    reflexivity. }
  rewrite e.
  assert (g : Num.lt (Num.neg (Num.of_Z 1)) dot = false).
  { unfold Num.lt, SFltb in *.
    rewrite (compare_antisym dot). destruct (SFcompare dot _) as [[ | | ]|]; try discriminate l.
    reflexivity. }
  rewrite g. reflexivity.
Qed.

(** [greatCircleDistance] returns, in degrees, the arc cosine of the dot
    product of the two embeddings clamped to [-1, 1]: the number it hands
    to [Math.acos] is the dot product itself when this lies in [-1, 1], 1
    when it is greater, -1 when it is smaller and NaN when it is NaN; so it
    is NaN or lies in [-1, 1]. *)
Theorem greatCircleDistance_clamps lat1 lng1 lat2 lng2 w :
  let dot := dot_of (position_at lat1 lng1 Num.one) (position_at lat2 lng2 Num.one) in
  exists c w',
    AstroMath.greatCircleDistance lat1 lng1 lat2 lng2 w
    = Some ((Math_acos c * MathConstants.RAD_TO_DEG)%num, w') /\
    nan_or_between (Num.neg (Num.of_Z 1)) (Num.of_Z 1) c /\
    (Num.le (Num.neg (Num.of_Z 1)) dot = true -> Num.le dot (Num.of_Z 1) = true -> c = dot) /\
    (Num.gt dot (Num.of_Z 1) = true -> c = Num.of_Z 1) /\
    (Num.lt dot (Num.neg (Num.of_Z 1)) = true -> c = Num.neg (Num.of_Z 1)) /\
    (Num.is_nan dot = true -> Num.is_nan c = true).
Proof.
  intros dot. exists (clamped dot). eexists. rewrite greatCircleDistance_run.
  split; [reflexivity|]. split; [apply clamped_range|].
  split; [apply clamped_inside|]. split; [apply clamped_above|].
  split; [apply clamped_below|].
  intros nd. unfold clamped. rewrite max_nan, min_nan, nd. apply orb_true_r.
Qed.
End Converters.

Section ConverterFootprints.
Context `{Platform}.

Lemma frame_alloc_more w vs : frame everything w (set_vectors (vectors w ++ vs) w).
Proof.
  unfold frame, kept; simpl. repeat split; auto.
  - rewrite length_app. lia.
  - intros r u _ e. apply lookup_app_l_Some. exact e.
Qed.

Lemma cartesianToSpherical_run w vec v :
  vectors w !! vec = Some v ->
  exists r, AstroMath.cartesianToSpherical vec w = Some (r, w).
Proof.
  intros e. unfold AstroMath.cartesianToSpherical, bind.
  rewrite (length_run w vec v e).
  destruct (Num.strict_eq _ _); [eexists; reflexivity|].
  unfold get_Vector3. rewrite e. eexists. reflexivity.
Qed.

(** Every converter of AstroMath.ts other than [cartesianToAzAlt] returns
    and leaves every vector that existed before the call as it was; those
    that only read a vector leave the whole store as it was. *)
Theorem converters_keep_their_arguments w vec :
  valid w vec ->
  (exists r, AstroMath.cartesianToSpherical vec w = Some (r, w)) /\
  (exists r, AstroMath.cartesianToRaDec vec w = Some (r, w)) /\
  (exists r, AstroMath.projectToXY vec w = Some (r, w)) /\
  (exists r, AstroMath.projectToXZ vec w = Some (r, w)) /\
  (forall angleDeg, wp (AstroMath.rotateAroundY vec angleDeg) w (allocates w)) /\
  (forall lat lng radius, wp (AstroMath.geoTo3D lat lng radius) w (allocates w)) /\
  (forall ra dec radius, wp (AstroMath.raDecTo3D ra dec radius) w (allocates w)) /\
  (forall azimuth altitude, wp (AstroMath.azAltTo3D azimuth altitude) w (allocates w)) /\
  (forall lat1 lng1 lat2 lng2,
      wp (AstroMath.greatCircleDistance lat1 lng1 lat2 lng2) w
         (fun _ w' => frame (valid w) w w')) /\
  (forall lat1 lng1 lat2 lng2,
      wp (AstroMath.sphericalMidpoint lat1 lng1 lat2 lng2) w
         (fun _ w' => frame (valid w) w w')).
Proof.
  intros val. destruct (valid_lookup w vec val) as [v e].
  split; [exact (cartesianToSpherical_run w vec v e)|].
  split.
  { destruct (cartesianToSpherical_run w vec v e) as [r er].
    unfold AstroMath.cartesianToRaDec, bind. rewrite er. eexists. reflexivity. }
  split; [unfold AstroMath.projectToXY, bind, get_Vector3; rewrite e; eexists; reflexivity|].
  split; [unfold AstroMath.projectToXZ, bind, get_Vector3; rewrite e; eexists; reflexivity|].
  split.
  { intros a. unfold AstroMath.rotateAroundY, wp, bind, get_Vector3. rewrite e.
    apply allocates_alloc. }
  split; [intros; apply allocates_alloc|].
  split; [intros; apply allocates_alloc|].
  split; [intros; apply allocates_alloc|].
  split.
  - intros. unfold wp. rewrite greatCircleDistance_run.
    eapply frame_weaken; [|apply frame_alloc_more]. exact (fun _ _ => I).
  - intros lat1 lng1 lat2 lng2. unfold AstroMath.sphericalMidpoint.
    apply wp_bind. eapply wp_consequence; [apply wp_new_Vector3; apply allocates_alloc|].
    intros p1 w1 a1. pose proof a1 as (-> & v1 & f1).
    apply wp_bind. eapply wp_consequence; [apply wp_new_Vector3; apply allocates_alloc|].
    intros p2 w2 a2. pose proof a2 as (-> & v2 & f2).
    apply wp_bind. eapply wp_consequence;
      [apply add_spec; [eapply frame_valid; eassumption | exact v2]|].
    intros s w3 a3. pose proof a3 as (-> & v3 & f3).
    apply wp_bind. eapply wp_consequence; [apply scale_spec; exact v3|].
    intros h w4 a4. pose proof a4 as (-> & v4 & f4).
    apply wp_bind. eapply wp_consequence; [apply normalize_spec; exact v4|].
    intros n w5 (-> & v5 & f5).
    destruct (valid_lookup w5 _ v5) as [u eu].
    destruct (cartesianToSpherical_run w5 _ u eu) as [r er].
    unfold wp. rewrite er.
    pose proof (frame_length _ _ _ f1) as l1. pose proof (frame_length _ _ _ f2) as l2.
    pose proof (frame_length _ _ _ f3) as l3.
    assert (f04 : frame (valid w) w w4).
    { eapply frame_weaken; [intros ? _; exact I|].
      eapply frame_trans; [exact f1|]. eapply frame_trans; [exact f2|].
      eapply frame_trans; [exact f3|]. exact f4. }
    eapply frame_trans; [exact f04|].
    eapply frame_weaken; [|exact f5]. unfold valid, all_but. intros r0 lt. lia.
Qed.
End ConverterFootprints.

(** * The legacy bridge: copies, batches and the other round trip *)

Lemma wwtToBabylon_run v w :
  WWTCompat.wwtToBabylon v w
  = Some (length (vectors w), set_vectors (vectors w ++ [babylon_of v]) w).
Proof. reflexivity. Qed.

Lemma babylonToWWT_run r v w :
  vectors w !! r = Some (babylon_of v) -> WWTCompat.babylonToWWT r w = Some (v, w).
Proof.
  intros e. unfold WWTCompat.babylonToWWT, bind, get_Vector3. rewrite e.
  destruct v; reflexivity.
Qed.

Lemma batchWWTToBabylon_run vs w :
  WWTCompat.batchWWTToBabylon vs w
  = Some (seq (length (vectors w)) (length vs),
          set_vectors (vectors w ++ map babylon_of vs) w).
Proof.
  revert w. induction vs as [|v vs IH]; intros w.
  - cbn. rewrite app_nil_r, set_vectors_same. reflexivity.
  - change (WWTCompat.batchWWTToBabylon (v :: vs))
      with (let* r := WWTCompat.wwtToBabylon v in
            let* rs := WWTCompat.batchWWTToBabylon vs in ret (r :: rs)).
    unfold bind at 1. rewrite wwtToBabylon_run. unfold bind. rewrite IH.
    cbn [vectors set_vectors length seq map ret].
    rewrite length_app. cbn [length]. rewrite Nat.add_1_r.
    rewrite <- app_assoc. reflexivity.
Qed.

Lemma batchBabylonToWWT_run refs vs w :
  Forall2 (fun r v => vectors w !! r = Some (babylon_of v)) refs vs ->
  WWTCompat.batchBabylonToWWT refs w = Some (vs, w).
Proof.
  induction 1 as [|r v refs vs e _ IH].
  - reflexivity.
  - change (WWTCompat.batchBabylonToWWT (r :: refs))
      with (let* x := WWTCompat.babylonToWWT r in
            let* xs := WWTCompat.batchBabylonToWWT refs in ret (x :: xs)).
    unfold bind at 1. rewrite (babylonToWWT_run r v w e). unfold bind. rewrite IH.
    reflexivity.
Qed.

Lemma allocated_lookup (pre : list Vector3Data.t) vs :
  Forall2 (fun r v => (pre ++ map babylon_of vs) !! r = Some (babylon_of v))
          (seq (length pre) (length vs)) vs.
Proof.
  revert pre. induction vs as [|v vs IH]; intros pre; cbn [length seq map].
  - constructor.
  - constructor.
    + apply list_lookup_middle. reflexivity.
    + specialize (IH (pre ++ [babylon_of v])).
      rewrite length_app in IH. cbn [length] in IH. rewrite Nat.add_1_r in IH.
      rewrite <- app_assoc in IH. exact IH.
Qed.

(** [batchWWTToBabylon] builds one new [Vector3] for each legacy vector, in
    order, and changes no other; [batchBabylonToWWT] of what it returns gives
    back the legacy vectors exactly. *)
Theorem batch_round_trip vs w :
  exists refs w',
    WWTCompat.batchWWTToBabylon vs w = Some (refs, w') /\
    refs = seq (length (vectors w)) (length vs) /\
    vectors w' = vectors w ++ map babylon_of vs /\
    animators w' = animators w /\
    WWTCompat.batchBabylonToWWT refs w' = Some (vs, w').
Proof.
  do 2 eexists. split; [apply batchWWTToBabylon_run|].
  split; [reflexivity|]. split; [reflexivity|]. split; [reflexivity|].
  apply batchBabylonToWWT_run. cbn [vectors set_vectors]. apply allocated_lookup.
Qed.

(** [copyWWTToBabylon] overwrites the target [Vector3] and nothing else;
    reading the target back, by [babylonToWWT] or by [copyBabylonToWWT] into
    any legacy object, gives the legacy vector exactly. *)
Theorem copy_round_trip v old b w :
  valid w b ->
  exists w',
    WWTCompat.copyWWTToBabylon v b w = Some (tt, w') /\
    frame (all_but b) w w' /\
    vectors w' !! b = Some (babylon_of v) /\
    WWTCompat.babylonToWWT b w' = Some (v, w') /\
    WWTCompat.copyBabylonToWWT b old w' = Some (v, w').
Proof.
  intros val. destruct (valid_lookup w b val) as [u e].
  exists (set_vectors (<[b := babylon_of v]> (vectors w)) w).
  assert (e' : vectors (set_vectors (<[b := babylon_of v]> (vectors w)) w) !! b
               = Some (babylon_of v)).
  { cbn [vectors set_vectors]. apply list_lookup_insert_eq. exact val. }
  split.
  { unfold WWTCompat.copyWWTToBabylon, put_Vector3. rewrite e. reflexivity. }
  split; [apply frame_write|]. split; [exact e'|].
  split; [apply babylonToWWT_run; exact e'|].
  unfold WWTCompat.copyBabylonToWWT, bind, get_Vector3. rewrite e'.
  destruct v; reflexivity.
Qed.

Section BridgeMore.
Context `{Platform}.

(** A Babylon matrix whose sixteen entries are values of its storage comes
    back unchanged from [babylonMatrixToWWT] followed by
    [wwtMatrixToBabylon]. *)
Theorem matrix_round_trip_from_babylon M :
  length (Matrix.m M) = 16 ->
  Forall (fun a => Matrix.store a = a) (Matrix.m M) ->
  WWTCompat.wwtMatrixToBabylon (WWTCompat.babylonMatrixToWWT M) = M.
Proof.
  destruct M as [l]. cbn [Matrix.m]. intros len fixed.
  do 16 (destruct l as [|? l]; [discriminate len|]).
  destruct l; [|discriminate len].
  repeat match goal with
         | F : Forall _ (_ :: _) |- _ => inversion F; subst; clear F
         end.
  unfold WWTCompat.wwtMatrixToBabylon, WWTCompat.babylonMatrixToWWT, Matrix.FromValues,
    Matrix.get.
  cbn [Matrix.m lookup list_lookup default from_option id map
       WWTMatrix3d._m11 WWTMatrix3d._m12 WWTMatrix3d._m13 WWTMatrix3d._m14
       WWTMatrix3d._m21 WWTMatrix3d._m22 WWTMatrix3d._m23 WWTMatrix3d._m24
       WWTMatrix3d._m31 WWTMatrix3d._m32 WWTMatrix3d._m33 WWTMatrix3d._m34
       WWTMatrix3d._offsetX WWTMatrix3d._offsetY WWTMatrix3d._offsetZ WWTMatrix3d._m44].
  repeat match goal with E : Matrix.store _ = _ |- _ => rewrite E; clear E end.
  reflexivity.
Qed.
End BridgeMore.

(** * The animator: progress, footprint and life cycle *)

(** ** The sign of a rounded number *)

Section Signs.
Local Open Scope Z_scope.

Lemma shr_1_nonneg r : 0 <= shr_m r -> 0 <= shr_m (shr_1 r).
Proof. destruct r as [m rr ss]. destruct m as [|[p|p|]|p]; simpl; lia. Qed.

Lemma iter_shr_1_nonneg p r : 0 <= shr_m r -> 0 <= shr_m (SpecFloat.iter_pos shr_1 p r).
Proof.
  revert r. induction p as [p IH|p IH|]; intros r nn; simpl.
  - apply IH, IH, shr_1_nonneg, nn.
  - apply IH, IH, nn.
  - apply shr_1_nonneg, nn.
Qed.

Lemma shr_fexp_nonneg m e l : 0 <= m -> 0 <= shr_m (fst (shr_fexp prec emax m e l)).
Proof.
  intros nn. unfold shr_fexp, shr.
  assert (0 <= shr_m (shr_record_of_loc m l)) by (destruct l as [|[ | | ]]; exact nn).
  destruct (_ - e); cbn [fst]; auto using iter_shr_1_nonneg.
Qed.

Lemma round_nearest_even_nonneg m l : 0 <= m -> 0 <= round_nearest_even m l.
Proof. intros nn. destruct l as [|[ | | ]]; simpl; try destruct (Z.even m); lia. Qed.

Lemma round_aux_sign s m e l :
  0 <= m -> has_sign s (binary_round_aux prec emax s m e l).
Proof.
  intros nn. unfold binary_round_aux.
  pose proof (shr_fexp_nonneg m e l nn) as n1.
  destruct (shr_fexp prec emax m e l) as [mrs' e']. cbn [fst] in n1.
  pose proof (shr_fexp_nonneg _ e' loc_Exact
                (round_nearest_even_nonneg _ (loc_of_shr_record mrs') n1)) as n2.
  destruct (shr_fexp prec emax _ e' loc_Exact) as [mrs'' e'']. cbn [fst] in n2.
  destruct (shr_m mrs''); [reflexivity| |lia].
  destruct (e'' <=? emax - prec); reflexivity.
Qed.

Lemma div_core_nonneg m1 e1 m2 e2 :
  0 <= fst (fst (SFdiv_core_binary prec emax (Zpos m1) e1 (Zpos m2) e2)).
Proof.
  unfold SFdiv_core_binary.
  set (s := _ - _ - _).
  set (m' := match s with Zpos _ => Z.shiftl (Zpos m1) s | 0 => Zpos m1 | Zneg _ => 0 end).
  assert (0 <= m').
  { unfold m'. destruct s; try lia. apply Z.shiftl_nonneg. lia. }
  pose proof (Z.div_pos m' (Zpos m2) ltac:(assumption) ltac:(lia)) as q.
  unfold Z.div in q. destruct (Z.div_eucl m' (Zpos m2)) as [q0 r0]. exact q.
Qed.

(** The quotient of two numbers that are not NaN carries the product of
    their signs, unless it is 0/0 or infinity/infinity. *)
Lemma div_finite_sign sa ma ea sd md ed :
  has_sign (xorb sa sd) (S754_finite sa ma ea / S754_finite sd md ed)%num.
Proof.
  unfold Num.div, SFdiv.
  pose proof (div_core_nonneg ma ea md ed) as nn.
  destruct (SFdiv_core_binary _ _ _ _ _ _) as [[mz ez] lz]. cbn [fst] in nn.
  apply round_aux_sign. exact nn.
Qed.
End Signs.

Lemma min_one_at_most_one (a : number) : Num.gt (Num.min a Num.one) Num.one = false.
Proof.
  destruct (Num.is_nan a) eqn:na.
  - unfold Num.min. rewrite na. reflexivity.
  - destruct (min_spec a Num.one na eq_refl) as (_ & _ & l).
    unfold Num.gt, SFltb. unfold Num.le, SFleb in l.
    rewrite (compare_antisym (Num.min a Num.one) Num.one).
    destruct (SFcompare (Num.min a Num.one) Num.one) as [[ | | ]|]; try discriminate; reflexivity.
Qed.

Lemma nonneg_of_sign (a : number) : has_sign false a -> Num.ge a Num.zero = true.
Proof. destruct a as [s|s| |s m e]; cbn; intros; subst; try reflexivity; contradiction. Qed.

(** A quotient of a number that is not negative by a finite positive one is
    not negative. *)
Lemma div_nonneg (a d : number) :
  Num.ge a Num.zero = true -> positive_finite d = true ->
  Num.ge (a / d)%num Num.zero = true.
Proof.
  intros ge pos.
  destruct d as [sd|sd| |sd md ed]; try discriminate pos. destruct sd; [discriminate pos|].
  destruct a as [s|s| |s m e]; try destruct s; try discriminate ge; try reflexivity.
  apply nonneg_of_sign. apply (div_finite_sign false m e false md ed).
Qed.

Lemma min_one_nonneg (a : number) :
  Num.ge a Num.zero = true -> Num.ge (Num.min a Num.one) Num.zero = true.
Proof.
  intros ge. assert (na : Num.is_nan a = false) by (destruct a; [| | discriminate ge|]; reflexivity).
  destruct (min_spec a Num.one na eq_refl) as ([-> | ->] & _); [exact ge | reflexivity].
Qed.

Section AnimatorMore.
Context `{Platform}.

(** The [progress] getter never returns more than 1; it returns 1 for an
    animator that is not running, and a number from 0 to 1 for a running
    one whose duration is finite and positive and whose current time is not
    negative. *)
Theorem progress_is_at_most_one w this a :
  animators w !! this = Some a ->
  exists p,
    CameraAnimator.progress this w = Some (p, w) /\
    Num.gt p Num.one = false /\
    (isAnimating a = false -> p = Num.one) /\
    (Num.ge (currentTime a) Num.zero = true ->
     positive_finite (duration (config a)) = true ->
     Num.ge p Num.zero = true /\ Num.le p Num.one = true).
Proof.
  intros ea. unfold CameraAnimator.progress, bind, get_Animator. rewrite ea.
  destruct (isAnimating a); cbn [negb].
  - exists (CameraAnimator.progress_of a). split; [reflexivity|].
    split; [apply min_one_at_most_one|]. split; [discriminate|].
    intros ge pos. pose proof (div_nonneg _ _ ge pos) as q.
    split; [apply min_one_nonneg; exact q|].
    assert (nq : Num.is_nan (currentTime a / duration (config a))%num = false).
    { destruct (currentTime a / duration (config a))%num; [| |discriminate q|]; reflexivity. }
    apply (min_spec _ Num.one nq eq_refl).
  - exists Num.one. split; [reflexivity|]. split; [reflexivity|]. split; [reflexivity|].
    intros _ _. split; reflexivity.
Qed.

(** [update()] on a running animator returns a frame, keeps the
    configuration, and changes no vector that existed before the call
    other than the configured start and end positions and targets. *)
Theorem update_changes_only_the_configured_vectors w this a :
  animators w !! this = Some a -> isAnimating a = true ->
  wf_config w (config a) ->
  exists f w' a',
    CameraAnimator.update this w = Some (Some f, w') /\
    animators w' !! this = Some a' /\ config a' = config a /\
    forall r v,
      vectors w !! r = Some v ->
      r <> startPosition (config a) -> r <> endPosition (config a) ->
      startTarget (config a) <> Some r -> endTarget (config a) <> Some r ->
      vectors w' !! r = Some v.
Proof.
  intros ea run wf.
  destruct (wp_elim _ _ _ (update_running w this a ea run wf))
    as (res & w' & eU & _ & _ & ean & kp & post).
  assert (exists f, res = Some f) as [f ->].
  { destruct (Num.ge _ _); [eauto | destruct post as (p & t & -> & _); eauto]. }
  exists f, w'. eexists. split; [exact eU|]. split.
  - rewrite ean. apply list_lookup_insert_eq. eapply lookup_lt_Some; exact ea.
  - split; [reflexivity|]. intros r v e ns ne nst net. apply kp; [|exact e].
    split; [eapply lookup_valid; exact e|].
    unfold normalized_refs, target_refs.
    destruct (CameraAnimator.spherical (config a)); [|intros []].
    destruct (startTarget (config a)) as [st|]; [destruct (endTarget (config a)) as [et|]|];
      cbn [In]; intuition congruence.
Qed.

(** Once an [update()] has observed a progress of 1 or more, the animator
    is over: the next [update()] returns [null] and changes nothing, the
    [progress] getter returns 1 and [active] is false. *)
Theorem completed_animator_stays_idle w this a :
  animators w !! this = Some a -> isAnimating a = true ->
  wf_config w (config a) ->
  Num.ge (CameraAnimator.progress_of (clocked w a)) Num.one = true ->
  exists w',
    CameraAnimator.update this w = Some (Some (terminal_frame (config a)), w') /\
    CameraAnimator.update this w' = Some (None, w') /\
    CameraAnimator.progress this w' = Some (Num.one, w') /\
    CameraAnimator.active this w' = Some (false, w').
Proof.
  intros ea run wf done.
  destruct (wp_elim _ _ _ (update_running w this a ea run wf))
    as (res & w' & eU & post).
  unfold update_post in post. cbv zeta in post. rewrite done in post.
  destruct post as (_ & _ & ean & _ & ->).
  assert (ea' : animators w' !! this
                = Some (CameraAnimator.set_isAnimating false (clocked w a))).
  { rewrite ean. apply list_lookup_insert_eq. eapply lookup_lt_Some; exact ea. }
  exists w'. split; [exact eU|]. split; [|split].
  - apply (update_idle w' this _ ea'). reflexivity.
  - unfold CameraAnimator.progress, bind, get_Animator. rewrite ea'. reflexivity.
  - unfold CameraAnimator.active, bind, get_Animator. rewrite ea'. reflexivity.
Qed.
End AnimatorMore.

(** * The chain: empty chains, the cursor and the end *)

Section ChainMore.
Context `{Platform}.

(** An empty chain does nothing: [start()] changes nothing, [update()]
    returns [null] and [active] is false. *)
Theorem empty_chain_is_inert c w :
  animations c = [] ->
  CameraAnimationChain.start c w = Some (c, w) /\
  CameraAnimationChain.update c w = Some ((None, c), w) /\
  CameraAnimationChain.active c w = Some (false, w).
Proof.
  intros e. unfold CameraAnimationChain.start, CameraAnimationChain.update,
    CameraAnimationChain.active. rewrite e. cbn [length Nat.ltb Nat.leb].
  split; [reflexivity|]. split; [|reflexivity].
  rewrite update_rec_eq, e. reflexivity.
Qed.

(** A call of the chain's [update()] keeps the array of animators and
    leaves the cursor where it is or moves it forward by one; the cursor
    stays inside the array. *)
Theorem chain_cursor_moves_forward c0 w0 c w outs out c' w' :
  animations c0 <> [] -> wf_chain w0 c0 -> reachable c0 w0 c w outs ->
  CameraAnimationChain.update c w = Some ((out, c'), w') ->
  animations c' = animations c /\
  (currentIndex c' = currentIndex c \/ currentIndex c' = S (currentIndex c)) /\
  currentIndex c' < length (animations c').
Proof.
  intros ne wf r eU. pose proof (reachable_inv c0 w0 c w outs ne wf r) as inv.
  pose proof inv as (lt & _ & cur & a & ec & ea & _).
  destruct (isAnimating a) eqn:run.
  - destruct (chain_update_running c w outs cur a inv ec ea run) as (f & w1 & e1 & _).
    assert (c' = c) as -> by congruence. auto.
  - destruct (Nat.eq_dec (S (currentIndex c)) (length (animations c))) as [last|nl].
    + destruct (chain_update_idle_last c w outs cur a inv ec ea run last) as (e1 & _).
      assert (c' = c) as -> by congruence. auto.
    + destruct (chain_update_idle_next c w outs cur a inv ec ea run)
        as (n & f & w1 & _ & e1 & _); [lia|].
      assert (c' = CameraAnimationChain.set_currentIndex (S (currentIndex c)) c) as ->
          by congruence.
      cbn. split; [reflexivity|]. split; [auto | lia].
Qed.

(** Once the chain's [update()] has returned [null], the chain is over:
    that call changed nothing, so every later [update()] returns [null]
    too, and [active] is false. *)
Theorem finished_chain_stays_finished c0 w0 c w outs c' w' :
  animations c0 <> [] -> wf_chain w0 c0 -> reachable c0 w0 c w outs ->
  CameraAnimationChain.update c w = Some ((None, c'), w') ->
  c' = c /\ w' = w /\
  CameraAnimationChain.update c' w' = Some ((None, c'), w') /\
  CameraAnimationChain.active c' w' = Some (false, w').
Proof.
  intros ne wf r eU. pose proof (reachable_inv c0 w0 c w outs ne wf r) as inv.
  pose proof inv as (lt & _ & cur & a & ec & ea & _).
  destruct (isAnimating a) eqn:run.
  - destruct (chain_update_running c w outs cur a inv ec ea run) as (f & w1 & e1 & _).
    congruence.
  - destruct (Nat.eq_dec (S (currentIndex c)) (length (animations c))) as [last|nl].
    + destruct (chain_update_idle_last c w outs cur a inv ec ea run last) as (e1 & _).
      assert (c' = c) as -> by congruence. assert (w' = w) as -> by congruence.
      split; [reflexivity|]. split; [reflexivity|]. split; [exact e1|].
      unfold CameraAnimationChain.active.
      destruct (Nat.ltb_spec (currentIndex c) (length (animations c))) as [_|ge]; [|lia].
      unfold bind, CameraAnimationChain.animation_at, CameraAnimator.active, bind, get_Animator.
      rewrite ec, ea, run. reflexivity.
    + destruct (chain_update_idle_next c w outs cur a inv ec ea run)
        as (n & f & w1 & _ & e1 & _); [lia|]. cbv zeta in e1. congruence.
Qed.
End ChainMore.

(** * The star field example *)

Section StarFieldFacts.
Context `{Platform}.

Lemma mapM_alloc {A} (f : A -> JS ref) (g : A -> Vector3Data.t) l w :
  (forall a w, f a w = Some (length (vectors w), set_vectors (vectors w ++ [g a]) w)) ->
  mapM f l w = Some (seq (length (vectors w)) (length l),
                     set_vectors (vectors w ++ map g l) w).
Proof.
  intros run. revert w. induction l as [|a l IH]; intros w.
  - cbn. rewrite app_nil_r, set_vectors_same. reflexivity.
  - cbn [mapM]. unfold bind at 1. rewrite run. unfold bind. rewrite IH.
    cbn [vectors set_vectors length seq map ret].
    rewrite length_app. cbn [length]. rewrite Nat.add_1_r.
    rewrite <- app_assoc. reflexivity.
Qed.

(** [generateStarPositions] builds one new vector for each star, in the
    order of the catalogue, each with the contents that [raDecTo3D] gives
    it, and changes nothing else. *)
Theorem generateStarPositions_builds_one_vector_per_star stars radius w :
  exists positions w',
    StarfieldExample.generateStarPositions stars radius w = Some (positions, w') /\
    positions = seq (length (vectors w)) (length stars) /\
    vectors w' = vectors w
                 ++ map (star_position (default (Num.of_Z 100) radius)) stars /\
    animators w' = animators w.
Proof.
  do 2 eexists. split.
  - unfold StarfieldExample.generateStarPositions.
    apply (mapM_alloc _ (star_position (default (Num.of_Z 100) radius))).
    intros a w0. reflexivity.
  - auto.
Qed.

Lemma findStarsInFOV_from w stars centerRa centerDec fov wk :
  frame (valid w) w wk -> Forall (valid w) stars ->
  exists w',
    StarfieldExample.findStarsInFOV stars centerRa centerDec fov wk
    = Some (List.filter (star_in_field w centerRa centerDec fov) stars, w') /\
    frame (valid w) w w'.
Proof.
  intros f val. revert wk f. induction val as [|star stars v _ IH]; intros wk f.
  - exists wk. split; [reflexivity | exact f].
  - destruct (valid_lookup w star v) as [s es].
    assert (ek : vectors wk !! star = Some s) by (apply f; assumption).
    set (wk' := set_vectors (vectors wk ++ distance_vectors centerDec centerRa
                                            (Vector3Data.y s) (Vector3Data.x s)) wk).
    assert (f' : frame (valid w) w wk').
    { eapply frame_trans; [exact f|].
      eapply frame_weaken; [|apply frame_alloc_more]. exact (fun _ _ => I). }
    destruct (IH wk' f') as (w' & run & fw).
    exists w'. split; [|exact fw].
    unfold StarfieldExample.findStarsInFOV in *. cbn [filterM].
    unfold bind at 1. unfold bind at 1. unfold get_Vector3 at 1. rewrite ek.
    unfold bind at 1. rewrite greatCircleDistance_run.
    unfold distance_vectors in wk'. fold wk'.
    unfold ret at 1. cbv beta iota. unfold bind at 1. rewrite run.
    cbn [List.filter].
    assert (star_in_field w centerRa centerDec fov star
            = in_field centerRa centerDec fov s) as ->
        by (unfold star_in_field; rewrite es; reflexivity).
    reflexivity.
Qed.

(** [findStarsInFOV] returns, in their order, the stars whose great-circle
    distance from the centre, computed from their [y] and [x] components,
    is at most half the field of view; no vector that existed before the
    call changes. *)
Theorem findStarsInFOV_filters stars centerRa centerDec fov w :
  Forall (valid w) stars ->
  exists w',
    StarfieldExample.findStarsInFOV stars centerRa centerDec fov w
    = Some (List.filter (star_in_field w centerRa centerDec fov) stars, w') /\
    frame (valid w) w w'.
Proof. intros val. apply findStarsInFOV_from; [apply frame_refl | exact val]. Qed.

Lemma starAngularSeparation_run a b w :
  StarfieldExample.starAngularSeparation a b w
  = Some (separation a b,
          set_vectors (vectors w ++ distance_vectors
                         (Star.dec a) (Star.ra a * Num.of_Z 15)%num
                         (Star.dec b) (Star.ra b * Num.of_Z 15)%num) w).
Proof. unfold StarfieldExample.starAngularSeparation. apply greatCircleDistance_run. Qed.

Lemma pairs_with_run w star later maxSep wk :
  frame (valid w) w wk ->
  exists w',
    StarfieldExample.pairs_with star later maxSep wk = Some (pairs_of star later maxSep, w') /\
    frame (valid w) w w'.
Proof.
  revert wk. induction later as [|other later IH]; intros wk f.
  - exists wk. split; [reflexivity | exact f].
  - cbn [StarfieldExample.pairs_with pairs_of].
    unfold bind at 1. rewrite starAngularSeparation_run.
    match goal with |- context [set_vectors ?l wk] => set (wk' := set_vectors l wk) end.
    assert (f' : frame (valid w) w wk').
    { eapply frame_trans; [exact f|].
      eapply frame_weaken; [|apply frame_alloc_more]. exact (fun _ _ => I). }
    destruct (IH wk' f') as (w' & run & fw).
    exists w'. split; [|exact fw]. unfold bind. rewrite run. reflexivity.
Qed.

Lemma findClosePairs_run w stars maxSep wk :
  frame (valid w) w wk ->
  exists w',
    StarfieldExample.findClosePairs stars maxSep wk = Some (close_pairs stars maxSep, w') /\
    frame (valid w) w w'.
Proof.
  revert wk. induction stars as [|star later IH]; intros wk f.
  - exists wk. split; [reflexivity | exact f].
  - cbn [StarfieldExample.findClosePairs close_pairs].
    destruct (pairs_with_run w star later maxSep wk f) as (w1 & r1 & f1).
    destruct (IH w1 f1) as (w' & run & fw).
    exists w'. split; [|exact fw]. unfold bind. rewrite r1, run. reflexivity.
Qed.

Lemma in_pairs_of star later maxSep a b sep :
  In (a, b, sep) (pairs_of star later maxSep) <->
  a = star /\ sep = separation star b /\ Num.le sep maxSep = true /\
  exists j, later !! j = Some b.
Proof.
  induction later as [|other later IH]; cbn [pairs_of].
  - split; [intros [] | intros (_ & _ & _ & j & e); discriminate e].
  - destruct (Num.le (separation star other) maxSep) eqn:le; cbn [In]; rewrite ?IH; split.
    + intros [[= <- <- <-] | (-> & -> & l & j & e)].
      * split; [reflexivity|]. split; [reflexivity|]. split; [exact le|].
        exists 0. reflexivity.
      * split; [reflexivity|]. split; [reflexivity|]. split; [exact l|].
        exists (S j). exact e.
    + intros (-> & -> & l & [|j] & e).
      * cbn in e. injection e as ->. left. reflexivity.
      * right. split; [reflexivity|]. split; [reflexivity|]. split; [exact l|].
        exists j. exact e.
    + intros (-> & -> & l & j & e). split; [reflexivity|]. split; [reflexivity|].
      split; [exact l|]. exists (S j). exact e.
    + intros (-> & -> & l & [|j] & e).
      * cbn in e. injection e as ->. congruence.
      * split; [reflexivity|]. split; [reflexivity|]. split; [exact l|].
        exists j. exact e.
Qed.

Lemma in_close_pairs stars maxSep a b sep :
  In (a, b, sep) (close_pairs stars maxSep) <->
  sep = separation a b /\ Num.le sep maxSep = true /\
  exists i j, i < j /\ stars !! i = Some a /\ stars !! j = Some b.
Proof.
  induction stars as [|star later IH]; cbn [close_pairs].
  - split; [intros [] | intros (_ & _ & i & j & _ & e & _); discriminate e].
  - rewrite in_app_iff, in_pairs_of, IH. split.
    + intros [(-> & -> & l & j & e) | (-> & l & i & j & lt & ei & ej)].
      * split; [reflexivity|]. split; [exact l|]. exists 0, (S j).
        split; [lia|]. split; [reflexivity | exact e].
      * split; [reflexivity|]. split; [exact l|]. exists (S i), (S j).
        split; [lia|]. split; assumption.
    + intros (-> & l & [|i] & j & lt & ei & ej).
      * left. cbn in ei. injection ei as ->. destruct j as [|j]; [lia|].
        split; [reflexivity|]. split; [reflexivity|]. split; [exact l|].
        exists j. exact ej.
      * right. destruct j as [|j]; [lia|].
        split; [reflexivity|]. split; [exact l|]. exists i, j.
        split; [lia|]. split; assumption.
Qed.

(** [findClosePairs] returns exactly the triples made of a star, a star
    after it in the catalogue, and their angular separation when this is at
    most the bound; no vector that existed before the call changes. A
    catalogue of fewer than two stars has no pair. *)
Theorem findClosePairs_returns_the_close_pairs stars maxSep w :
  exists pairs w',
    StarfieldExample.findClosePairs stars maxSep w = Some (pairs, w') /\
    frame (valid w) w w' /\
    (forall a b sep,
        In (a, b, sep) pairs <->
        sep = separation a b /\ Num.le sep maxSep = true /\
        exists i j, i < j /\ stars !! i = Some a /\ stars !! j = Some b) /\
    (length stars < 2 -> pairs = []).
Proof.
  destruct (findClosePairs_run w stars maxSep w (frame_refl _ _)) as (w' & run & f).
  exists (close_pairs stars maxSep), w'. split; [exact run|]. split; [exact f|].
  split; [intros; apply in_close_pairs|].
  intros short. destruct stars as [|s [|s' stars]]; cbn in short; try lia; reflexivity.
Qed.

(** The separation of two stars does not depend on their order. *)
Theorem starAngularSeparation_is_symmetric a b w :
  exists d w1 w2,
    StarfieldExample.starAngularSeparation a b w = Some (d, w1) /\
    StarfieldExample.starAngularSeparation b a w = Some (d, w2).
Proof.
  do 3 eexists. rewrite !starAngularSeparation_run. unfold separation.
  rewrite (great_circle_comm (Star.dec b)). split; reflexivity.
Qed.
End StarFieldFacts.

(** ** [magnitudeToSize] *)

Section Magnitudes.
Variable Math_pow : number -> number -> number.

(** The size saturates: every magnitude of 6 or more has the size of
    magnitude 6, and every magnitude of -1.5 or less has the size of
    magnitude -1.5. *)
Theorem magnitudeToSize_saturates magnitude :
  (Num.ge magnitude (Num.of_Z 6) = true ->
   StarfieldExample.magnitudeToSize Math_pow magnitude
   = StarfieldExample.magnitudeToSize Math_pow (Num.of_Z 6)) /\
  (Num.le magnitude (Num.neg (Num.dec 15 1)) = true ->
   StarfieldExample.magnitudeToSize Math_pow magnitude
   = StarfieldExample.magnitudeToSize Math_pow (Num.neg (Num.dec 15 1))).
Proof.
  unfold StarfieldExample.magnitudeToSize. split.
  - intros ge.
    assert (e : Num.min (Num.of_Z 6) magnitude = Num.of_Z 6).
    { assert (nm : Num.is_nan magnitude = false)
        by (destruct magnitude; [| |discriminate ge|]; reflexivity).
      unfold Num.min. rewrite nm. cbn [Num.is_nan orb].
      destruct (Num.strict_eq (Num.of_Z 6) magnitude) eqn:eq.
      - apply strict_eq_finite in eq. rewrite eq. reflexivity.
      - destruct (Num.lt (Num.of_Z 6) magnitude) eqn:lt; [reflexivity|].
        exfalso. unfold Num.ge, SFleb in ge. unfold Num.lt, SFltb in lt.
        unfold Num.strict_eq, SFeqb in eq.
        destruct (SFcompare (Num.of_Z 6) magnitude) as [[ | | ]|]; discriminate. }
    rewrite e. reflexivity.
  - intros le.
    set (low := Num.neg (Num.dec 15 1)) in *.
    assert (e : Num.min (Num.of_Z 6) magnitude = magnitude).
    { destruct magnitude as [s|s| |s m e]; try destruct s; try discriminate le; reflexivity. }
    rewrite e.
    assert (e' : Num.max low magnitude = low).
    { assert (nm : Num.is_nan magnitude = false)
        by (destruct magnitude; [| |discriminate le|]; reflexivity).
      unfold Num.max. rewrite nm. cbn [Num.is_nan orb].
      change (Num.is_nan low) with false. cbn [orb].
      destruct (Num.strict_eq low magnitude) eqn:eq; [reflexivity|].
      destruct (Num.lt low magnitude) eqn:lt; [|reflexivity].
      exfalso. unfold Num.le, SFleb in le. unfold Num.lt, SFltb in lt.
      rewrite (compare_antisym low magnitude) in le.
      destruct (SFcompare low magnitude) as [[ | | ]|]; discriminate. }
    rewrite e'. reflexivity.
Qed.
End Magnitudes.

(** ** [CelestialCameraAnimator] *)

Section Celestial.
Context `{Platform}.
Import CelestialCameraAnimatorData.

Lemma celestial_update_idle this w :
  isAnimating this = false ->
  CelestialCameraAnimator.update this w = Some ((None, this), w).
Proof. intros idle. unfold CelestialCameraAnimator.update. rewrite idle. reflexivity. Qed.

Lemma celestial_update_running this w :
  isAnimating this = true ->
  CelestialCameraAnimator.update this w
  = (let t := Num.min ((clock w (ticks w) - startTime this) / duration this)%num Num.one in
     if Num.ge t Num.one then
       ret (Some (endPos this),
            mk (startPos this) (endPos this) (duration this) (startTime this) false)
     else
       let* r := AstroMath.slerp (startPos this) (endPos this) t in
       ret (Some r, this)) (set_ticks (S (ticks w)) w).
Proof.
  intros run. unfold CelestialCameraAnimator.update. rewrite run. cbn [negb].
  unfold bind at 1. unfold Date_now at 1. cbv beta iota zeta.
  destruct (Num.ge _ _); reflexivity.
Qed.

(** [update()] of a [CelestialCameraAnimator] never writes to its two
    positions, nor to any other vector: when idle it returns [null] and
    changes nothing; when the time is up it stops and returns the end
    position object, and the next call returns [null]; before that it
    returns a vector made by [slerp]. *)
Theorem celestial_update_keeps_every_vector this w :
  valid w (startPos this) -> valid w (endPos this) ->
  exists res this' w',
    CelestialCameraAnimator.update this w = Some ((res, this'), w') /\
    (forall r v, vectors w !! r = Some v -> vectors w' !! r = Some v) /\
    startPos this' = startPos this /\ endPos this' = endPos this /\
    duration this' = duration this /\
    (isAnimating this = false -> res = None /\ this' = this /\ w' = w) /\
    (isAnimating this = true ->
     let t := Num.min ((clock w (ticks w) - startTime this) / duration this)%num Num.one in
     if Num.ge t Num.one
     then res = Some (endPos this) /\ isAnimating this' = false /\
          CelestialCameraAnimator.update this' w' = Some ((None, this'), w')
     else exists r, res = Some r /\ length (vectors w) <= r /\ valid w' r /\ this' = this).
Proof.
  intros vs ve. destruct (isAnimating this) eqn:run.
  - rewrite (celestial_update_running this w run). cbv zeta.
    set (w1 := set_ticks (S (ticks w)) w).
    destruct (Num.ge _ Num.one) eqn:done.
    + do 3 eexists. split; [reflexivity|]. split; [intros r v e; exact e|].
      split; [reflexivity|]. split; [reflexivity|]. split; [reflexivity|].
      split; [discriminate|]. intros _.
      split; [reflexivity|]. split; [reflexivity|].
      apply celestial_update_idle. reflexivity.
    + assert (vs1 : valid w1 (startPos this)) by exact vs.
      assert (ve1 : valid w1 (endPos this)) by exact ve.
      match goal with |- context [AstroMath.slerp _ _ ?t] =>
        destruct (wp_elim _ _ _ (slerp_spec w1 (startPos this) (endPos this) t vs1 ve1))
          as (r & w' & e & (_ & _ & _ & _ & kp) & vr & fr)
      end.
      exists (Some r), this, w'. split; [unfold bind; rewrite e; reflexivity|].
      split.
      { intros r0 v e0. apply kp; [eapply lookup_valid|]; exact e0. }
      split; [reflexivity|]. split; [reflexivity|]. split; [reflexivity|].
      split; [discriminate|]. intros _.
      exists r. auto.
  - exists None, this, w. split; [apply celestial_update_idle; exact run|].
    split; [auto|].
    split; [reflexivity|]. split; [reflexivity|]. split; [reflexivity|].
    split; [auto | discriminate].
Qed.
End Celestial.

(** * Rounding: the result is a number of the format *)

Section Canonical.
Local Open Scope Z_scope.
Variables p em : Z.
Hypothesis p_pos : 0 < p.

Lemma shr_1_div2 r : 0 <= shr_m r -> shr_m (shr_1 r) = Z.div2 (shr_m r).
Proof. destruct r as [m rr ss]. destruct m as [|[q|q|]|q]; simpl; try reflexivity; lia. Qed.

Lemma iter_shr_m r n :
  0 <= shr_m r -> shr_m (Pos.iter shr_1 r n) = shr_m r / 2 ^ Zpos n.
Proof.
  intros nn. induction n as [|n IH] using Pos.peano_ind.
  - simpl Pos.iter. rewrite shr_1_div2 by exact nn. rewrite Z.div2_div. reflexivity.
  - rewrite Pos.iter_succ.
    assert (0 <= shr_m (Pos.iter shr_1 r n)).
    { rewrite IH. apply Z.div_pos; [exact nn|]. apply Z.pow_pos_nonneg; lia. }
    rewrite shr_1_div2 by assumption. rewrite IH, Z.div2_div.
    rewrite Z.div_div by (try apply Z.pow_pos_nonneg; lia).
    rewrite Pos2Z.inj_succ, Z.pow_succ_r by lia.
    f_equal. ring.
Qed.

Lemma Zdigits2_bounds m : 0 < m -> 2 ^ (Zdigits2 m - 1) <= m < 2 ^ Zdigits2 m.
Proof. destruct m as [|q|q]; try lia. intros _. apply digits2_pos_bounds. Qed.

Lemma Zdigits2_pos m : 0 < m -> 0 < Zdigits2 m.
Proof. destruct m; simpl; lia. Qed.

Lemma Zdigits2_unique m d : 0 < d -> 2 ^ (d - 1) <= m < 2 ^ d -> Zdigits2 m = d.
Proof.
  intros dp [lo hi].
  assert (mp : 0 < m).
  { assert (0 < 2 ^ (d - 1)) by (apply Z.pow_pos_nonneg; lia). lia. }
  destruct m as [|q|q]; try lia. simpl.
  pose proof (digits2_pos_le q d dp hi).
  pose proof (digits2_pos_ge q (d - 1) ltac:(lia) lo). lia.
Qed.

(** The digits of a quotient by a power of two. *)
Lemma Zdigits2_shr m n :
  0 < m -> 0 <= n ->
  (n < Zdigits2 m /\ 0 < m / 2 ^ n /\ Zdigits2 (m / 2 ^ n) = Zdigits2 m - n) \/
  (Zdigits2 m <= n /\ m / 2 ^ n = 0).
Proof.
  intros mp nn. destruct (Zdigits2_bounds m mp) as [lo hi].
  pose proof (Zdigits2_pos m mp) as dp. set (d := Zdigits2 m) in *.
  assert (pn : 0 < 2 ^ n) by (apply Z.pow_pos_nonneg; lia).
  destruct (Z_lt_le_dec n d) as [lt|ge].
  - left. split; [exact lt|].
    assert (lo' : 2 ^ (d - n - 1) <= m / 2 ^ n).
    { apply Z.div_le_lower_bound; [exact pn|].
      rewrite <- Z.pow_add_r by lia. replace (n + (d - n - 1)) with (d - 1) by lia. exact lo. }
    assert (hi' : m / 2 ^ n < 2 ^ (d - n)).
    { apply Z.div_lt_upper_bound; [exact pn|].
      rewrite <- Z.pow_add_r by lia. replace (n + (d - n)) with d by lia. exact hi. }
    assert (0 < 2 ^ (d - n - 1)) by (apply Z.pow_pos_nonneg; lia).
    split; [lia|]. apply Zdigits2_unique; [lia|]. split; assumption.
  - right. split; [exact ge|]. apply Z.div_small. split; [lia|].
    assert (2 ^ d <= 2 ^ n) by (apply Z.pow_le_mono_r; lia). lia.
Qed.

(** The digits of a successor. *)
Lemma Zdigits2_succ m :
  0 < m ->
  Zdigits2 (m + 1) = Zdigits2 m \/
  (m + 1 = 2 ^ Zdigits2 m /\ Zdigits2 (m + 1) = Zdigits2 m + 1).
Proof.
  intros mp. destruct (Zdigits2_bounds m mp) as [lo hi].
  pose proof (Zdigits2_pos m mp) as dp. set (d := Zdigits2 m) in *.
  destruct (Z.eq_dec (m + 1) (2 ^ d)) as [e|ne].
  - right. split; [exact e|]. apply Zdigits2_unique; [lia|].
    replace (d + 1 - 1) with d by lia. rewrite e. split; [lia|].
    apply Z.pow_lt_mono_r; lia.
  - left. apply Zdigits2_unique; [lia|]. split; lia.
Qed.

Lemma round_nearest_even_cases m l :
  round_nearest_even m l = m \/ round_nearest_even m l = m + 1.
Proof. destruct l as [|[ | | ]]; simpl; try destruct (Z.even m); auto. Qed.

(** What [shr_fexp] does to a mantissa that is not negative. *)
Lemma shr_fexp_spec m e l :
  0 <= m -> e <= fexp p em (Zdigits2 m + e) ->
  shr_m (fst (shr_fexp p em m e l)) = m / 2 ^ (fexp p em (Zdigits2 m + e) - e) /\
  snd (shr_fexp p em m e l) = fexp p em (Zdigits2 m + e).
Proof.
  intros nn le. unfold shr_fexp, shr.
  set (n := fexp p em (Zdigits2 m + e) - e).
  assert (sm : shr_m (shr_record_of_loc m l) = m) by (destruct l as [|[ | | ]]; reflexivity).
  destruct n as [|q|q] eqn:en; cbn [fst snd].
  - rewrite sm, Z.pow_0_r, Z.div_1_r. split; [reflexivity | lia].
  - rewrite iter_pos_eq, iter_shr_m by (rewrite sm; exact nn). rewrite sm.
    split; [reflexivity | lia].
  - lia.
Qed.

Lemma fexp_ge_emin e : emin p em <= fexp p em e.
Proof. unfold fexp. lia. Qed.

(** A mantissa whose exponent is the one of the format, after the second
    alignment of [binary_round_aux]. *)
Lemma second_shr_canonical m f :
  0 < m -> fexp p em (Zdigits2 m + f) = f ->
  shr_fexp p em m f loc_Exact = (Build_shr_record m false false, f).
Proof.
  intros mp c. unfold shr_fexp, shr. rewrite c, Z.sub_diag. reflexivity.
Qed.

(** [binary_round_aux] returns a number of the format when the exponent it
    is given is not above the one of the format. *)
Lemma round_aux_valid s m e l :
  0 < m -> e <= fexp p em (Zdigits2 m + e) ->
  valid_binary p em (binary_round_aux p em s m e l) = true.
Proof.
  intros mp le. unfold binary_round_aux.
  destruct (shr_fexp_spec m e l ltac:(lia) le) as [sm1 se1].
  destruct (shr_fexp p em m e l) as [mrs' e']. cbn [fst snd] in sm1, se1.
  set (d := Zdigits2 m) in *. set (f := fexp p em (d + e)) in *.
  set (n1 := f - e) in *.
  set (m' := shr_m mrs') in *.
  set (m1 := round_nearest_even m' (loc_of_shr_record mrs')).
  subst e'.
  pose proof (fexp_ge_emin (d + e)) as fmin. fold f in fmin.
  (* the mantissa after the first alignment *)
  assert (A : (m' = 0 /\ f = emin p em) \/
              (0 < m' /\ Zdigits2 m' <= p /\ fexp p em (Zdigits2 m' + f) = f)).
  { destruct (Zdigits2_shr m n1 mp ltac:(lia)) as [(lt & qp & dq) | (ge & q0)].
    - right. rewrite <- sm1 in qp, dq. fold m' in qp, dq.
      split; [exact qp|]. rewrite dq. fold d.
      replace (d - n1 + f) with (d + e) by (unfold n1; lia). fold f.
      split; [|reflexivity]. unfold f, fexp in *. lia.
    - left. split; [rewrite sm1; exact q0|].
      fold d in ge. unfold f, fexp in *. lia. }
  (* the mantissa after rounding *)
  assert (B : m1 = 0 \/
              (0 < m1 /\ fexp p em (Zdigits2 m1 + f) = f) \/
              (m1 = 2 ^ p /\ fexp p em (p + 1 + f) = f + 1)).
  { destruct (round_nearest_even_cases m' (loc_of_shr_record mrs')) as [r|r]; fold m1 in r.
    - destruct A as [(z & _) | (mp' & _ & c)];
        [left; rewrite r; exact z | right; left; rewrite r; auto].
    - destruct A as [(z & fe) | (mp' & dp & c)].
      + right. left. rewrite r, z. change (Zdigits2 (0 + 1)) with 1. split; [lia|].
        unfold fexp, emin in *. lia.
      + destruct (Zdigits2_succ m' mp') as [same | (pw & more)].
        * right. left. rewrite r. split; [lia|]. rewrite same. exact c.
        * destruct (Z.eq_dec (Zdigits2 m') p) as [full|part].
          -- right. right. rewrite r, pw, full. split; [reflexivity|].
             unfold fexp, emin in *. lia.
          -- right. left. rewrite r. split; [lia|]. rewrite more.
             unfold fexp, emin in *. lia. }
  destruct B as [z | [(mp1 & c) | (pw & c)]].
  - (* zero *)
    rewrite z. unfold shr_fexp, shr. cbn [Zdigits2 shr_record_of_loc].
    destruct (fexp p em (0 + f) - f) eqn:en; cbn [shr_m]; try reflexivity.
    exfalso. unfold fexp in *. lia.
  - rewrite (second_shr_canonical m1 f mp1 c). cbn [shr_m].
    destruct m1 as [|q|q]; try lia.
    destruct (f <=? em - p) eqn:b; [|reflexivity].
    cbn [valid_binary]. unfold bounded, canonical_mantissa. rewrite b.
    cbn [Zdigits2] in c. rewrite c, Z.eqb_refl. reflexivity.
  - (* the carry into a new digit *)
    assert (d1 : Zdigits2 m1 = p + 1).
    { rewrite pw. apply Zdigits2_unique; [lia|]. replace (p + 1 - 1) with p by lia.
      split; [lia|]. apply Z.pow_lt_mono_r; lia. }
    destruct (shr_fexp_spec m1 f loc_Exact) as [sm2 se2].
    { rewrite pw. apply Z.pow_nonneg. lia. }
    { rewrite d1, c. lia. }
    destruct (shr_fexp p em m1 f loc_Exact) as [mrs'' e'']. cbn [fst snd] in sm2, se2.
    rewrite d1, c in sm2, se2. replace (f + 1 - f) with 1 in sm2 by lia.
    rewrite pw in sm2. change (2 ^ 1) with 2 in sm2.
    assert (half : 2 ^ p / 2 = 2 ^ (p - 1)).
    { replace p with (Z.succ (p - 1)) at 1 by lia. rewrite Z.pow_succ_r by lia.
      rewrite Z.mul_comm, Z.div_mul by lia. reflexivity. }
    rewrite half in sm2. rewrite sm2, se2.
    assert (hp : 0 < 2 ^ (p - 1)) by (apply Z.pow_pos_nonneg; lia).
    destruct (2 ^ (p - 1)) as [|q|q] eqn:eq; try lia.
    destruct (f + 1 <=? em - p) eqn:b; [|reflexivity].
    cbn [valid_binary]. unfold bounded, canonical_mantissa. rewrite b.
    assert (dq : Zdigits2 (Zpos q) = p).
    { rewrite <- eq. apply Zdigits2_unique; [lia|]. split; [lia|].
      apply Z.pow_lt_mono_r; lia. }
    cbn [Zdigits2] in dq. rewrite dq.
    replace (p + (f + 1)) with (p + 1 + f) by lia. rewrite c, Z.eqb_refl. reflexivity.
Qed.

(** [binary_round] returns a number of the format. *)
Lemma round_valid s m e : valid_binary p em (binary_round p em s m e) = true.
Proof.
  unfold binary_round, shl_align.
  set (f := fexp p em (Zpos (digits2_pos m) + e)).
  destruct (f - e) as [|q|q] eqn:en.
  - apply round_aux_valid; [lia|]. cbn [Zdigits2]. fold f. lia.
  - apply round_aux_valid; [lia|]. cbn [Zdigits2]. fold f. lia.
  - apply round_aux_valid; [lia|]. cbn [Zdigits2].
    rewrite digits2_pos_iter_xO.
    replace (Zpos (digits2_pos m + q) + f) with (Zpos (digits2_pos m) + e) by lia.
    fold f. lia.
Qed.

Lemma normalize_valid m e z : valid_binary p em (binary_normalize p em m e z) = true.
Proof. destruct m; [reflexivity | apply round_valid | apply round_valid]. Qed.

(** A number of the format is its own rounding. *)
Lemma round_of_valid s m e :
  bounded p em m e = true -> binary_round p em s m e = S754_finite s m e.
Proof.
  unfold bounded, canonical_mantissa. intros b. apply andb_prop in b.
  destruct b as [c b]. apply Z.eqb_eq in c.
  unfold binary_round, shl_align. rewrite c, Z.sub_diag.
  unfold binary_round_aux.
  rewrite (second_shr_canonical (Zpos m) e ltac:(lia) c).
  cbn [shr_m loc_of_shr_record round_nearest_even].
  rewrite (second_shr_canonical (Zpos m) e ltac:(lia) c).
  cbn [shr_m]. rewrite b. reflexivity.
Qed.
End Canonical.

Section ShiftInvariance.
Local Open Scope Z_scope.
Variables p em : Z.

Lemma shr_exact m e n :
  shr (Build_shr_record (Zpos (Pos.iter xO m n)) false false) e (Zpos n)
  = (Build_shr_record (Zpos m) false false, e + Zpos n).
Proof. unfold shr. rewrite iter_pos_eq, shr_iter_xO. reflexivity. Qed.

(** Zeros appended to the mantissa, taken off the exponent, do not change
    the rounding. *)
Lemma round_shift s m e k :
  binary_round p em s (Pos.iter xO m k) (e - Zpos k) = binary_round p em s m e.
Proof.
  unfold binary_round.
  rewrite digits2_pos_iter_xO.
  replace (Zpos (digits2_pos m + k) + (e - Zpos k)) with (Zpos (digits2_pos m) + e) by lia.
  set (f := fexp p em (Zpos (digits2_pos m) + e)).
  unfold shl_align.
  replace (f - (e - Zpos k)) with (f - e + Zpos k) by lia.
  destruct (f - e) as [|q|q] eqn:en.
  - (* f = e *)
    change (0 + Zpos k) with (Zpos k). cbv beta iota.
    unfold binary_round_aux at 1. unfold shr_fexp at 1.
    cbn [Zdigits2]. rewrite digits2_pos_iter_xO.
    replace (Zpos (digits2_pos m + k) + (e - Zpos k)) with (Zpos (digits2_pos m) + e) by lia.
    fold f. replace (f - (e - Zpos k)) with (Zpos k) by lia.
    cbn [shr_record_of_loc]. rewrite shr_exact.
    replace (e - Zpos k + Zpos k) with e by lia.
    unfold binary_round_aux, shr_fexp. cbn [Zdigits2]. fold f.
    rewrite en. reflexivity.
  - (* f > e: the rounding shifts to the right *)
    change (Zpos q + Zpos k) with (Zpos (q + k)). cbv beta iota.
    unfold binary_round_aux. unfold shr_fexp at 1 3.
    cbn [Zdigits2]. rewrite digits2_pos_iter_xO.
    replace (Zpos (digits2_pos m + k) + (e - Zpos k)) with (Zpos (digits2_pos m) + e) by lia.
    fold f. replace (f - (e - Zpos k)) with (Zpos (q + k)) by lia. rewrite en.
    cbn [shr_record_of_loc]. unfold shr.
    rewrite !iter_pos_eq, Pos.iter_add, shr_iter_xO.
    replace (e - Zpos k + Zpos (q + k)) with (e + Zpos q) by lia. reflexivity.
  - (* f < e: the mantissa moves to the left *)
    destruct (Z.neg q + Zpos k) as [|j|j] eqn:ej.
    + (* k zeros are what is needed *)
      assert (q = k) as -> by lia.
      replace (e - Zpos k) with f by lia. reflexivity.
    + (* more zeros than needed: j of them go *)
      assert (ek : k = (q + j)%positive) by lia.
      unfold binary_round_aux at 1. unfold shr_fexp at 1.
      cbn [Zdigits2]. rewrite digits2_pos_iter_xO.
      replace (Zpos (digits2_pos m + k) + (e - Zpos k)) with (Zpos (digits2_pos m) + e) by lia.
      fold f. replace (f - (e - Zpos k)) with (Zpos j) by lia.
      cbn [shr_record_of_loc]. rewrite ek, Pos.add_comm, Pos.iter_add, shr_exact.
      replace (e - Zpos (j + q) + Zpos j) with f by lia.
      unfold binary_round_aux, shr_fexp. cbn [Zdigits2]. rewrite digits2_pos_iter_xO.
      replace (Zpos (digits2_pos m + q) + f) with (Zpos (digits2_pos m) + e) by lia.
      fold f. rewrite Z.sub_diag. reflexivity.
    + (* fewer zeros than needed: j more come *)
      assert (eq : q = (j + k)%positive) by lia.
      rewrite eq, Pos.iter_add. reflexivity.
Qed.
End ShiftInvariance.

(** ** [Math.fround] and the matrix storage *)

Section Fround.
Local Open Scope Z_scope.

(** A number of binary32 as a double. *)
Lemma double_of_single s m e :
  bounded 24 128 m e = true ->
  exists j, binary_round prec emax s m e = S754_finite s (Pos.iter xO m j) (e - Zpos j).
Proof.
  unfold bounded, canonical_mantissa. intros b. apply andb_prop in b.
  destruct b as [c b]. apply Z.eqb_eq in c. apply Z.leb_le in b.
  unfold fexp, emin in c.
  pose proof (Pos2Z.is_pos (digits2_pos m)) as dp.
  assert (dz : 0 < 53 - Zpos (digits2_pos m)) by lia.
  destruct (53 - Zpos (digits2_pos m)) as [|j|j] eqn:ej; try lia.
  exists j. apply round_shift_left; lia.
Qed.

Lemma fround_idempotent (a : number) : Num.fround (Num.fround a) = Num.fround a.
Proof.
  destruct a as [s|s| |s m e]; try reflexivity.
  unfold Num.fround at 2 3.
  pose proof (round_valid 24 128 ltac:(lia) s m e) as val.
  destruct (binary_round 24 128 s m e) as [s'|s'| |s' m' e']; try reflexivity.
  cbn [valid_binary] in val.
  destruct (double_of_single s' m' e' val) as [j ej].
  rewrite ej. unfold Num.fround.
  rewrite (round_shift 24 128 s' m' e' j).
  rewrite (round_of_valid 24 128 s' m' e' val).
  exact ej.
Qed.
End Fround.

Section StoreFacts.
Context `{Platform}.

Lemma store_idempotent (a : number) : Matrix.store (Matrix.store a) = Matrix.store a.
Proof. unfold Matrix.store. destruct MatrixUse64Bits; [reflexivity | apply fround_idempotent]. Qed.

(** The matrix bridge loses nothing after the first trip: the legacy matrix
    that comes back from a round trip comes back from the next one
    unchanged, and the Babylon matrix that [wwtMatrixToBabylon] builds
    comes back unchanged from [babylonMatrixToWWT] followed by
    [wwtMatrixToBabylon]. *)
Theorem matrix_round_trip_is_idempotent m :
  let once := WWTCompat.babylonMatrixToWWT (WWTCompat.wwtMatrixToBabylon m) in
  WWTCompat.babylonMatrixToWWT (WWTCompat.wwtMatrixToBabylon once) = once /\
  WWTCompat.wwtMatrixToBabylon (WWTCompat.babylonMatrixToWWT (WWTCompat.wwtMatrixToBabylon m))
  = WWTCompat.wwtMatrixToBabylon m.
Proof.
  cbv zeta. rewrite !matrix_round_trip. split.
  - destruct m. unfold WWTMatrix3d.map_fields.
    cbn [WWTMatrix3d._m11 WWTMatrix3d._m12 WWTMatrix3d._m13 WWTMatrix3d._m14
         WWTMatrix3d._m21 WWTMatrix3d._m22 WWTMatrix3d._m23 WWTMatrix3d._m24
         WWTMatrix3d._m31 WWTMatrix3d._m32 WWTMatrix3d._m33 WWTMatrix3d._m34
         WWTMatrix3d._offsetX WWTMatrix3d._offsetY WWTMatrix3d._offsetZ WWTMatrix3d._m44].
    rewrite !store_idempotent. reflexivity.
  - destruct m. unfold WWTCompat.wwtMatrixToBabylon, Matrix.FromValues, WWTMatrix3d.map_fields.
    cbn [map WWTMatrix3d._m11 WWTMatrix3d._m12 WWTMatrix3d._m13 WWTMatrix3d._m14
         WWTMatrix3d._m21 WWTMatrix3d._m22 WWTMatrix3d._m23 WWTMatrix3d._m24
         WWTMatrix3d._m31 WWTMatrix3d._m32 WWTMatrix3d._m33 WWTMatrix3d._m34
         WWTMatrix3d._offsetX WWTMatrix3d._offsetY WWTMatrix3d._offsetZ WWTMatrix3d._m44].
    rewrite !store_idempotent. reflexivity.
Qed.
End StoreFacts.

(** ** The remainder operator *)

Section Remainder.
Local Open Scope Z_scope.

Lemma Zdigits2_mono a b : 0 < a -> a <= b -> Zdigits2 a <= Zdigits2 b.
Proof.
  intros ap le. assert (bp : 0 < b) by lia.
  destruct (Zdigits2_bounds a ap) as [lo _]. destruct (Zdigits2_bounds b bp) as [_ hi].
  pose proof (Zdigits2_pos b bp).
  destruct (Z_le_gt_dec (Zdigits2 a) (Zdigits2 b)) as [l|g]; [exact l|].
  exfalso. assert (2 ^ Zdigits2 b <= 2 ^ (Zdigits2 a - 1)) by (apply Z.pow_le_mono_r; lia).
  lia.
Qed.

(** A mantissa that needs no rounding: it only moves to the left. *)
Lemma round_exact s m e f :
  f = fexp prec emax (Zpos (digits2_pos m) + e) ->
  f <= e -> f <= emax - prec ->
  binary_round prec emax s m e = S754_finite s (fst (shl_align m e f)) f.
Proof.
  intros ef le b. unfold shl_align.
  destruct (f - e) as [|k|k] eqn:ek; cbn [fst]; try lia.
  - assert (f = e) as -> by lia. apply round_of_valid.
    unfold bounded, canonical_mantissa. rewrite <- ef, Z.eqb_refl.
    apply Z.leb_le. exact b.
  - rewrite <- (round_shift prec emax s m e k).
    replace (e - Zpos k) with f by lia. apply round_of_valid.
    unfold bounded, canonical_mantissa. rewrite digits2_pos_iter_xO.
    replace (Zpos (digits2_pos m + k) + f) with (Zpos (digits2_pos m) + e) by lia.
    rewrite <- ef, Z.eqb_refl. apply Z.leb_le. exact b.
Qed.

Lemma shiftl_pos m n : 0 <= n -> Z.shiftl (Zpos m) n = Zpos m * 2 ^ n.
Proof. intros nn. apply Z.shiftl_mul_pow2. exact nn. Qed.

(** The remainder of a double that is not negative by a positive double
    is not negative and is less than the divisor. *)
Lemma rem_range (n d : number) :
  valid_binary prec emax n = true -> valid_binary prec emax d = true ->
  is_finite n = true -> Num.ge n Num.zero = true -> positive_finite d = true ->
  Num.ge (Num.rem n d) Num.zero = true /\ Num.lt (Num.rem n d) d = true.
Proof.
  intros vn vd fn ge pos.
  destruct d as [sd|sd| |sd md ed]; try discriminate pos. destruct sd; [discriminate pos|].
  destruct n as [s|s| |s mn en]; try discriminate fn.
  - split; [exact ge | reflexivity].
  - destruct s; [discriminate ge|].
    cbn [valid_binary] in vn, vd. unfold bounded, canonical_mantissa in vn, vd.
    apply andb_prop in vn, vd. destruct vn as [cn bn], vd as [cd bd].
    apply Z.eqb_eq in cn, cd. apply Z.leb_le in bn, bd.
    cbn [Num.rem cond_Zopp].
    set (e := Z.min en ed).
    rewrite !shiftl_pos by lia.
    set (N := Zpos mn * 2 ^ (en - e)). set (D := Zpos md * 2 ^ (ed - e)).
    assert (Dp : 0 < D) by (unfold D; apply Z.mul_pos_pos; [lia | apply Z.pow_pos_nonneg; lia]).
    assert (Np : 0 < N) by (unfold N; apply Z.mul_pos_pos; [lia | apply Z.pow_pos_nonneg; lia]).
    pose proof (Z.rem_bound_pos N D ltac:(lia) Dp) as [r0 rD].
    pose proof (Z.rem_le N D ltac:(lia) Dp) as rN.
    destruct (Z.rem N D) as [|r|r] eqn:er; try lia.
    + split; reflexivity.
    + cbn [binary_normalize].
      set (f := fexp prec emax (Zpos (digits2_pos r) + e)).
      assert (ff : f <= e /\ (f = ed -> Zpos r < Zpos md)).
      { destruct (Z_le_gt_dec ed en) as [l|g].
        - assert (ee : e = ed) by (unfold e; lia).
          assert (D = Zpos md) by (unfold D; rewrite ee, Z.sub_diag, Z.pow_0_r; lia).
          pose proof (Zdigits2_mono (Zpos r) (Zpos md) ltac:(lia) ltac:(lia)) as mono.
          cbn [Zdigits2] in mono. unfold f, fexp in *. split; lia.
        - assert (ee : e = en) by (unfold e; lia).
          assert (N = Zpos mn) by (unfold N; rewrite ee, Z.sub_diag, Z.pow_0_r; lia).
          pose proof (Zdigits2_mono (Zpos r) (Zpos mn) ltac:(lia) ltac:(lia)) as mono.
          cbn [Zdigits2] in mono. unfold f, fexp in *. split; lia. }
      destruct ff as [fe fm].
      assert (eed : e <= ed) by (unfold e; lia).
      rewrite (round_exact false r e f eq_refl fe ltac:(lia)).
      split; [reflexivity|].
      unfold Num.lt, SFltb. cbn [SFcompare].
      destruct (Z.compare_spec f ed) as [same|less|more]; [|reflexivity|lia].
      specialize (fm same). assert (f = e) as fe' by lia.
      unfold shl_align. rewrite fe', Z.sub_diag. cbn [fst].
      change (PosDef.Pos.compare_cont Eq r md) with (Pos.compare r md).
      destruct (Pos.compare_spec r md); try reflexivity; lia.
Qed.
End Remainder.

(** ** The ranges of the azimuth and of the right ascension *)

Lemma add_finite_valid (a b : number) :
  positive_finite b = true -> valid_binary prec emax b = true ->
  valid_binary prec emax (a + b)%num = true.
Proof.
  intros pos vb. destruct b as [sb|sb| |sb mb eb]; try discriminate pos.
  destruct a as [sa|sa| |sa ma ea]; try reflexivity; try exact vb.
  unfold Num.add, SFadd. apply normalize_valid. reflexivity.
Qed.

Section Ranges.
Context `{Platform}.

(** The azimuth that [cartesianToAzAlt] returns lies in [0, 360) whenever
    the angle in degrees plus 360 is a finite number that is not
    negative. *)
Theorem cartesianToAzAlt_azimuth_range w vec v :
  vectors w !! vec = Some v ->
  is_finite (turned_azimuth v) = true ->
  Num.ge (turned_azimuth v) Num.zero = true ->
  exists azalt w',
    AstroMath.cartesianToAzAlt vec w = Some (azalt, w') /\
    Num.ge (Vector2.x azalt) Num.zero = true /\
    Num.lt (Vector2.x azalt) (Num.of_Z 360) = true.
Proof.
  intros e fin ge. unfold AstroMath.cartesianToAzAlt. unfold bind at 1.
  rewrite (normalize_run w vec v e). unfold bind, get_Vector3.
  cbn [vectors set_vectors].
  rewrite list_lookup_insert_eq by (eapply lookup_lt_Some; exact e).
  do 2 eexists. split; [reflexivity|]. cbn [Vector2.x].
  apply rem_range; try assumption; try reflexivity.
  apply add_finite_valid; reflexivity.
Qed.

(** The right ascension that [cartesianToRaDec] returns lies in [0, 24)
    whenever the longitude in hours plus 24 is a finite number that is not
    negative; the declination is the latitude. *)
Theorem cartesianToRaDec_hours_range w vec spherical :
  AstroMath.cartesianToSpherical vec w = Some (spherical, w) ->
  is_finite (turned_hours (Vector2.y spherical)) = true ->
  Num.ge (turned_hours (Vector2.y spherical)) Num.zero = true ->
  exists radec,
    AstroMath.cartesianToRaDec vec w = Some (radec, w) /\
    Num.ge (Vector2.x radec) Num.zero = true /\
    Num.lt (Vector2.x radec) (Num.of_Z 24) = true /\
    Vector2.y radec = Vector2.x spherical.
Proof.
  intros e fin ge. unfold AstroMath.cartesianToRaDec, bind. rewrite e.
  eexists. split; [reflexivity|]. cbn [Vector2.x Vector2.y].
  split; [|split; [|reflexivity]];
    apply rem_range; try assumption; try reflexivity;
    apply add_finite_valid; reflexivity.
Qed.
End Ranges.

(** ** Spherical mode: what [update()] leaves in the configured positions *)

Section SphericalFootprint.
Context `{Platform}.

Lemma spherical_update_run w this a vs ve :
  animators w !! this = Some a -> isAnimating a = true ->
  CameraAnimator.spherical (config a) = true ->
  startTarget (config a) = None ->
  startPosition (config a) <> endPosition (config a) ->
  vectors w !! startPosition (config a) = Some vs ->
  vectors w !! endPosition (config a) = Some ve ->
  exists f w',
    CameraAnimator.update this w = Some (Some f, w') /\
    vectors w' !! startPosition (config a) = Some (normalized vs) /\
    vectors w' !! endPosition (config a) = Some (normalized ve).
Proof.
  intros ea run sph nt ne es ee.
  set (s := startPosition (config a)) in *. set (e := endPosition (config a)) in *.
  rewrite (update_running_eq w this a ea run). cbv zeta.
  set (w0 := clocked_world w this a).
  set (eased := ease _ _).
  assert (es0 : vectors w0 !! s = Some vs) by exact es.
  assert (ee0 : vectors w0 !! e = Some ve) by exact ee.
  (* the position block *)
  unfold position_block. rewrite sph. fold s e.
  unfold bind at 1. unfold bind at 1. rewrite (normalize_run w0 s vs es0).
  set (w1 := set_vectors (<[s := normalized vs]> (vectors w0)) w0).
  assert (es1 : vectors w1 !! s = Some (normalized vs)).
  { unfold w1. cbn [vectors set_vectors]. apply list_lookup_insert_eq.
    eapply lookup_lt_Some; exact es0. }
  assert (ee1 : vectors w1 !! e = Some ve).
  { unfold w1. cbn [vectors set_vectors]. rewrite list_lookup_insert_ne by exact ne.
    exact ee0. }
  unfold bind at 1. rewrite (normalize_run w1 e ve ee1).
  set (w2 := set_vectors (<[e := normalized ve]> (vectors w1)) w1).
  assert (es2 : vectors w2 !! s = Some (normalized vs)).
  { unfold w2. cbn [vectors set_vectors].
    rewrite list_lookup_insert_ne by (intros q; apply ne; symmetry; exact q). exact es1. }
  assert (ee2 : vectors w2 !! e = Some (normalized ve)).
  { unfold w2. cbn [vectors set_vectors]. apply list_lookup_insert_eq.
    eapply lookup_lt_Some; exact ee1. }
  pose proof (lookup_valid _ _ _ es2) as vs2. pose proof (lookup_valid _ _ _ ee2) as ve2.
  destruct (wp_elim _ _ _ (slerp_spec w2 s e eased vs2 ve2))
    as (pos & w3 & run3 & (ea3 & _ & _ & _ & kp3) & vp3 & fr3).
  unfold bind at 1. rewrite run3.
  assert (es3 : vectors w3 !! s = Some (normalized vs)) by (apply kp3; assumption).
  assert (ee3 : vectors w3 !! e = Some (normalized ve)) by (apply kp3; assumption).
  unfold bind at 1. rewrite (length_run w3 s _ es3).
  unfold bind at 1. rewrite (length_run w3 e _ ee3).
  destruct (valid_lookup w3 pos vp3) as [vpos epos].
  rewrite (scaleInPlace_run w3 pos vpos _ epos).
  match goal with |- context [set_vectors ?l w3] => set (w4 := set_vectors l w3) end.
  assert (np : pos <> s /\ pos <> e).
  { unfold valid in vs2, ve2. split; lia. }
  assert (es4 : vectors w4 !! s = Some (normalized vs)).
  { unfold w4. cbn [vectors set_vectors].
    rewrite list_lookup_insert_ne by (apply np). exact es3. }
  assert (ee4 : vectors w4 !! e = Some (normalized ve)).
  { unfold w4. cbn [vectors set_vectors].
    rewrite list_lookup_insert_ne by (apply np). exact ee3. }
  (* the target block and the end *)
  unfold target_block. rewrite nt. unfold bind at 1. unfold ret at 1. cbv beta iota.
  unfold finish_block.
  destruct (Num.ge _ Num.one).
  - assert (ea4 : animators w4 !! this = Some (clocked w a)).
    { unfold w4. cbn [animators set_vectors]. rewrite ea3.
      unfold w2, w1, w0, clocked_world. cbn [animators set_vectors set_animators].
      apply list_lookup_insert_eq. eapply lookup_lt_Some; exact ea. }
    unfold bind, CameraAnimator.assign, bind, get_Animator, put_Animator.
    rewrite ea4. cbn [animators]. rewrite ea4.
    do 2 eexists. split; [reflexivity|]. cbn [vectors set_animators]. split; assumption.
  - do 2 eexists. split; [reflexivity|]. split; assumption.
Qed.

(** In spherical mode, [update()] on a running animator without targets
    leaves in the configured start and end positions (two different
    objects) the unit vectors that [normalize()] makes of them. *)
Theorem spherical_update_normalizes_the_positions w this a vs ve :
  animators w !! this = Some a -> isAnimating a = true ->
  CameraAnimator.spherical (config a) = true ->
  startTarget (config a) = None ->
  startPosition (config a) <> endPosition (config a) ->
  vectors w !! startPosition (config a) = Some vs ->
  vectors w !! endPosition (config a) = Some ve ->
  exists f w',
    CameraAnimator.update this w = Some (Some f, w') /\
    vectors w' !! startPosition (config a) = Some (normalized vs) /\
    vectors w' !! endPosition (config a) = Some (normalized ve).
Proof. exact (spherical_update_run w this a vs ve). Qed.
End SphericalFootprint.

(** ** The functions of two points are symmetric *)

Lemma add_comm (a b : number) : (a + b)%num = (b + a)%num.
Proof.
  unfold Num.add, SFadd.
  destruct a as [sa|sa| |sa ma ea], b as [sb|sb| |sb mb eb]; try reflexivity;
    try (destruct sa, sb; reflexivity).
  rewrite (Z.min_comm eb ea), (Z.add_comm (cond_Zopp sb _)). reflexivity.
Qed.

Section Midpoint.
Context `{Platform}.

Lemma cartesianToSpherical_at w vec v :
  vectors w !! vec = Some v ->
  AstroMath.cartesianToSpherical vec w = Some (spherical_of v, w).
Proof.
  intros e. unfold AstroMath.cartesianToSpherical, spherical_of, bind.
  rewrite (length_run w vec v e).
  destruct (Num.strict_eq _ _); [reflexivity|].
  unfold get_Vector3. rewrite e. reflexivity.
Qed.

Lemma sphericalMidpoint_run lat1 lng1 lat2 lng2 w :
  exists w',
    AstroMath.sphericalMidpoint lat1 lng1 lat2 lng2 w
    = Some (spherical_of (midpoint_of lat1 lng1 lat2 lng2), w').
Proof.
  unfold AstroMath.sphericalMidpoint, midpoint_of.
  set (e1 := position_at lat1 lng1 Num.one). set (e2 := position_at lat2 lng2 Num.one).
  unfold bind at 1. rewrite geoTo3D_at. fold e1.
  unfold bind at 1. rewrite geoTo3D_at. cbn [vectors set_vectors default]. fold e2.
  unfold bind at 1.
  rewrite (add_run _ (length (vectors w)) (length (vectors w ++ [e1])) e1 e2).
  2:{ cbn [vectors set_vectors]. rewrite <- app_assoc. apply lookup_alloc_old. }
  2:{ cbn [vectors set_vectors]. apply lookup_alloc. }
  cbn [vectors set_vectors].
  unfold bind at 1.
  rewrite (scale_run _ _ (vector_sum e1 e2)).
  2:{ cbn [vectors set_vectors]. apply lookup_alloc. }
  cbn [vectors set_vectors].
  unfold bind at 1.
  rewrite (normalize_run _ _ (Vector3.scaled (vector_sum e1 e2) (Num.dec 5 1)))
    by (cbn [vectors set_vectors]; apply lookup_alloc).
  cbn [vectors set_vectors].
  eexists. apply cartesianToSpherical_at.
  cbn [vectors set_vectors]. apply list_lookup_insert_eq.
  rewrite !length_app. cbn [length]. lia.
Qed.

Lemma vector_sum_comm a b : vector_sum a b = vector_sum b a.
Proof.
  unfold vector_sum.
  rewrite (add_comm (Vector3Data.x a)), (add_comm (Vector3Data.y a)),
    (add_comm (Vector3Data.z a)).
  reflexivity.
Qed.

(** [greatCircleDistance] and [sphericalMidpoint] are symmetric: each
    returns the same result, bit for bit, when the two points are
    exchanged. *)
Theorem two_point_functions_are_symmetric lat1 lng1 lat2 lng2 w :
  (exists d w1 w2,
      AstroMath.greatCircleDistance lat1 lng1 lat2 lng2 w = Some (d, w1) /\
      AstroMath.greatCircleDistance lat2 lng2 lat1 lng1 w = Some (d, w2)) /\
  (exists mid w1 w2,
      AstroMath.sphericalMidpoint lat1 lng1 lat2 lng2 w = Some (mid, w1) /\
      AstroMath.sphericalMidpoint lat2 lng2 lat1 lng1 w = Some (mid, w2)).
Proof.
  split.
  - do 3 eexists. rewrite !greatCircleDistance_run.
    rewrite (great_circle_comm lat2 lng2). split; reflexivity.
  - destruct (sphericalMidpoint_run lat1 lng1 lat2 lng2 w) as [w1 r1].
    destruct (sphericalMidpoint_run lat2 lng2 lat1 lng1 w) as [w2 r2].
    exists (spherical_of (midpoint_of lat1 lng1 lat2 lng2)), w1, w2.
    split; [exact r1|]. rewrite r2. unfold midpoint_of.
    rewrite (vector_sum_comm (position_at lat2 lng2 Num.one)). reflexivity.
Qed.
End Midpoint.

(** ** The documented way to build an animator *)

Section CreateCameraMove.
Context `{Platform}.

(** [createCameraMove(from, to, durationMs)] with its default arguments
    builds an animator in spherical mode: once started, its first
    [update()] returns a frame and leaves both [from] and [to] normalised
    in place, whatever their lengths were. *)
Theorem createCameraMove_by_default_normalizes_its_arguments w from to d vs ve :
  from <> to ->
  vectors w !! from = Some vs -> vectors w !! to = Some ve ->
  exists f w',
    (let* a := CameraAnimator.createCameraMove from to d None None in
     CameraAnimator.start a;;
     CameraAnimator.update a) w = Some (Some f, w') /\
    vectors w' !! from = Some (normalized vs) /\
    vectors w' !! to = Some (normalized ve).
Proof.
  intros ne efrom eto.
  unfold bind at 1. unfold CameraAnimator.createCameraMove, CameraAnimator.new.
  cbn [default].
  set (cfg := mkConfig _ _ _ _ _ _ _).
  set (a := mkAnimator cfg _ _ _ _).
  set (w1 := set_animators (animators w ++ [a]) w).
  set (this := length (animators w)).
  assert (ea : animators w1 !! this = Some a) by (apply lookup_alloc).
  unfold bind at 1. rewrite (start_run w1 this a ea).
  set (w2 := started_world w1 this a).
  assert (ea2 : animators w2 !! this = Some (started w1 a)).
  { unfold w2, started_world. cbn [animators set_animators].
    apply list_lookup_insert_eq. eapply lookup_lt_Some; exact ea. }
  apply (spherical_update_run w2 this (started w1 a) vs ve ea2);
    try reflexivity; assumption.
Qed.
End CreateCameraMove.

(** ** A celestial animation from construction to its end *)

Section CelestialRun.
Context `{Platform}.
Import CelestialCameraAnimatorData.

(** A [CelestialCameraAnimator] is built on two new vectors of radius 10,
    the points at the given right ascensions (in hours) and declinations;
    [start()] and [update()] read the clock once each, and when the time
    between the two readings is at least the duration (the progress is
    [1]), [update()] returns the end vector itself and stops. *)
Theorem celestial_animation_ends_on_its_end_vector sRa sDec eRa eDec d w :
  Num.ge (Num.min ((clock w (S (ticks w)) - clock w (ticks w)) / d)%num Num.one)
         Num.one = true ->
  exists this w',
    (let* a := CelestialCameraAnimator.new sRa sDec eRa eDec d in
     let* a := CelestialCameraAnimator.start a in
     CelestialCameraAnimator.update a) w = Some ((Some (endPos this), this), w') /\
    startPos this = length (vectors w) /\
    endPos this = S (length (vectors w)) /\
    isAnimating this = false /\
    vectors w' = vectors w ++ [position_at sDec (sRa * Num.of_Z 15)%num (Num.of_Z 10);
                               position_at eDec (eRa * Num.of_Z 15)%num (Num.of_Z 10)] /\
    ticks w' = S (S (ticks w)).
Proof.
  intros done.
  unfold bind at 1. unfold CelestialCameraAnimator.new.
  unfold bind at 1. rewrite raDecTo3D_at.
  unfold bind at 1. rewrite raDecTo3D_at. cbn [vectors set_vectors default].
  unfold ret at 1. cbv beta iota.
  unfold bind at 1. unfold CelestialCameraAnimator.start.
  unfold bind at 1. unfold Date_now at 1. cbv beta iota. unfold ret at 1. cbv beta iota.
  cbn [ticks clock set_vectors set_ticks].
  rewrite celestial_update_running by reflexivity.
  cbn [startTime duration startPos endPos ticks clock set_vectors set_ticks].
  cbv zeta. rewrite done.
  eexists (mk _ _ _ _ false), _. split; [reflexivity|].
  cbn [startPos endPos isAnimating vectors ticks set_ticks set_vectors id].
  rewrite length_app, <- app_assoc. cbn [length app].
  repeat split; try reflexivity. lia.
Qed.
End CelestialRun.

(** * The properties at concrete inputs, on the reference platform *)

Lemma converters_keep_their_arguments_witness :
  let w := Directions.only Directions.long_vector in
  (exists r, @AstroMath.cartesianToSpherical ReferencePlatform.platform 0 w = Some (r, w)) /\
  (exists r, @AstroMath.cartesianToRaDec ReferencePlatform.platform 0 w = Some (r, w)) /\
  (exists r, AstroMath.projectToXY 0 w = Some (r, w)) /\
  (exists r, AstroMath.projectToXZ 0 w = Some (r, w)) /\
  (forall angleDeg,
      wp (@AstroMath.rotateAroundY ReferencePlatform.platform 0 angleDeg) w (allocates w)) /\
  (forall lat lng radius,
      wp (@AstroMath.geoTo3D ReferencePlatform.platform lat lng radius) w (allocates w)) /\
  (forall ra dec radius,
      wp (@AstroMath.raDecTo3D ReferencePlatform.platform ra dec radius) w (allocates w)) /\
  (forall azimuth altitude,
      wp (@AstroMath.azAltTo3D ReferencePlatform.platform azimuth altitude) w (allocates w)) /\
  (forall lat1 lng1 lat2 lng2,
      wp (@AstroMath.greatCircleDistance ReferencePlatform.platform lat1 lng1 lat2 lng2) w
         (fun _ w' => frame (valid w) w w')) /\
  (forall lat1 lng1 lat2 lng2,
      wp (@AstroMath.sphericalMidpoint ReferencePlatform.platform lat1 lng1 lat2 lng2) w
         (fun _ w' => frame (valid w) w w')).
Proof.
  intros w.
  apply (@converters_keep_their_arguments ReferencePlatform.platform w 0).
  unfold valid. simpl. lia.
Defined.

Lemma copy_round_trip_witness :
  let v := WWTVector3d.mk (Num.of_Z 1) (Num.of_Z 2) (Num.of_Z 3) in
  let old := WWTVector3d.mk Num.zero Num.zero Num.zero in
  let w := Directions.only Directions.long_vector in
  exists w',
    WWTCompat.copyWWTToBabylon v 0 w = Some (tt, w') /\
    frame (all_but 0) w w' /\
    vectors w' !! 0 = Some (babylon_of v) /\
    WWTCompat.babylonToWWT 0 w' = Some (v, w') /\
    WWTCompat.copyBabylonToWWT 0 old w' = Some (v, w').
Proof.
  intros v old w. apply (copy_round_trip v old 0 w). unfold valid. simpl. lia.
Defined.

Lemma matrix_round_trip_from_babylon_witness :
  @WWTCompat.wwtMatrixToBabylon ReferencePlatform.platform
    (WWTCompat.babylonMatrixToWWT Solo.halves) = Solo.halves.
Proof.
  apply (@matrix_round_trip_from_babylon ReferencePlatform.platform Solo.halves).
  - reflexivity.
  - unfold Solo.halves. cbn [Matrix.m repeat]. repeat constructor.
Defined.

Lemma progress_is_at_most_one_witness :
  let a := mkAnimator (Demo.segment 0 1) (Num.of_Z 0) Num.zero true
                      (mkEasing CubicEase EASINGMODE_EASEIN) in
  exists p,
    CameraAnimator.progress 0 Demo.world1 = Some (p, Demo.world1) /\
    Num.gt p Num.one = false /\
    (isAnimating a = false -> p = Num.one) /\
    (Num.ge (currentTime a) Num.zero = true ->
     positive_finite (duration (config a)) = true ->
     Num.ge p Num.zero = true /\ Num.le p Num.one = true).
Proof.
  intros a. apply (progress_is_at_most_one Demo.world1 0 a). reflexivity.
Defined.

Lemma update_changes_only_the_configured_vectors_witness :
  exists f w' a',
    @CameraAnimator.update ReferencePlatform.platform 0 Demo.world1 = Some (Some f, w') /\
    animators w' !! 0 = Some a' /\ config a' = Demo.segment 0 1 /\
    forall r v,
      vectors Demo.world1 !! r = Some v ->
      r <> 0 -> r <> 1 -> None <> Some r -> None <> Some r ->
      vectors w' !! r = Some v.
Proof.
  apply (@update_changes_only_the_configured_vectors ReferencePlatform.platform Demo.world1 0
           (mkAnimator (Demo.segment 0 1) (Num.of_Z 0) Num.zero true
                       (mkEasing CubicEase EASINGMODE_EASEIN))).
  - reflexivity.
  - reflexivity.
  - apply demo_wf_config; simpl; lia.
Defined.

Lemma completed_animator_stays_idle_witness :
  exists w',
    @CameraAnimator.update ReferencePlatform.platform 0 Demo.world1
    = Some (Some (terminal_frame (Demo.segment 0 1)), w') /\
    @CameraAnimator.update ReferencePlatform.platform 0 w' = Some (None, w') /\
    CameraAnimator.progress 0 w' = Some (Num.one, w') /\
    CameraAnimator.active 0 w' = Some (false, w').
Proof.
  apply (@completed_animator_stays_idle ReferencePlatform.platform Demo.world1 0
           (mkAnimator (Demo.segment 0 1) (Num.of_Z 0) Num.zero true
                       (mkEasing CubicEase EASINGMODE_EASEIN))).
  - reflexivity.
  - reflexivity.
  - apply demo_wf_config; simpl; lia.
  - vm_compute. reflexivity.
Defined.

Lemma empty_chain_is_inert_witness :
  let c := CameraAnimationChain.new [] in
  CameraAnimationChain.start c Demo.world0 = Some (c, Demo.world0) /\
  @CameraAnimationChain.update ReferencePlatform.platform c Demo.world0
  = Some ((None, c), Demo.world0) /\
  CameraAnimationChain.active c Demo.world0 = Some (false, Demo.world0).
Proof.
  intros c. apply (@empty_chain_is_inert ReferencePlatform.platform c Demo.world0).
  reflexivity.
Defined.

Lemma demo_second_update :
  exists w3,
    @CameraAnimationChain.update ReferencePlatform.platform Demo.chain0 Demo.world2
    = Some ((Some (mkFrame 4 None), CameraAnimationChain.set_currentIndex 1 Demo.chain0), w3).
Proof.
  exists (match @CameraAnimationChain.update ReferencePlatform.platform Demo.chain0 Demo.world2
          with Some (_, w) => w | None => Demo.world2 end).
  vm_compute. reflexivity.
Qed.

Lemma chain_cursor_moves_forward_witness :
  let c' := CameraAnimationChain.set_currentIndex 1 Demo.chain0 in
  animations c' = animations Demo.chain0 /\
  (currentIndex c' = currentIndex Demo.chain0 \/
   currentIndex c' = S (currentIndex Demo.chain0)) /\
  currentIndex c' < length (animations c').
Proof.
  intros c'. destruct demo_second_update as [w3 e].
  apply (@chain_cursor_moves_forward ReferencePlatform.platform
           Demo.chain0 Demo.world0 Demo.chain0 Demo.world2 [Some (mkFrame 1 None)]
           (Some (mkFrame 4 None)) c' w3).
  - discriminate.
  - exact demo_wf_chain.
  - exact demo_reachable.
  - exact e.
Defined.

Lemma solo_wf_chain : wf_chain Demo.world0 Solo.chain.
Proof.
  intros i r e. destruct i as [|i]; simpl in e; inversion e; subst; clear e.
  eexists. split; [reflexivity|]. unfold wf_config, valid; simpl.
  repeat split; try lia; discriminate.
Qed.

Lemma solo_reachable :
  @reachable ReferencePlatform.platform Solo.chain Demo.world0 Solo.chain Demo.world2
    [Some (mkFrame 1 None)].
Proof.
  apply (reach_update _ _ Solo.chain Demo.world1 [] (Some (mkFrame 1 None))
           Solo.chain Demo.world2).
  - apply reach_start. vm_compute. reflexivity.
  - vm_compute. reflexivity.
Qed.

Lemma solo_last_update :
  @CameraAnimationChain.update ReferencePlatform.platform Solo.chain Demo.world2
  = Some ((None, Solo.chain), Demo.world2).
Proof. vm_compute. reflexivity. Qed.

Lemma finished_chain_stays_finished_witness :
  Solo.chain = Solo.chain /\ Demo.world2 = Demo.world2 /\
  @CameraAnimationChain.update ReferencePlatform.platform Solo.chain Demo.world2
  = Some ((None, Solo.chain), Demo.world2) /\
  CameraAnimationChain.active Solo.chain Demo.world2 = Some (false, Demo.world2).
Proof.
  apply (@finished_chain_stays_finished ReferencePlatform.platform
           Solo.chain Demo.world0 Solo.chain Demo.world2 [Some (mkFrame 1 None)]
           Solo.chain Demo.world2).
  - discriminate.
  - exact solo_wf_chain.
  - exact solo_reachable.
  - exact solo_last_update.
Defined.

Lemma findStarsInFOV_filters_witness :
  let w := Directions.only Directions.long_vector in
  exists w',
    @StarfieldExample.findStarsInFOV ReferencePlatform.platform [0]
      Num.zero Num.zero (Num.of_Z 90) w
    = Some (List.filter (@star_in_field ReferencePlatform.platform w
                           Num.zero Num.zero (Num.of_Z 90)) [0], w') /\
    frame (valid w) w w'.
Proof.
  intros w.
  apply (@findStarsInFOV_filters ReferencePlatform.platform [0]
           Num.zero Num.zero (Num.of_Z 90) w).
  repeat constructor.
Defined.

Lemma celestial_update_keeps_every_vector_witness :
  let this := Solo.celestial in
  let w := Directions.opposite in
  exists res this' w',
    @CelestialCameraAnimator.update ReferencePlatform.platform this w
    = Some ((res, this'), w') /\
    (forall r v, vectors w !! r = Some v -> vectors w' !! r = Some v) /\
    CelestialCameraAnimatorData.startPos this' = 0 /\
    CelestialCameraAnimatorData.endPos this' = 1 /\
    CelestialCameraAnimatorData.duration this' = Num.of_Z 1000 /\
    (true = false -> res = None /\ this' = this /\ w' = w) /\
    (true = true ->
     exists r, res = Some r /\ length (vectors w) <= r /\ valid w' r /\ this' = this).
Proof.
  intros this w.
  apply (@celestial_update_keeps_every_vector ReferencePlatform.platform this w).
  - unfold valid. simpl. lia.
  - unfold valid. simpl. lia.
Defined.

Lemma cartesianToAzAlt_azimuth_range_witness :
  exists azalt w',
    @AstroMath.cartesianToAzAlt ReferencePlatform.platform 0
      (Directions.only Directions.long_vector) = Some (azalt, w') /\
    Num.ge (Vector2.x azalt) Num.zero = true /\
    Num.lt (Vector2.x azalt) (Num.of_Z 360) = true.
Proof.
  apply (@cartesianToAzAlt_azimuth_range ReferencePlatform.platform
           (Directions.only Directions.long_vector) 0 Directions.long_vector).
  - reflexivity.
  - vm_compute. reflexivity.
  - vm_compute. reflexivity.
Defined.

Lemma cartesianToRaDec_hours_range_witness :
  let w := Directions.only Directions.long_vector in
  let spherical := @spherical_of ReferencePlatform.platform Directions.long_vector in
  exists radec,
    @AstroMath.cartesianToRaDec ReferencePlatform.platform 0 w = Some (radec, w) /\
    Num.ge (Vector2.x radec) Num.zero = true /\
    Num.lt (Vector2.x radec) (Num.of_Z 24) = true /\
    Vector2.y radec = Vector2.x spherical.
Proof.
  intros w spherical.
  apply (@cartesianToRaDec_hours_range ReferencePlatform.platform w 0 spherical).
  - apply cartesianToSpherical_at. reflexivity.
  - vm_compute. reflexivity.
  - vm_compute. reflexivity.
Defined.

Lemma spherical_update_normalizes_the_positions_witness :
  let d := Num.of_Z 1000 in
  let w := started_world (Orbit.world d 500) 0 (Orbit.animator d) in
  exists f w',
    @CameraAnimator.update ReferencePlatform.platform 0 w = Some (Some f, w') /\
    vectors w' !! 0 = Some (normalized Orbit.start_vector) /\
    vectors w' !! 1 = Some (normalized Orbit.end_vector).
Proof.
  intros d w.
  apply (@spherical_update_normalizes_the_positions ReferencePlatform.platform w 0
           (started (Orbit.world d 500) (Orbit.animator d))
           Orbit.start_vector Orbit.end_vector).
  - reflexivity.
  - reflexivity.
  - reflexivity.
  - reflexivity.
  - discriminate.
  - reflexivity.
  - reflexivity.
Defined.

Lemma createCameraMove_by_default_normalizes_its_arguments_witness :
  let w := Orbit.world (Num.of_Z 1000) 500 in
  (vectors w !! 0 = Some Orbit.start_vector /\ vectors w !! 1 = Some Orbit.end_vector) /\
  exists f w',
    (let* a := CameraAnimator.createCameraMove 0 1 (Num.of_Z 1000) None None in
     CameraAnimator.start a;;
     @CameraAnimator.update ReferencePlatform.platform a) w
    = Some (Some f, w') /\
    vectors w' !! 0 = Some Orbit.start_direction /\
    vectors w' !! 1 = Some Orbit.end_direction.
Proof.
  intros w. split; [split; reflexivity|].
  exact (@createCameraMove_by_default_normalizes_its_arguments ReferencePlatform.platform
           w 0 1 (Num.of_Z 1000) Orbit.start_vector Orbit.end_vector
           ltac:(discriminate) eq_refl eq_refl).
Defined.

Lemma celestial_animation_ends_on_its_end_vector_witness :
  let w := Demo.empty_world Demo.clock in
  let d := Num.of_Z 1000 in
  exists this w',
    (let* a := @CelestialCameraAnimator.new ReferencePlatform.platform
                 (Num.of_Z 5) (Num.of_Z 7) (Num.of_Z 11) (Num.of_Z 61) d in
     let* a := CelestialCameraAnimator.start a in
     @CelestialCameraAnimator.update ReferencePlatform.platform a) w
    = Some ((Some (CelestialCameraAnimatorData.endPos this), this), w') /\
    CelestialCameraAnimatorData.startPos this = length (vectors w) /\
    CelestialCameraAnimatorData.endPos this = S (length (vectors w)) /\
    CelestialCameraAnimatorData.isAnimating this = false /\
    vectors w' = vectors w ++
      [@position_at ReferencePlatform.platform (Num.of_Z 7) (Num.of_Z 5 * Num.of_Z 15)%num
         (Num.of_Z 10);
       @position_at ReferencePlatform.platform (Num.of_Z 61) (Num.of_Z 11 * Num.of_Z 15)%num
         (Num.of_Z 10)] /\
    ticks w' = S (S (ticks w)).
Proof.
  intros w d.
  apply (@celestial_animation_ends_on_its_end_vector ReferencePlatform.platform
           (Num.of_Z 5) (Num.of_Z 7) (Num.of_Z 11) (Num.of_Z 61) d w).
  vm_compute. reflexivity.
Defined.

(** * The round trip through the embedding *)

Section RoundTrip.
Context `{Platform}.


End RoundTrip.




